(** * A worker pool and its worker unit

    Shallow embedding of [server/src/workers/WorkerPool.ts],
    [server/src/workers/crypto.worker.ts] and the handlers of
    [server/src/routes.ts].

    The pool object lives in a single-threaded event loop.  Its methods
    and the two completion closures of [executeTask] are embedded as
    functions on an explicit state.  That state holds the five fields of
    the class next to the part of the runtime the code talks to: the
    [Worker] objects with their listener lists, the promises created by
    [runTask], the trace of [postMessage] calls and the console.

    What is taken from the runtime rather than from the code:
    - [new Worker(script)] yields a new object when [script] is an
      absolute path or starts with [./] or [../], and throws
      [ERR_WORKER_PATH] otherwise (paths as on POSIX; whether the file
      exists only shows later, as an ['error'] event);
    - [poolSize] is an integer (the loop counter is compared with it);
    - [postMessage] copies the payload with the structured clone
      algorithm and throws a [DataCloneError] for a payload that cannot be
      copied (a function, for one); on a worker that has exited it
      returns without looking at the payload;
    - a worker posts messages of the shape [crypto.worker.ts] builds;
    - [emit] calls the listeners registered when it starts, a [once]
      listener unregisters itself before it runs, [off] removes the last
      matching registration, and an ['error'] event without a listener is
      thrown;
    - when a worker exits the runtime removes its ['message'] listeners
      and then emits ['exit']; a worker that has exited emits nothing
      more, and [terminate] resumes after its [await] when all workers it
      stopped have exited;
    - an exception that leaves a listener is not caught by anything in
      these files: it ends the run of the event loop;
    - events are interleaved freely otherwise: a worker may emit a
      message, an error or its exit at any time. *)

From Stdlib Require Import ZArith Ascii String List Lia Bool.
From stdpp Require Import base list strings.

Local Open Scope Z_scope.
Local Open Scope nat_scope.

(** ** JavaScript values and arrays *)

Module Js.

(** Error objects, by class and message. *)
Inductive JsError : Type :=
| Error (message : string)
| TypeError (message : string)
| DataCloneError (message : string).

(** What is thrown by a [throw] statement: an [Error] object or anything
    else. *)
Inductive Thrown : Type :=
| ThrownError (e : JsError)
| ThrownOther.

Definition error_message (e : JsError) : string :=
  match e with
  | Error m => m
  | TypeError m => m
  | DataCloneError m => m
  end.

(** [x || d] on a string that may be undefined: the empty string is
    falsy. *)
Definition or_else (x : option string) (d : string) : string :=
  match x with
  | Some s => if String.eqb s "" then d else s
  | None => d
  end.

(** [Array.prototype.push], [pop] (from the end) and [shift] (from the
    front). *)
Definition push {A : Type} (l : list A) (x : A) : list A := l ++ [x].

Definition pop {A : Type} (l : list A) : option A * list A :=
  (last l, removelast l).

Definition shift {A : Type} (l : list A) : option A * list A :=
  match l with
  | [] => (None, [])
  | x :: l' => (Some x, l')
  end.

(** [EventEmitter.removeListener] scans the listener array from its end
    and removes the first match it meets, that is the last registration
    that matches. *)
Fixpoint remove_first {A : Type} (p : A -> bool) (l : list A) : list A :=
  match l with
  | [] => []
  | x :: l' => if p x then l' else x :: remove_first p l'
  end.

Definition removeListener {A : Type} (p : A -> bool) (l : list A) : list A :=
  rev (remove_first p (rev l)).

End Js.

Import Js.

(** ** The message a worker unit posts back *)

Record WorkerResult : Type := mkResult {
  success : bool;
  message : option string;
  error : option string
}.

(** ** WorkerPool.ts *)

Module WorkerPool.

(** The payload is opaque to the pool ([data: any]); it is only handed
    to [postMessage], which copies it for the worker thread.
    [clone_error d] is the message of the [DataCloneError] thrown when
    [d] cannot be copied, and [None] when it can. *)
Class StructuredClone (Data : Type) : Type :=
  clone_error : Data -> option string.

(** The test [new Worker] makes on a file name before anything else:
    [path.isAbsolute(filename) || /^\.\.?[\\/]/.test(filename)]. *)
Definition is_worker_path (filename : string) : bool :=
  String.prefix "/" filename
  || String.prefix "./" filename || String.prefix "../" filename
  || String.prefix ".\" filename || String.prefix "..\" filename.

Definition quoted (text : string) : string :=
  String "034"%char (text ++ String "034"%char EmptyString).

(** [ERR_WORKER_PATH], a [TypeError]. *)
Definition worker_path_error (filename : string) : JsError :=
  TypeError ("The worker script or module filename must be an absolute path "
             ++ "or a relative path starting with './' or '../'. Received "
             ++ quoted filename).

Section Pool.

Context {Data : Type} {cloning : StructuredClone Data}.

(** A promise, with a count of the calls made to its [resolve] and
    [reject] functions.  Only the first call changes the status. *)
Inductive PromiseStatus : Type :=
| Pending
| Fulfilled (value : WorkerResult)
| Rejected (reason : JsError).

Record Promise : Type := mkPromise {
  status : PromiseStatus;
  settle_calls : nat
}.

Definition settle (st : PromiseStatus) (p : Promise) : Promise :=
  {| status := match status p with Pending => st | old => old end;
     settle_calls := S (settle_calls p) |}.

(** [interface WorkerTask]: [resolve] and [reject] are the two functions
    of the promise that [runTask] creates together with the task, so the
    task carries the index of that promise. *)
Record WorkerTask : Type := mkTask {
  data : Data;
  promise : nat
}.

(** The listeners the code registers on a [Worker].  A closure created
    by [executeTask] captures [worker] and [task]; two such closures are
    the same function object when they come from the same call, and a
    task object is passed to [executeTask] once, so they are compared by
    worker and by the promise of the task. *)
Inductive MessageListener : Type :=
| OnceMessageHandler (worker : nat) (task : WorkerTask).

Inductive ErrorListener : Type :=
| OnWorkerError
| OnceErrorHandler (worker : nat) (task : WorkerTask).

Inductive ExitListener : Type :=
| OnWorkerExit.

Definition is_messageHandler (w : nat) (t : WorkerTask) (l : MessageListener) : bool :=
  match l with
  | OnceMessageHandler w' t' => Nat.eqb w w' && Nat.eqb (promise t) (promise t')
  end.

Definition is_errorHandler (w : nat) (t : WorkerTask) (l : ErrorListener) : bool :=
  match l with
  | OnWorkerError => false
  | OnceErrorHandler w' t' => Nat.eqb w w' && Nat.eqb (promise t) (promise t')
  end.

(** A [Worker] object of [worker_threads]. *)
Record Worker : Type := mkWorker {
  message_listeners : list MessageListener;
  error_listeners : list ErrorListener;
  exit_listeners : list ExitListener;
  exited : bool
}.

Inductive ConsoleLine : Type :=
| LogWorkerError (e : JsError)
| LogWorkerExit (code : Z).

Record State : Type := mkState {
  (* fields of the class *)
  workers : list nat;
  availableWorkers : list nat;
  taskQueue : list WorkerTask;
  workerScript : string;
  poolSize : Z;
  (* runtime *)
  heap : list Worker;
  promises : list Promise;
  posted : list (nat * WorkerTask);
  console : list ConsoleLine;
  awaiting : list (list nat)
}.

Definition set_workers (v : list nat) (s : State) : State :=
  mkState v (availableWorkers s) (taskQueue s) (workerScript s) (poolSize s)
          (heap s) (promises s) (posted s) (console s) (awaiting s).
Definition set_availableWorkers (v : list nat) (s : State) : State :=
  mkState (workers s) v (taskQueue s) (workerScript s) (poolSize s)
          (heap s) (promises s) (posted s) (console s) (awaiting s).
Definition set_taskQueue (v : list WorkerTask) (s : State) : State :=
  mkState (workers s) (availableWorkers s) v (workerScript s) (poolSize s)
          (heap s) (promises s) (posted s) (console s) (awaiting s).
Definition set_heap (v : list Worker) (s : State) : State :=
  mkState (workers s) (availableWorkers s) (taskQueue s) (workerScript s) (poolSize s)
          v (promises s) (posted s) (console s) (awaiting s).
Definition set_promises (v : list Promise) (s : State) : State :=
  mkState (workers s) (availableWorkers s) (taskQueue s) (workerScript s) (poolSize s)
          (heap s) v (posted s) (console s) (awaiting s).
Definition set_posted (v : list (nat * WorkerTask)) (s : State) : State :=
  mkState (workers s) (availableWorkers s) (taskQueue s) (workerScript s) (poolSize s)
          (heap s) (promises s) v (console s) (awaiting s).
Definition set_console (v : list ConsoleLine) (s : State) : State :=
  mkState (workers s) (availableWorkers s) (taskQueue s) (workerScript s) (poolSize s)
          (heap s) (promises s) (posted s) v (awaiting s).
Definition set_awaiting (v : list (list nat)) (s : State) : State :=
  mkState (workers s) (availableWorkers s) (taskQueue s) (workerScript s) (poolSize s)
          (heap s) (promises s) (posted s) (console s) v.

(** Normal and abrupt completion of a piece of code, each with the state
    it leaves behind. *)
Inductive completion : Type :=
| Returns (s : State)
| Throws (e : JsError) (s : State).

Definition bind (c : completion) (k : State -> completion) : completion :=
  match c with
  | Returns s => k s
  | Throws e s => Throws e s
  end.

(** *** Runtime operations *)

Definition on_worker (w : nat) (f : Worker -> Worker) (s : State) : State :=
  set_heap (alter f w (heap s)) s.

Definition once_message (w : nat) (l : MessageListener) : State -> State :=
  on_worker w (fun o => mkWorker (push (message_listeners o) l) (error_listeners o)
                                 (exit_listeners o) (exited o)).

Definition once_error (w : nat) (l : ErrorListener) : State -> State :=
  on_worker w (fun o => mkWorker (message_listeners o) (push (error_listeners o) l)
                                 (exit_listeners o) (exited o)).

Definition off_message (w : nat) (p : MessageListener -> bool) : State -> State :=
  on_worker w (fun o => mkWorker (removeListener p (message_listeners o)) (error_listeners o)
                                 (exit_listeners o) (exited o)).

Definition off_error (w : nat) (p : ErrorListener -> bool) : State -> State :=
  on_worker w (fun o => mkWorker (message_listeners o) (removeListener p (error_listeners o))
                                 (exit_listeners o) (exited o)).

Definition has_exited (s : State) (w : nat) : bool :=
  match heap s !! w with
  | Some o => exited o
  | None => true
  end.

(** [worker.postMessage(task.data)].  A worker that has exited takes the
    call and drops the payload; otherwise the payload is copied, and a
    payload that cannot be copied is thrown back as a [DataCloneError].
    The trace keeps the worker and the task of every call that
    returned. *)
Definition postMessage (w : nat) (t : WorkerTask) (s : State) : completion :=
  match (if has_exited s w then None else clone_error (data t)) with
  | None => Returns (set_posted (push (posted s) (w, t)) s)
  | Some m => Throws (DataCloneError m) s
  end.

Definition on_promise (t : WorkerTask) (st : PromiseStatus) (s : State) : State :=
  set_promises (alter (settle st) (promise t) (promises s)) s.

Definition resolve (t : WorkerTask) (v : WorkerResult) : State -> State :=
  on_promise t (Fulfilled v).

Definition reject (t : WorkerTask) (e : JsError) : State -> State :=
  on_promise t (Rejected e).

Definition console_error (l : ConsoleLine) (s : State) : State :=
  set_console (push (console s) l) s.

(** *** Methods of the class *)

(** What [new Worker] and [createWorker] give: a worker, referred to by
    its index, or an exception. *)
Inductive creation : Type :=
| Created (worker : nat) (s : State)
| NotCreated (e : JsError) (s : State).

(** [new Worker(this.workerScript)]: a new object without listeners, or
    [ERR_WORKER_PATH]. *)
Definition new_Worker (s : State) : creation :=
  if is_worker_path (workerScript s)
  then Created (length (heap s)) (set_heap (heap s ++ [mkWorker [] [] [] false]) s)
  else NotCreated (worker_path_error (workerScript s)) s.

Definition on_error (w : nat) (l : ErrorListener) : State -> State :=
  on_worker w (fun o => mkWorker (message_listeners o) (push (error_listeners o) l)
                                 (exit_listeners o) (exited o)).

Definition on_exit (w : nat) (l : ExitListener) : State -> State :=
  on_worker w (fun o => mkWorker (message_listeners o) (error_listeners o)
                                 (push (exit_listeners o) l) (exited o)).

Definition createWorker (s : State) : creation :=
  match new_Worker s with
  | Created worker s =>
      let s := on_error worker OnWorkerError s in
      let s := on_exit worker OnWorkerExit s in
      Created worker s
  | NotCreated e s => NotCreated e s
  end.

(** One pass of the loop of [initializePool]. *)
Definition add_worker (s : State) : completion :=
  match createWorker s with
  | Created worker s =>
      let s := set_workers (push (workers s) worker) s in
      Returns (set_availableWorkers (push (availableWorkers s) worker) s)
  | NotCreated e s => Throws e s
  end.

(** [for (let i = 0; i < this.poolSize; i++)]: one pass per integer of
    [0 .. poolSize - 1], none when [poolSize <= 0]; an exception ends the
    loop. *)
Definition initializePool (s : State) : completion :=
  foldl (fun c (_ : Z) => bind c add_worker) (Returns s) (seqZ 0 (poolSize s)).

(** [constructor(workerScript, poolSize = 4)], in a runtime without
    workers or promises. *)
Definition constructor (script : string) (size : option Z) : completion :=
  initializePool (mkState [] [] [] script (default 4%Z size) [] [] [] [] []).

(** [executeTask]: when [pop()] yields [undefined], the first use of
    [worker], [worker.once], throws a [TypeError].  Both closures are
    registered before [postMessage] is called. *)
Definition once_of_undefined : JsError :=
  TypeError "Cannot read properties of undefined (reading 'once')".

Definition executeTask (task : WorkerTask) (s : State) : completion :=
  match pop (availableWorkers s) with
  | (None, _) => Throws once_of_undefined s
  | (Some worker, rest) =>
      let s := set_availableWorkers rest s in
      let s := once_message worker (OnceMessageHandler worker task) s in
      let s := once_error worker (OnceErrorHandler worker task) s in
      postMessage worker task s
  end.

(** The part shared by both closures: "process next task in queue if
    any". *)
Definition next_in_queue (s : State) : completion :=
  if (0 <? length (taskQueue s))%nat then
    match shift (taskQueue s) with
    | (Some nextTask, rest) => executeTask nextTask (set_taskQueue rest s)
    | (None, _) =>
        (* not reached: the queue was just found non-empty *)
        Throws (TypeError "Cannot read properties of undefined (reading 'data')") s
    end
  else Returns s.

Definition messageHandler (worker : nat) (task : WorkerTask)
           (result : WorkerResult) (s : State) : completion :=
  let s := off_message worker (is_messageHandler worker task) s in
  let s := off_error worker (is_errorHandler worker task) s in
  let s := set_availableWorkers (push (availableWorkers s) worker) s in
  bind (next_in_queue s) (fun s =>
  if success result then Returns (resolve task result s)
  else Returns (reject task (Error (or_else (error result) "Task failed")) s)).

Definition errorHandler (worker : nat) (task : WorkerTask)
           (err : JsError) (s : State) : completion :=
  let s := off_message worker (is_messageHandler worker task) s in
  let s := off_error worker (is_errorHandler worker task) s in
  let s := set_availableWorkers (push (availableWorkers s) worker) s in
  bind (next_in_queue s) (fun s =>
  Returns (reject task err s)).

(** [runTask]: the executor of [new Promise] runs at once; an exception
    it throws is caught by the promise and rejects it.  The result is
    the index of the promise returned to the caller. *)
Definition runTask_executor (task : WorkerTask) (s : State) : completion :=
  if (0 <? length (availableWorkers s))%nat then executeTask task s
  else Returns (set_taskQueue (push (taskQueue s) task) s).

Definition runTask (d : Data) (s : State) : nat * State :=
  let p := length (promises s) in
  let s := set_promises (push (promises s) (mkPromise Pending 0)) s in
  let task := mkTask d p in
  match runTask_executor task s with
  | Returns s' => (p, s')
  | Throws e s' => (p, reject task e s')
  end.

(** [terminate] up to its [await]: every worker of [this.workers] is
    told to stop, and the rest of the method waits for their exits. *)
Definition terminate_call (s : State) : State :=
  set_awaiting (push (awaiting s) (workers s)) s.

(** [terminate] after its [await]. *)
Definition terminate_resume (s : State) : State :=
  let s := set_workers [] s in
  set_availableWorkers [] s.

(** *** Events of the event loop *)

Fixpoint call_all {L : Type} (call : L -> State -> completion)
         (ls : list L) (s : State) : completion :=
  match ls with
  | [] => Returns s
  | l :: ls' => bind (call l s) (call_all call ls')
  end.

(** A listener registered with [once] unregisters itself from the
    emitter and then runs; one registered with [on] just runs. *)
Definition call_message_listener (w : nat) (result : WorkerResult)
           (l : MessageListener) (s : State) : completion :=
  match l with
  | OnceMessageHandler worker task =>
      messageHandler worker task result
                     (off_message w (is_messageHandler worker task) s)
  end.

Definition call_error_listener (w : nat) (err : JsError)
           (l : ErrorListener) (s : State) : completion :=
  match l with
  | OnWorkerError => Returns (console_error (LogWorkerError err) s)
  | OnceErrorHandler worker task =>
      errorHandler worker task err
                   (off_error w (is_errorHandler worker task) s)
  end.

Definition call_exit_listener (code : Z) (l : ExitListener) (s : State) : completion :=
  match l with
  | OnWorkerExit =>
      if Z.eqb code 0 then Returns s
      else Returns (console_error (LogWorkerExit code) s)
  end.

(** [emit] calls the listeners registered when it starts, in order.  A
    worker that has exited emits nothing more. *)
Definition emit_message (w : nat) (result : WorkerResult) (s : State) : completion :=
  match heap s !! w with
  | Some o =>
      if exited o then Returns s
      else call_all (call_message_listener w result) (message_listeners o) s
  | None => Returns s
  end.

(** An ['error'] event without any listener is thrown by [emit]. *)
Definition emit_error (w : nat) (err : JsError) (s : State) : completion :=
  match heap s !! w with
  | Some o =>
      if exited o then Returns s
      else match error_listeners o with
           | [] => Throws err s
           | ls => call_all (call_error_listener w err) ls s
           end
  | None => Returns s
  end.

(** The exit of a worker: the runtime removes all its ['message']
    listeners and emits ['exit']. *)
Definition emit_exit (w : nat) (code : Z) (s : State) : completion :=
  match heap s !! w with
  | Some o =>
      if exited o then Returns s
      else
        let s := on_worker w (fun o => mkWorker [] (error_listeners o)
                                                (exit_listeners o) true) s in
        call_all (call_exit_listener code) (exit_listeners o) s
  | None => Returns s
  end.

Inductive Event : Type :=
| RunTask (d : Data)
| Message (w : nat) (result : WorkerResult)
| WorkerError (w : nat) (err : JsError)
| WorkerExit (w : nat) (code : Z)
| TerminateCall
| TerminateResume.

(** The oldest pending [terminate] resumes once all the workers it
    stopped have exited. *)
Definition resume_enabled (s : State) : bool :=
  match awaiting s with
  | [] => false
  | ws :: _ => forallb (has_exited s) ws
  end.

Definition step (ev : Event) (s : State) : completion :=
  match ev with
  | RunTask d => Returns (snd (runTask d s))
  | Message w result => emit_message w result s
  | WorkerError w err => emit_error w err s
  | WorkerExit w code => emit_exit w code s
  | TerminateCall => Returns (terminate_call s)
  | TerminateResume =>
      if resume_enabled s
      then Returns (terminate_resume (set_awaiting (tail (awaiting s)) s))
      else Returns s
  end.

Fixpoint run (evs : list Event) (s : State) : completion :=
  match evs with
  | [] => Returns s
  | ev :: evs' => bind (step ev s) (run evs')
  end.

(** The pool from its construction through a sequence of events. *)
Definition scenario (script : string) (size : option Z) (evs : list Event) : completion :=
  bind (constructor script size) (run evs).

(** The state a piece of code leaves behind, however it completes. *)
Definition final (c : completion) : State :=
  match c with
  | Returns s => s
  | Throws _ s => s
  end.

(** *** Views of the state *)

Definition idle (s : State) : list nat := availableWorkers s.

(** The workers of the pool that are busy: those that [executeTask] has
    popped from the available list and no completion closure has pushed
    back. *)
Definition busy (s : State) : list nat :=
  filter (fun w => w ∉ availableWorkers s) (workers s).

(** A worker on which a completion closure waits for a message. *)
Definition is_busy (o : Worker) : bool :=
  match message_listeners o with
  | [] => false
  | _ :: _ => true
  end.

Definition worker_busy (hp : list Worker) (w : nat) : bool :=
  match hp !! w with
  | Some o => is_busy o
  | None => false
  end.

Definition promise_status (s : State) (p : nat) : option PromiseStatus :=
  status <$> promises s !! p.

(** *** Shapes and invariants of the reachable states *)

(** The three shapes of a worker of the pool: with the listeners of
    [createWorker] only; with the two closures of one [executeTask] call
    added; and what is left of the second shape after the exit of the
    worker, which takes the message closure away. *)
Definition idle_worker (ex : bool) : Worker :=
  mkWorker [] [OnWorkerError] [OnWorkerExit] ex.

Definition busy_worker (w : nat) (t : WorkerTask) (ex : bool) : Worker :=
  mkWorker [OnceMessageHandler w t] [OnWorkerError; OnceErrorHandler w t]
           [OnWorkerExit] ex.

Definition stranded_worker (w : nat) (t : WorkerTask) : Worker :=
  mkWorker [] [OnWorkerError; OnceErrorHandler w t] [OnWorkerExit] true.

(** What the exit of a worker leaves of it. *)
Definition gone (o : Worker) : Worker :=
  mkWorker [] (error_listeners o) (exit_listeners o) true.

Definition unsettled : Promise := mkPromise Pending 0.

(** What holds of the lists and the workers in every state the event
    loop reaches, whatever the payloads. *)
Record Shape (s : State) : Prop := mkShape {
  sh_heap : forall w o, heap s !! w = Some o ->
    (exists ex, o = idle_worker ex) \/ (exists t ex, o = busy_worker w t ex) \/
    (exists t, o = stranded_worker w t);
  sh_avail_nodup : NoDup (availableWorkers s);
  sh_avail_idle : forall w, w ∈ availableWorkers s ->
    exists ex, heap s !! w = Some (idle_worker ex);
  sh_queue_avail : taskQueue s <> [] -> availableWorkers s = [];
  sh_owner : forall w o, heap s !! w = Some o -> w ∈ workers s \/ exited o = true;
  sh_awaits : forall ws w, ws ∈ awaiting s -> w ∈ workers s -> w ∈ ws
}.


(** What holds of the tasks and their promises when every payload can
    be copied. *)
Record Inv (s : State) : Prop := mkInv {
  inv_inflight : forall w t ex, heap s !! w = Some (busy_worker w t ex) ->
    (w, t) ∈ posted s /\ promises s !! promise t = Some unsettled;
  inv_stranded : forall w t, heap s !! w = Some (stranded_worker w t) ->
    (w, t) ∈ posted s /\ promises s !! promise t = Some unsettled;
  inv_queue : forall t, t ∈ taskQueue s -> promises s !! promise t = Some unsettled;
  inv_order :
    ((fun d => promise (snd d)) <$> posted s) ++ (promise <$> taskQueue s)
    = seq 0 (length (promises s));
  inv_calls : forall p c, promises s !! p = Some c ->
    (settle_calls c = 0 /\ status c = Pending) \/
    (settle_calls c = 1 /\ status c <> Pending)
}.

(** After a [terminate] has resumed: nothing is available and every
    worker has exited. *)
Definition Dead (s : State) : Prop :=
  availableWorkers s = [] /\ forall w o, heap s !! w = Some o -> exited o = true.

(** The state after [executeTask] has handed [t] to the idle worker
    [w], leaving [av] available. *)
Definition dispatched (w : nat) (t : WorkerTask) (ex : bool) (av : list nat)
           (s : State) : State :=
  mkState (workers s) av (taskQueue s) (workerScript s) (poolSize s)
          (<[w := busy_worker w t ex]> (heap s)) (promises s)
          (posted s ++ [(w, t)]) (console s) (awaiting s).

(** The bookkeeping of a completion on worker [w]: the worker goes back
    to the available list, or straight to the head of the queue. *)
Definition completed (w : nat) (s : State) : State :=
  match taskQueue s with
  | [] =>
      mkState (workers s) (availableWorkers s ++ [w]) [] (workerScript s) (poolSize s)
              (<[w := idle_worker false]> (heap s)) (promises s)
              (posted s) (console s) (awaiting s)
  | n :: q =>
      mkState (workers s) (availableWorkers s) q (workerScript s) (poolSize s)
              (<[w := busy_worker w n false]> (heap s)) (promises s)
              (posted s ++ [(w, n)]) (console s) (awaiting s)
  end.

(** The state in which [executeTask] calls [postMessage], and in which
    it is left when [postMessage] refuses the payload of [t]: the worker
    [w] is taken and carries both closures, and nothing was sent. *)
Definition taken (w : nat) (t : WorkerTask) (ex : bool) (av : list nat)
           (s : State) : State :=
  mkState (workers s) av (taskQueue s) (workerScript s) (poolSize s)
          (<[w := busy_worker w t ex]> (heap s)) (promises s)
          (posted s) (console s) (awaiting s).

(** Whether [postMessage] would refuse the payload at the head of the
    queue, and the state in which a completion closure on [w] is left
    when it does: the head of the queue is taken, the worker carries its
    closures, nothing was sent and nothing was settled. *)
Definition next_refused (s : State) : option string :=
  match taskQueue s with
  | n :: _ => clone_error (data n)
  | [] => None
  end.

Definition stalled (w : nat) (s : State) : State :=
  match taskQueue s with
  | [] => s
  | n :: q => taken w n false (availableWorkers s) (set_taskQueue q s)
  end.

(** What [executeTask] does to the worker it takes: both closures are
    registered with [once]. *)
Definition attach (w : nat) (t : WorkerTask) (o : Worker) : Worker :=
  mkWorker (message_listeners o ++ [OnceMessageHandler w t])
           (error_listeners o ++ [OnceErrorHandler w t])
           (exit_listeners o) (exited o).

(** The state built by the constructor for a given [poolSize]. *)
Definition fresh_pool (script : string) (ps : Z) : State :=
  mkState (seq 0 (Z.to_nat ps)) (seq 0 (Z.to_nat ps)) [] script ps
          (replicate (Z.to_nat ps) (idle_worker false)) [] [] [] [].

(** How one event may change the promises: not at all, by one new
    pending promise, or by the first settlement of one promise. *)
Definition promises_step (s s' : State) : Prop :=
  promises s' = promises s \/
  promises s' = promises s ++ [unsettled] \/
  exists p st, st <> Pending /\ promises s !! p = Some unsettled /\
               promises s' = alter (settle st) p (promises s).

Definition exit_logged (code : Z) (s : State) : State :=
  if Z.eqb code 0 then s else console_error (LogWorkerExit code) s.

Definition settle_with (result : WorkerResult) (t : WorkerTask) (s : State) : State :=
  if success result then resolve t result s
  else reject t (Error (or_else (error result) "Task failed")) s.


Definition is_submission (ev : Event) : bool :=
  match ev with
  | RunTask _ => true
  | _ => false
  end.

(** The events that can run a completion closure. *)
Definition is_completion (ev : Event) : bool :=
  match ev with
  | Message _ _ | WorkerError _ _ => true
  | _ => false
  end.

(** The shapes one event of the event loop can give to a state when
    every payload can be copied. *)
Inductive Trans (s : State) : State -> Prop :=
| Trans_none : Trans s s
| Trans_enqueue (d : Data) :
    availableWorkers s = [] ->
    Trans s (set_taskQueue (taskQueue s ++ [mkTask d (length (promises s))])
               (set_promises (promises s ++ [unsettled]) s))
| Trans_dispatch (d : Data) (av : list nat) (w : nat) (ex : bool) :
    availableWorkers s = av ++ [w] ->
    heap s !! w = Some (idle_worker ex) ->
    taskQueue s = [] ->
    Trans s (dispatched w (mkTask d (length (promises s))) ex av
               (set_promises (promises s ++ [unsettled]) s))
| Trans_message (w : nat) (t : WorkerTask) (result : WorkerResult) :
    heap s !! w = Some (busy_worker w t false) ->
    Trans s (settle_with result t (completed w s))
| Trans_error_idle (w : nat) (err : JsError) :
    heap s !! w = Some (idle_worker false) ->
    Trans s (console_error (LogWorkerError err) s)
| Trans_error (w : nat) (t : WorkerTask) (err : JsError) :
    heap s !! w = Some (busy_worker w t false) ->
    Trans s (reject t err (completed w (console_error (LogWorkerError err) s)))
| Trans_exit (w : nat) (o : Worker) (code : Z) :
    heap s !! w = Some o -> exited o = false ->
    Trans s (exit_logged code (set_heap (<[w := gone o]> (heap s)) s))
| Trans_call : Trans s (terminate_call s)
| Trans_resume :
    resume_enabled s = true ->
    Trans s (terminate_resume (set_awaiting (tail (awaiting s)) s)).

(** The worker [w] has the task [t]: it carries the closures of the
    [executeTask] call that took it for [t]. *)
Definition carries (s : State) (w : nat) (t : WorkerTask) : Prop :=
  (exists ex, heap s !! w = Some (busy_worker w t ex)) \/
  heap s !! w = Some (stranded_worker w t).

(** Every payload handed to a worker is still with that worker, or its
    promise has been settled. *)
Definition Owned (s : State) : Prop :=
  forall w t, (w, t) ∈ posted s ->
    carries s w t \/
    (exists c, promises s !! promise t = Some c /\ status c <> Pending).

(** Where a submitted task is, by the index of its promise: waiting in
    the queue, with a worker, or settled.  A task is with a worker from
    the [executeTask] call that registers its two closures until one of
    them runs and takes both away; the error closure is not touched by
    anything else, not by the exit of the worker either. *)
Definition queued (s : State) (p : nat) : Prop :=
  exists t, t ∈ taskQueue s /\ promise t = p.

Definition running_on (s : State) (w : nat) (p : nat) : Prop :=
  exists o w' t, heap s !! w = Some o /\
    OnceErrorHandler w' t ∈ error_listeners o /\ promise t = p.

Definition settled (s : State) (p : nat) : Prop :=
  exists c, promises s !! p = Some c /\ status c <> Pending.

End Pool.

Arguments State : clear implicits.
Arguments Event : clear implicits.
Arguments WorkerTask : clear implicits.
Arguments completion : clear implicits.
Arguments creation : clear implicits.

End WorkerPool.


(** ** crypto.worker.ts *)

Module CryptoWorker.

Section Unit.

(** The payload [{ vitals }]; the handler does not look at it. *)
Context {Payload : Type}.

(** [simulateHeavyEncryption] is imported from [../utils/crypto]: its
    [n]-th call either returns ([None]) or throws a value. *)
Variable simulateHeavyEncryption : nat -> option Thrown.

Record UnitState : Type := mkUnit {
  listening : bool;          (* the 'message' listener is registered *)
  calls : nat;               (* calls made to the handler so far *)
  outbox : list WorkerResult;  (* parentPort.postMessage, in order *)
  crashed : bool             (* an exception escaped a listener *)
}.

Definition postMessage (m : WorkerResult) (u : UnitState) : UnitState :=
  mkUnit (listening u) (calls u) (push (outbox u) m) (crashed u).

Definition call_handler (u : UnitState) : option Thrown * UnitState :=
  (simulateHeavyEncryption (calls u),
   mkUnit (listening u) (S (calls u)) (outbox u) (crashed u)).

(** [error instanceof Error ? error.message : 'Unknown error'] *)
Definition describe (v : Thrown) : string :=
  match v with
  | ThrownError e => error_message e
  | ThrownOther => "Unknown error"
  end.

(** The [try] block: the handler, then the success message; what the
    handler throws leaves the block. *)
Definition try_block (u : UnitState) : option Thrown * UnitState :=
  match call_handler u with
  | (None, u) =>
      (None, postMessage (mkResult true (Some "Vitals encrypted successfully") None) u)
  | (Some err, u) => (Some err, u)
  end.

(** The [catch (error)] block. *)
Definition catch_block (err : Thrown) (u : UnitState) : option Thrown * UnitState :=
  (None, postMessage (mkResult false None (Some (describe err))) u).

(** The listener body: [try { ... } catch (error) { ... }].  The result
    says whether an exception leaves the listener. *)
Definition on_message (d : Payload) (u : UnitState) : option Thrown * UnitState :=
  match try_block u with
  | (None, u) => (None, u)
  | (Some err, u) => catch_block err u
  end.

(** [if (parentPort) parentPort.on('message', ...)] *)
Definition main (parentPort : bool) : UnitState :=
  mkUnit parentPort 0 [] false.

(** Delivery of one payload by the event loop of the worker thread: an
    exception that leaves a listener stops the thread. *)
Definition deliver (u : UnitState) (d : Payload) : UnitState :=
  if crashed u then u
  else if listening u then
    match on_message d u with
    | (None, u') => u'
    | (Some _, u') => mkUnit (listening u') (calls u') (outbox u') true
    end
  else u.

Definition deliver_all (ds : list Payload) (u : UnitState) : UnitState :=
  foldl deliver u ds.

(** The message expected for the [n]-th payload. *)
Definition reply (n : nat) : WorkerResult :=
  match simulateHeavyEncryption n with
  | None => mkResult true (Some "Vitals encrypted successfully") None
  | Some err => mkResult false None (Some (describe err))
  end.

End Unit.

End CryptoWorker.

(** ** routes.ts *)

(** The three route handlers.  Each one is an [async] function: it runs
    up to its next [await] and is resumed when the awaited call returns
    or throws, and other requests may run in between.  What is taken from
    the runtime: [req.body] is an object; the database holds the two
    tables the queries name, [SELECT] returns the matching rows in table
    order, and any awaited database call may throw instead of taking
    effect. *)

Module Routes.

(** A row of [inventory]. *)
Record InventoryRow : Type := mkInventoryRow {
  item_name : string;
  count : Z
}.

(** The body of a response, by its fields. *)
Inductive Body : Type :=
| Body_error (text : string)                (* { error } *)
| Body_count (n : Z)                        (* { count } *)
| Body_success (text : string)              (* { success: true, message } *)
| Body_failure (text : string).             (* { success: false, error } *)

Record Response : Type := mkResponse {
  code : nat;
  body : Body
}.

(** The place where a handler waits. *)
Inductive Pc : Type :=
| AwaitConnect      (* await getDbClient() *)
| AwaitSelect       (* await client.query('SELECT ...') *)
| AwaitUpdate       (* await client.query('UPDATE ...') *)
| AwaitInsert       (* await client.query('INSERT ...') *)
| AwaitEnd          (* finally: await client.end() *)
| AwaitRunTask      (* await encryptionWorkerPool.runTask({ vitals }) *)
| Finished
| Escaped.          (* an exception left the handler *)

(** One request: where its handler waits, whether [client] is set and
    not ended, the responses sent and the errors logged. *)
Record Request : Type := mkRequest {
  pc : Pc;
  client : bool;
  sent : list Response;
  logged : list JsError
}.

Definition arrived : Request := mkRequest AwaitConnect false [] [].

Definition goto (l : Pc) (q : Request) : Request :=
  mkRequest l (client q) (sent q) (logged q).

Definition set_client (b : bool) (q : Request) : Request :=
  mkRequest (pc q) b (sent q) (logged q).

(** [res.status(code).json(body)]; [res.json(body)] is the same with 200. *)
Definition send (r : Response) (q : Request) : Request :=
  mkRequest (pc q) (client q) (push (sent q) r) (logged q).

Definition console_error (e : JsError) (q : Request) : Request :=
  mkRequest (pc q) (client q) (sent q) (push (logged q) e).

(** [finally { if (client) await client.end(); }] *)
Definition finally (q : Request) : Request :=
  if client q then goto AwaitEnd q else goto Finished q.

(** [catch (err) { console.error(err); res.status(500).json(...) }],
    followed by the [finally] block. *)
Definition catch (e : JsError) (q : Request) : Request :=
  finally (send (mkResponse 500 (Body_error "Internal Server Error"))
                (console_error e q)).

Definition batch : string := "Pfizer-Batch-A".

Section Handlers.

(** [patientId], whatever [req.body] holds under that name. *)
Context {Patient : Type}.

(** A row of [reservations]. *)
Record ReservationRow : Type := mkReservationRow {
  patient_id : Patient;
  status : string;
  timestamp : Z
}.

Record Db : Type := mkDb {
  inventory : list InventoryRow;
  reservations : list ReservationRow;
  now : Z
}.

Definition is_item (item : string) (r : InventoryRow) : bool :=
  String.eqb (item_name r) item.

(** [SELECT count FROM inventory WHERE item_name = $1]: [result.rows],
    each row with its [count]. *)
Definition select_count (item : string) (db : Db) : list Z :=
  count <$> filter (fun r => is_item item r = true) (inventory db).

(** [UPDATE inventory SET count = count - 1 WHERE item_name = $1] *)
Definition update_decrement (item : string) (db : Db) : Db :=
  mkDb ((fun r => if is_item item r
                  then mkInventoryRow (item_name r) (count r - 1)
                  else r) <$> inventory db)
       (reservations db) (now db).

(** [INSERT INTO reservations (patient_id, status, timestamp)
     VALUES ($1, $2, NOW())] *)
Definition insert_reservation (p : Patient) (st : string) (db : Db) : Db :=
  mkDb (inventory db)
       (reservations db ++ [mkReservationRow p st (now db)])
       (now db).

(** The two steps every handler with a database client shares. *)
Definition connect_step (o : option JsError) (q : Request) : Request :=
  match o with
  | Some e => catch e q
  | None => goto AwaitSelect (set_client true q)
  end.

Definition end_step (o : option JsError) (q : Request) : Request :=
  match o with
  | Some e => goto Escaped q
  | None => goto Finished (set_client false q)
  end.

(** [GET /hospital-status], resumed at [pc q] with the outcome [o] of
    the awaited call. *)
Definition hospital_status_step (o : option JsError) (q : Request) (db : Db)
  : Request * Db :=
  match pc q with
  | AwaitConnect => (connect_step o q, db)
  | AwaitSelect =>
      match o with
      | Some e => (catch e q, db)
      | None =>
          match select_count batch db with
          | [] =>
              (finally (send (mkResponse 404 (Body_error "Inventory not found")) q), db)
          | n :: _ =>
              (finally (send (mkResponse 200 (Body_count n)) q), db)
          end
      end
  | AwaitEnd => (end_step o q, db)
  | _ => (q, db)
  end.

(** [POST /reserve-dose].  [stockRes.rows[0].count] on an empty result
    throws a [TypeError], inside the [try]. *)
Definition reserve_dose_step (patientId : Patient) (o : option JsError)
           (q : Request) (db : Db) : Request * Db :=
  match pc q with
  | AwaitConnect => (connect_step o q, db)
  | AwaitSelect =>
      match o with
      | Some e => (catch e q, db)
      | None =>
          match select_count batch db with
          | [] =>
              (catch (TypeError "Cannot read properties of undefined (reading 'count')") q,
               db)
          | currentStock :: _ =>
              if (currentStock <=? 0)%Z
              then (finally (send (mkResponse 400 (Body_error "No doses available")) q), db)
              else (goto AwaitUpdate q, db)
          end
      end
  | AwaitUpdate =>
      match o with
      | Some e => (catch e q, db)
      | None => (goto AwaitInsert q, update_decrement batch db)
      end
  | AwaitInsert =>
      match o with
      | Some e => (catch e q, db)
      | None =>
          (finally (send (mkResponse 200 (Body_success "Dose reserved")) q),
           insert_reservation patientId "CONFIRMED" db)
      end
  | AwaitEnd => (end_step o q, db)
  | _ => (q, db)
  end.

Inductive Handler : Type :=
| HospitalStatus
| ReserveDose (patientId : Patient).

Definition handler_step (h : Handler) : option JsError -> Request -> Db -> Request * Db :=
  match h with
  | HospitalStatus => hospital_status_step
  | ReserveDose patientId => reserve_dose_step patientId
  end.

(** One request on its own, through the outcomes of its awaited calls. *)
Definition run_request (h : Handler) (os : list (option JsError)) (q : Request) (db : Db)
  : Request * Db :=
  foldl (fun '(q, db) o => handler_step h o q db) (q, db) os.

(** Requests served one after the other, each one to the end of its
    list of outcomes. *)
Definition serve (reqs : list (Handler * list (option JsError))) (db : Db)
  : list (Handler * Request) * Db :=
  foldl (fun '(done, db) '(h, os) =>
           let '(q, db') := run_request h os arrived db in
           (done ++ [(h, q)], db'))
        ([], db) reqs.

(** The server with requests in flight. *)
Record Server : Type := mkServer {
  db : Db;
  requests : list (Handler * Request)
}.

Inductive ServerEvent : Type :=
| Arrive (h : Handler)
| Resume (i : nat) (o : option JsError).

Definition server_step (sv : Server) (ev : ServerEvent) : Server :=
  match ev with
  | Arrive h => mkServer (db sv) (requests sv ++ [(h, arrived)])
  | Resume i o =>
      match requests sv !! i with
      | Some (h, q) =>
          let '(q', db') := handler_step h o q (db sv) in
          mkServer db' (<[i := (h, q')]> (requests sv))
      | None => sv
      end
  end.

Definition server_run (evs : list ServerEvent) (sv : Server) : Server :=
  foldl server_step sv evs.

(** *** Views *)

(** What a request for the stock reads: the count of the first row of
    the batch. *)
Definition stock (db : Db) : option Z := head (select_count batch db).

Definition is_reserved (r : Response) : bool :=
  match r with
  | mkResponse 200 (Body_success _) => true
  | _ => false
  end.

(** The number of requests answered with "Dose reserved". *)
Definition reserved (done : list (Handler * Request)) : nat :=
  length (filter (fun hq => existsb is_reserved (sent (snd hq)) = true) done).

Definition was_reserved (q : Request) : bool := existsb is_reserved (sent q).

(** The rows of the requests answered with "Dose reserved", in their
    order, as [/reserve-dose] writes them at the time [ts]. *)
Definition confirmed (ts : Z) (done : list (Handler * Request)) : list ReservationRow :=
  omap (fun hq =>
          match fst hq with
          | ReserveDose patientId =>
              if was_reserved (snd hq)
              then Some (mkReservationRow patientId "CONFIRMED" ts)
              else None
          | HospitalStatus => None
          end) done.

(** Where one request of the handler [h], started with stock [n] and
    reservations [rs], can have brought the database, by the place where
    it waits. *)
Definition within_request (h : Handler) (n : Z) (rs : list ReservationRow)
           (q : Request) (db : Db) : Prop :=
  match pc q with
  | AwaitConnect | AwaitSelect =>
      stock db = Some n /\ reservations db = rs /\ sent q = []
  | AwaitUpdate =>
      stock db = Some n /\ (0 < n)%Z /\ reservations db = rs /\ sent q = []
  | AwaitInsert =>
      stock db = Some (n - 1)%Z /\ (0 < n)%Z /\ reservations db = rs /\ sent q = []
  | AwaitEnd | Finished | Escaped =>
      (was_reserved q = true /\ stock db = Some (n - 1)%Z /\ (0 < n)%Z /\
       reservations db = rs ++ confirmed (now db) [(h, q)] /\
       length (confirmed (now db) [(h, q)]) = 1) \/
      (was_reserved q = false /\ reservations db = rs /\
       (stock db = Some n \/ (stock db = Some (n - 1)%Z /\ (0 < n)%Z)))
  | AwaitRunTask => False
  end.

(** The schedule in which [k] requests arrive and then go through their
    handlers side by side: all connect, then all select, and so on,
    without any failure. *)
Definition side_by_side (k : nat) : list ServerEvent :=
  let all := (fun i => Resume i None) <$> seq 0 k in
  all ++ all ++ all ++ all ++ all.

End Handlers.

Arguments Db : clear implicits.
Arguments Server : clear implicits.
Arguments Handler : clear implicits.
Arguments ServerEvent : clear implicits.
Arguments ReservationRow : clear implicits.

(** [POST /ingest-vitals]: the handler submits [{ vitals }] to the pool
    and waits for the promise; [p] is that promise. *)
Definition awaiting_pool : Request := mkRequest AwaitRunTask false [] [].

Definition ingest_vitals_arrive {Data : Type} {cloning : WorkerPool.StructuredClone Data}
           (payload : Data) (s : WorkerPool.State Data)
  : nat * Request * WorkerPool.State Data :=
  let '(p, s') := WorkerPool.runTask payload s in
  (p, awaiting_pool, s').

(** The handler is resumed when the promise is settled: after the
    [await] when it is fulfilled, in the [catch] block when it is
    rejected. *)
Definition ingest_vitals_step (st : WorkerPool.PromiseStatus) (q : Request) : Request :=
  match pc q with
  | AwaitRunTask =>
      match st with
      | WorkerPool.Pending => q
      | WorkerPool.Fulfilled _ =>
          goto Finished (send (mkResponse 200 (Body_success "Vitals processed")) q)
      | WorkerPool.Rejected e =>
          goto Finished
               (send (mkResponse 500 (Body_failure "Failed to process vitals"))
                     (console_error e q))
      end
  | _ => q
  end.

(** The responses and the final requests the handlers build. *)
Definition dose_reserved : Response := mkResponse 200 (Body_success "Dose reserved").
Definition no_doses : Response := mkResponse 400 (Body_error "No doses available").
Definition not_found : Response := mkResponse 404 (Body_error "Inventory not found").
Definition server_error : Response := mkResponse 500 (Body_error "Internal Server Error").
Definition vitals_processed : Response := mkResponse 200 (Body_success "Vitals processed").
Definition vitals_failed : Response :=
  mkResponse 500 (Body_failure "Failed to process vitals").

Definition answered (r : Response) (errors : list JsError) : Request :=
  mkRequest Finished false [r] errors.

(** A request is well formed when its responses and its client fit the
    place where its handler waits. *)
Definition well_formed (q : Request) : Prop :=
  match pc q with
  | AwaitConnect => client q = false /\ sent q = []
  | AwaitSelect | AwaitUpdate | AwaitInsert => client q = true /\ sent q = []
  | AwaitEnd => client q = true /\ length (sent q) = 1
  | AwaitRunTask => client q = false /\ sent q = []
  | Finished => client q = false /\ length (sent q) = 1
  | Escaped => length (sent q) = 1
  end.

End Routes.

Import WorkerPool.

(** * Facts about the pool *)

Section PoolFacts.

Context {Data : Type} {cloning : StructuredClone Data}.
Implicit Types (s : State Data) (t : WorkerTask Data) (w : nat).

Lemma alter_at {A : Type} (f : A -> A) (l : list A) (i : nat) (x : A) :
  l !! i = Some x -> alter f i l = <[i := f x]> l.
Proof.
  revert i; induction l as [|y l IH]; intros [|i] H; simpl in *; try done.
  - by inversion H.
  - f_equal. by apply IH.
Qed.

Lemma pop_snoc {A : Type} (l : list A) (x : A) : pop (l ++ [x]) = (Some x, l).
Proof. unfold pop. by rewrite last_snoc, removelast_last. Qed.

Lemma nonempty_snoc {A : Type} (l : list A) : l <> [] -> exists l' x, l = l' ++ [x].
Proof.
  intros H. destruct (last l) as [x|] eqn:E.
  - apply last_Some in E as [l' ->]. eauto.
  - by apply last_None in E.
Qed.

Lemma on_worker_at w (f : Worker -> Worker) s o :
  heap s !! w = Some o -> on_worker w f s = set_heap (<[w := f o]> (heap s)) s.
Proof. intros H. unfold on_worker. by rewrite (alter_at _ _ _ _ H). Qed.

Lemma lookup_snoc_new {A : Type} (l : list A) (x : A) : (l ++ [x]) !! length l = Some x.
Proof. by rewrite list_lookup_middle. Qed.

Ltac unfold_ops :=
  unfold once_message, once_error, off_message, off_error,
    resolve, reject, on_promise, console_error, on_worker,
    set_workers, set_availableWorkers, set_taskQueue, set_heap,
    set_promises, set_posted, set_console, set_awaiting in *;
  simpl in *.

(** ** What each piece of code does, whatever the payloads *)

Lemma postMessage_at w t s o :
  heap s !! w = Some o ->
  postMessage w t s
  = match (if exited o then None else clone_error (data t)) with
    | None => Returns (set_posted (posted s ++ [(w, t)]) s)
    | Some m => Throws (DataCloneError m) s
    end.
Proof. intros H. unfold postMessage, has_exited. by rewrite H. Qed.

Lemma executeTask_taken t s av w ex :
  availableWorkers s = av ++ [w] ->
  heap s !! w = Some (idle_worker ex) ->
  executeTask t s
  = match (if ex then None else clone_error (data t)) with
    | None => Returns (dispatched w t ex av s)
    | Some m => Throws (DataCloneError m) (taken w t ex av s)
    end.
Proof.
  intros Hav Hw. unfold executeTask. rewrite Hav, pop_snoc.
  assert (once_error w (OnceErrorHandler w t)
            (once_message w (OnceMessageHandler w t) (set_availableWorkers av s))
          = taken w t ex av s) as ->.
  { unfold taken. destruct s; unfold_ops.
    by rewrite !list_alter_alter_eq, (alter_at _ _ _ _ Hw). }
  rewrite (postMessage_at w t _ (busy_worker w t ex)).
  - simpl. by destruct (if ex then None else clone_error (data t)).
  - simpl. apply list_lookup_insert_eq. by eapply lookup_lt_Some.
Qed.

Lemma executeTask_empty t s :
  availableWorkers s = [] ->
  executeTask t s
  = Throws (TypeError "Cannot read properties of undefined (reading 'once')") s.
Proof. intros Hav. unfold executeTask. by rewrite Hav. Qed.

(** A completion closure has put [w] back and looks at the queue. *)
Lemma next_in_queue_taken s w av :
  availableWorkers s = av ++ [w] ->
  heap s !! w = Some (idle_worker false) ->
  next_in_queue s
  = match next_refused s with
    | None => Returns (completed w (set_availableWorkers av s))
    | Some m => Throws (DataCloneError m) (stalled w (set_availableWorkers av s))
    end.
Proof.
  intros Hav Hw. unfold next_in_queue, next_refused, completed, stalled.
  destruct s as [ws av0 q sc ps hp pr po co aw]; simpl in *.
  destruct q as [|n q]; simpl.
  - by rewrite Hav, (list_insert_id _ _ _ Hw).
  - erewrite executeTask_taken; [|exact Hav|exact Hw]. simpl.
    by destruct (clone_error (data n)).
Qed.

Lemma detach_message_first s w t :
  heap s !! w = Some (busy_worker w t false) ->
  off_error w (is_errorHandler w t)
    (off_message w (is_messageHandler w t)
       (off_message w (is_messageHandler w t) s))
  = set_heap (<[w := idle_worker false]> (heap s)) s.
Proof.
  intros Hw. destruct s; unfold_ops.
  rewrite !list_alter_alter_eq, (alter_at _ _ _ _ Hw). simpl.
  unfold removeListener; simpl. by rewrite !Nat.eqb_refl.
Qed.

Lemma detach_error_first s w t :
  heap s !! w = Some (busy_worker w t false) ->
  off_error w (is_errorHandler w t)
    (off_message w (is_messageHandler w t)
       (off_error w (is_errorHandler w t) s))
  = set_heap (<[w := idle_worker false]> (heap s)) s.
Proof.
  intros Hw. destruct s; unfold_ops.
  rewrite !list_alter_alter_eq, (alter_at _ _ _ _ Hw). simpl.
  unfold removeListener; simpl. by rewrite !Nat.eqb_refl.
Qed.

Lemma completed_detached s w o :
  completed w (set_heap (<[w := o]> (heap s)) s) = completed w s.
Proof.
  destruct s as [ws av [|n q] sc ps hp pr po co aw];
    unfold completed; simpl; by rewrite !list_insert_insert_eq.
Qed.

Lemma stalled_detached s w o (old : Worker) :
  heap s !! w = Some old ->
  stalled w (set_heap (<[w := o]> (heap s)) s)
  = match taskQueue s with
    | [] => set_heap (<[w := o]> (heap s)) s
    | _ :: _ => stalled w s
    end.
Proof.
  intros Hw. destruct s as [ws av [|n q] sc ps hp pr po co aw];
    unfold stalled, taken; simpl; [done|]. by rewrite !list_insert_insert_eq.
Qed.

Lemma handler_tail s w :
  heap s !! w = Some (idle_worker false) ->
  next_in_queue (set_availableWorkers (push (availableWorkers s) w) s)
  = match next_refused s with
    | None => Returns (completed w s)
    | Some m => Throws (DataCloneError m) (stalled w s)
    end.
Proof.
  intros Hw.
  erewrite next_in_queue_taken with (av := availableWorkers s) (w := w);
    [|reflexivity|exact Hw].
  by destruct s.
Qed.

Lemma lookup_detached s w o :
  heap s !! w = Some o ->
  heap (set_heap (<[w := idle_worker false]> (heap s)) s) !! w
  = Some (idle_worker false).
Proof. intros Hw. simpl. apply list_lookup_insert_eq. by eapply lookup_lt_Some. Qed.

Lemma next_refused_stalled s w o m :
  heap s !! w = Some o -> next_refused s = Some m ->
  stalled w (set_heap (<[w := idle_worker false]> (heap s)) s) = stalled w s.
Proof.
  intros Hw Hn. rewrite (stalled_detached s w _ o Hw).
  unfold next_refused in Hn. by destruct (taskQueue s).
Qed.

(** A message for a worker that waits for one: the closure detaches
    itself and the error closure, puts the worker back, hands it the head
    of the queue, and settles its own task last.  When [postMessage]
    refuses the head of the queue, the exception leaves the closure
    before anything is settled. *)
Lemma emit_message_running s w t result :
  heap s !! w = Some (busy_worker w t false) ->
  emit_message w result s
  = match next_refused s with
    | None => Returns (settle_with result t (completed w s))
    | Some m => Throws (DataCloneError m) (stalled w s)
    end.
Proof.
  intros Hw. unfold emit_message. rewrite Hw. simpl.
  unfold messageHandler. rewrite (detach_message_first _ _ _ Hw).
  rewrite (handler_tail _ _ (lookup_detached _ _ _ Hw)), completed_detached.
  change (next_refused (set_heap _ s)) with (next_refused s).
  destruct (next_refused s) as [m|] eqn:Hn; cbn [bind].
  - by rewrite (next_refused_stalled s w _ m Hw Hn).
  - unfold settle_with. by destruct (success result).
Qed.

Lemma emit_error_running s w t err :
  heap s !! w = Some (busy_worker w t false) ->
  emit_error w err s
  = match next_refused s with
    | None => Returns (reject t err (completed w (console_error (LogWorkerError err) s)))
    | Some m =>
        Throws (DataCloneError m) (stalled w (console_error (LogWorkerError err) s))
    end.
Proof.
  intros Hw. unfold emit_error. rewrite Hw. simpl.
  unfold errorHandler.
  assert (heap (console_error (LogWorkerError err) s) !! w
          = Some (busy_worker w t false)) as Hw' by done.
  rewrite (detach_error_first _ _ _ Hw').
  rewrite (handler_tail _ _ (lookup_detached _ _ _ Hw')), completed_detached.
  change (next_refused (set_heap _ (console_error (LogWorkerError err) s)))
    with (next_refused s).
  destruct (next_refused s) as [m|] eqn:Hn; cbn [bind]; [|done].
  by rewrite (next_refused_stalled (console_error (LogWorkerError err) s) w _ m Hw' Hn).
Qed.

Lemma emit_message_idle s w ex result :
  heap s !! w = Some (idle_worker ex) -> emit_message w result s = Returns s.
Proof. intros Hw. unfold emit_message. rewrite Hw. simpl. by destruct ex. Qed.

Lemma emit_error_idle s w err :
  heap s !! w = Some (idle_worker false) ->
  emit_error w err s = Returns (console_error (LogWorkerError err) s).
Proof. intros Hw. unfold emit_error. by rewrite Hw. Qed.

Lemma emit_exited s w o result err :
  heap s !! w = Some o -> exited o = true ->
  emit_message w result s = Returns s /\ emit_error w err s = Returns s.
Proof. intros Hw Hex. unfold emit_message, emit_error. by rewrite Hw, Hex. Qed.

Lemma emit_absent s w result err code :
  heap s !! w = None ->
  emit_message w result s = Returns s /\ emit_error w err s = Returns s
  /\ emit_exit w code s = Returns s.
Proof. intros Hw. unfold emit_message, emit_error, emit_exit. by rewrite Hw. Qed.

Lemma emit_exit_running s w o code :
  heap s !! w = Some o -> exited o = false -> exit_listeners o = [OnWorkerExit] ->
  emit_exit w code s
  = Returns (exit_logged code (set_heap (<[w := gone o]> (heap s)) s)).
Proof.
  intros Hw Hex Hl. unfold emit_exit, exit_logged. rewrite Hw, Hex, Hl. simpl.
  rewrite (on_worker_at _ _ _ _ Hw). by destruct (Z.eqb code 0).
Qed.

Lemma runTask_enqueue d s :
  availableWorkers s = [] ->
  runTask d s
  = (length (promises s),
     set_taskQueue (taskQueue s ++ [mkTask d (length (promises s))])
                   (set_promises (promises s ++ [unsettled]) s)).
Proof.
  intros Hav. unfold runTask, runTask_executor. simpl. by rewrite Hav.
Qed.

Lemma runTask_taken d s av w ex :
  availableWorkers s = av ++ [w] ->
  heap s !! w = Some (idle_worker ex) ->
  runTask d s
  = (length (promises s),
     let task := mkTask d (length (promises s)) in
     let s1 := set_promises (promises s ++ [unsettled]) s in
     match (if ex then None else clone_error d) with
     | None => dispatched w task ex av s1
     | Some m => reject task (DataCloneError m) (taken w task ex av s1)
     end).
Proof.
  intros Hav Hw. unfold runTask, runTask_executor. simpl.
  rewrite Hav at 1. rewrite length_app. simpl.
  replace (0 <? length av + 1) with true by (symmetry; apply Nat.ltb_lt; lia).
  erewrite executeTask_taken; [|exact Hav|exact Hw]. simpl.
  by destruct (if ex then None else clone_error d).
Qed.

(** *** Construction *)

Lemma createWorker_idle s :
  is_worker_path (workerScript s) = true ->
  createWorker s
  = Created (length (heap s)) (set_heap (heap s ++ [idle_worker false]) s).
Proof.
  intros Hp. unfold createWorker, new_Worker, on_error, on_exit, on_worker.
  rewrite Hp. simpl. f_equal. destruct s; unfold_ops. f_equal.
  rewrite list_alter_alter_eq.
  rewrite <- (Nat.add_0_r (length heap0)) at 1.
  by rewrite alter_app_r.
Qed.

Lemma createWorker_refused s :
  is_worker_path (workerScript s) = false ->
  createWorker s = NotCreated (worker_path_error (workerScript s)) s.
Proof. intros Hp. unfold createWorker, new_Worker. by rewrite Hp. Qed.

Lemma initializePool_loop (l : list Z) s :
  is_worker_path (workerScript s) = true ->
  foldl (fun c (_ : Z) => bind c add_worker) (Returns s) l
  = Returns (mkState (workers s ++ seq (length (heap s)) (length l))
               (availableWorkers s ++ seq (length (heap s)) (length l))
               (taskQueue s) (workerScript s) (poolSize s)
               (heap s ++ replicate (length l) (idle_worker false))
               (promises s) (posted s) (console s) (awaiting s)).
Proof.
  revert s. induction l as [|z l IH]; intros s Hp.
  - destruct s. simpl. by rewrite !app_nil_r.
  - cbn [foldl bind]. unfold add_worker at 2. rewrite (createWorker_idle s Hp).
    rewrite IH by done. destruct s. simpl.
    rewrite length_app. simpl. rewrite Nat.add_1_r.
    unfold push. by rewrite <- !app_assoc.
Qed.

Lemma initializePool_thrown (l : list Z) (e : JsError) s :
  foldl (fun c (_ : Z) => bind c add_worker) (Throws e s) l = Throws e s.
Proof. induction l as [|z l IH]; [done|]. simpl. exact IH. Qed.

Lemma constructor_fresh script size :
  is_worker_path script = true \/ (default 4 size <= 0)%Z ->
  constructor (Data:=Data) script size = Returns (fresh_pool script (default 4%Z size)).
Proof.
  intros [Hp|Hn]; unfold constructor, initializePool; simpl.
  - rewrite initializePool_loop by done. simpl. by rewrite length_seqZ.
  - unfold fresh_pool. replace (Z.to_nat (default 4%Z size)) with 0 by lia.
    unfold seqZ. by replace (Z.to_nat (default 4%Z size)) with 0 by lia.
Qed.

Lemma constructor_thrown script size :
  is_worker_path script = false -> (1 <= default 4 size)%Z ->
  constructor (Data:=Data) script size
  = Throws (worker_path_error script)
           (mkState [] [] [] script (default 4%Z size) [] [] [] [] []).
Proof.
  intros Hp Hn. unfold constructor, initializePool. simpl.
  destruct (seqZ 0 (default 4%Z size)) as [|z l] eqn:E.
  - apply (f_equal length) in E. rewrite length_seqZ in E. simpl in E. lia.
  - cbn [foldl bind]. unfold add_worker at 2. rewrite createWorker_refused by done.
    simpl. apply initializePool_thrown.
Qed.

Lemma constructor_cases script size :
  constructor (Data:=Data) script size
  = Returns (fresh_pool script (default 4%Z size)) \/
  constructor (Data:=Data) script size
  = Throws (worker_path_error script)
           (mkState [] [] [] script (default 4%Z size) [] [] [] [] []).
Proof.
  destruct (is_worker_path script) eqn:Hp.
  - left. apply constructor_fresh. by left.
  - destruct (decide (1 <= default 4 size)%Z).
    + right. by apply constructor_thrown.
    + left. apply constructor_fresh. right. lia.
Qed.

(** ** What every event keeps, whatever the payloads *)

Lemma Shape_ext s s' :
  Shape s -> workers s' = workers s -> availableWorkers s' = availableWorkers s ->
  taskQueue s' = taskQueue s -> heap s' = heap s -> awaiting s' = awaiting s ->
  Shape s'.
Proof.
  intros [H1 H2 H3 H4 H5 H6] E1 E2 E3 E4 E5.
  constructor; rewrite ?E1, ?E2, ?E3, ?E4, ?E5; done.
Qed.

Lemma Shape_fresh script ps : Shape (fresh_pool (Data:=Data) script ps).
Proof.
  constructor; simpl.
  - intros w o H. apply lookup_replicate in H as [-> _]. left. eauto.
  - apply NoDup_seq.
  - intros w H. apply elem_of_seq in H. exists false.
    apply lookup_replicate. split; [done|lia].
  - done.
  - intros w o H. apply lookup_replicate in H as [_ H]. left.
    apply elem_of_seq. lia.
  - intros ws w H. by apply elem_of_nil in H.
Qed.

Lemma Shape_empty script ps :
  Shape (mkState (Data:=Data) [] [] [] script ps [] [] [] [] []).
Proof.
  constructor; simpl; try done.
  - apply NoDup_nil_2.
  - intros w H. by apply elem_of_nil in H.
  - intros ws w H. by apply elem_of_nil in H.
Qed.

Lemma taken_not_available s w t ex :
  Shape s -> heap s !! w = Some (busy_worker w t ex) -> w ∉ availableWorkers s.
Proof.
  intros HS Hw Hin. destruct (sh_avail_idle s HS w Hin) as [ex' H].
  rewrite Hw in H. inversion H.
Qed.

Lemma Shape_taken s t av w ex :
  Shape s -> availableWorkers s = av ++ [w] -> heap s !! w = Some (idle_worker ex) ->
  taskQueue s = [] /\ Shape (taken w t ex av s).
Proof.
  intros HS Hav Hw.
  assert (taskQueue s = []) as Hq.
  { destruct (taskQueue s) eqn:E; [done|].
    pose proof (sh_queue_avail s HS) as H. rewrite E, Hav in H.
    by destruct av; discriminate H. }
  split; [done|].
  pose proof (sh_avail_nodup s HS) as Hnd. rewrite Hav in Hnd.
  apply NoDup_app in Hnd as (Hnd & Hdisj & _).
  unfold taken. constructor; simpl.
  - intros w' o H. apply list_lookup_insert_Some in H as [(<- & <- & _)|[Hne H]].
    + right; left. eauto.
    + by apply (sh_heap _ HS w').
  - done.
  - intros w' H. destruct (sh_avail_idle _ HS w') as [ex' Hex'].
    { rewrite Hav. apply elem_of_app. by left. }
    exists ex'. rewrite list_lookup_insert_ne; [done|].
    intros <-. apply (Hdisj w H). by apply list_elem_of_singleton.
  - by rewrite Hq.
  - intros w' o H. apply list_lookup_insert_Some in H as [(<- & <- & _)|[Hne H]].
    + apply (sh_owner _ HS _ _ Hw).
    + by apply (sh_owner _ HS w').
  - apply (sh_awaits _ HS).
Qed.

Lemma Shape_completed s w t :
  Shape s -> heap s !! w = Some (busy_worker w t false) -> Shape (completed w s).
Proof.
  intros HS Hw.
  pose proof (taken_not_available s w t false HS Hw) as Hnav.
  pose proof (lookup_lt_Some _ _ _ Hw) as Hlt.
  unfold completed.
  destruct (taskQueue s) as [|n q] eqn:Hq; constructor; simpl.
  - intros w' o H. apply list_lookup_insert_Some in H as [(<- & <- & _)|[Hne H]].
    + left. eauto.
    + by apply (sh_heap _ HS w').
  - apply NoDup_app. split_and!; [apply (sh_avail_nodup _ HS)| |apply NoDup_singleton].
    intros x Hx Hx'. apply list_elem_of_singleton in Hx'. by subst.
  - intros w' H. apply elem_of_app in H as [H|H].
    + destruct (sh_avail_idle _ HS w' H) as [ex Hex]. exists ex.
      rewrite list_lookup_insert_ne; [done|]. intros <-. done.
    + apply list_elem_of_singleton in H as ->. exists false.
      by apply list_lookup_insert_eq.
  - done.
  - intros w' o H. apply list_lookup_insert_Some in H as [(<- & <- & _)|[Hne H]].
    + destruct (sh_owner _ HS _ _ Hw) as [H|H]; [by left|done].
    + by apply (sh_owner _ HS w').
  - apply (sh_awaits _ HS).
  - intros w' o H. apply list_lookup_insert_Some in H as [(<- & <- & _)|[Hne H]].
    + right; left. eauto.
    + by apply (sh_heap _ HS w').
  - apply (sh_avail_nodup _ HS).
  - intros w' H. pose proof (sh_queue_avail _ HS) as E. rewrite Hq in E.
    rewrite E in H by done. by apply elem_of_nil in H.
  - intros _. apply (sh_queue_avail _ HS). by rewrite Hq.
  - intros w' o H. apply list_lookup_insert_Some in H as [(<- & <- & _)|[Hne H]].
    + destruct (sh_owner _ HS _ _ Hw) as [H|H]; [by left|done].
    + by apply (sh_owner _ HS w').
  - apply (sh_awaits _ HS).
Qed.

Lemma stalled_completed s w :
  taskQueue s <> [] ->
  workers (stalled w s) = workers (completed w s) /\
  availableWorkers (stalled w s) = availableWorkers (completed w s) /\
  taskQueue (stalled w s) = taskQueue (completed w s) /\
  heap (stalled w s) = heap (completed w s) /\
  awaiting (stalled w s) = awaiting (completed w s) /\
  poolSize (stalled w s) = poolSize (completed w s).
Proof. unfold stalled, completed. by destruct (taskQueue s). Qed.

Lemma Shape_stalled s w t :
  Shape s -> heap s !! w = Some (busy_worker w t false) -> taskQueue s <> [] ->
  Shape (stalled w s).
Proof.
  intros HS Hw Hq. destruct (stalled_completed s w Hq) as (E1 & E2 & E3 & E4 & E5 & _).
  by apply (Shape_ext (completed w s)); [eapply Shape_completed|..].
Qed.

Lemma Shape_enqueued s t :
  Shape s -> availableWorkers s = [] -> Shape (set_taskQueue (taskQueue s ++ [t]) s).
Proof.
  intros HS Hav. constructor; simpl; try apply HS. done.
Qed.

Lemma gone_shapes w (o : Worker (Data:=Data)) :
  (exists ex, o = idle_worker ex) \/ (exists t ex, o = busy_worker w t ex) \/
  (exists t, o = stranded_worker w t) ->
  ((exists ex, o = idle_worker ex) /\ gone o = idle_worker true) \/
  (exists t, gone o = stranded_worker w t).
Proof.
  intros [[ex ->]|[(t & ex & ->)|[t ->]]]; [left; eauto|right; eauto..].
Qed.

Lemma Shape_exited s w o :
  Shape s -> heap s !! w = Some o -> Shape (set_heap (<[w := gone o]> (heap s)) s).
Proof.
  intros HS Hw. pose proof (gone_shapes w o (sh_heap s HS w o Hw)) as Hg.
  constructor; simpl; try apply HS.
  - intros w' o' H. apply list_lookup_insert_Some in H as [(<- & <- & _)|[Hne H]].
    + destruct Hg as [[_ ->]|[t ->]]; [left|right; right]; eauto.
    + by apply (sh_heap _ HS w').
  - intros w' H. destruct (sh_avail_idle _ HS w' H) as [ex Hex].
    destruct (decide (w' = w)) as [->|Hne].
    + exists true. rewrite list_lookup_insert_eq by (by eapply lookup_lt_Some).
      rewrite Hw in Hex. by inversion Hex.
    + exists ex. by rewrite list_lookup_insert_ne.
  - intros w' o' H. apply list_lookup_insert_Some in H as [(<- & <- & _)|[Hne H]].
    + by right.
    + by apply (sh_owner _ HS w').
Qed.

Lemma Shape_exit_logged s code : Shape s -> Shape (exit_logged code s).
Proof.
  intros HS. unfold exit_logged. destruct (Z.eqb code 0); [done|].
  by apply (Shape_ext s).
Qed.

Lemma Shape_terminate_call s : Shape s -> Shape (terminate_call s).
Proof.
  intros HS. constructor; simpl; try apply HS.
  intros ws' w H Hw. apply elem_of_app in H as [H|H].
  - by apply (sh_awaits _ HS ws').
  - by apply list_elem_of_singleton in H as ->.
Qed.

Lemma resume_all_exited s :
  Shape s -> resume_enabled s = true ->
  forall w o, heap s !! w = Some o -> exited o = true.
Proof.
  intros HS Hen w o Hw. unfold resume_enabled in Hen.
  destruct (awaiting s) as [|ws rest] eqn:Haw; [done|].
  destruct (sh_owner s HS w o Hw) as [Hin|Hex]; [|done].
  assert (w ∈ ws) as Hws.
  { apply (sh_awaits s HS ws w); [|done]. rewrite Haw. by left. }
  rewrite forallb_forall in Hen. apply list_elem_of_In in Hws.
  specialize (Hen w Hws). unfold has_exited in Hen. by rewrite Hw in Hen.
Qed.

Lemma Shape_terminate_resume s :
  Shape s -> resume_enabled s = true ->
  Shape (terminate_resume (set_awaiting (tail (awaiting s)) s)).
Proof.
  intros HS Hen. pose proof (resume_all_exited s HS Hen) as Hex.
  constructor; simpl; try apply HS.
  - apply NoDup_nil_2.
  - intros w H. by apply elem_of_nil in H.
  - done.
  - intros w o H. right. by apply (Hex w).
  - intros ws' w _ H. by apply elem_of_nil in H.
Qed.

(** The cases of a worker an event is about. *)
Lemma worker_cases s w :
  Shape s ->
  heap s !! w = None \/
  (exists o, heap s !! w = Some o /\ exited o = true) \/
  heap s !! w = Some (idle_worker false) \/
  (exists t, heap s !! w = Some (busy_worker w t false)).
Proof.
  intros HS. destruct (heap s !! w) as [o|] eqn:Hw; [|by left].
  destruct (exited o) eqn:Hex; [right; left; eauto|].
  destruct (sh_heap s HS w o Hw) as [[ex ->]|[(t & ex & ->)|[t ->]]];
    simpl in Hex; subst; try discriminate Hex; eauto.
Qed.

Lemma exit_listeners_shape s w o :
  Shape s -> heap s !! w = Some o -> exit_listeners o = [OnWorkerExit].
Proof.
  intros HS Hw. by destruct (sh_heap s HS w o Hw) as [[ex ->]|[(t & ex & ->)|[t ->]]].
Qed.

Lemma step_Shape ev s : Shape s -> Shape (final (step ev s)).
Proof.
  intros HS. destruct ev as [d|w result|w err|w code| |]; simpl.
  - destruct (availableWorkers s) as [|a av0] eqn:Hav.
    + rewrite runTask_enqueue by done. simpl.
      apply (Shape_ext (set_taskQueue (taskQueue s ++ [mkTask d (length (promises s))]) s));
        [by apply Shape_enqueued|done..].
    + destruct (nonempty_snoc (a :: av0)) as (av & w & E); [done|].
      rewrite E in Hav. destruct (sh_avail_idle s HS w) as [ex Hw].
      { rewrite Hav. apply elem_of_app. right. by apply list_elem_of_singleton. }
      rewrite (runTask_taken d s av w ex Hav Hw). simpl.
      destruct (Shape_taken s (mkTask d (length (promises s))) av w ex HS Hav Hw)
        as [_ HS'].
      destruct (if ex then None else clone_error d);
        by apply (Shape_ext (taken w (mkTask d (length (promises s))) ex av s)).
  - destruct (worker_cases s w HS) as [Hw|[(o & Hw & Hex)|[Hw|[t Hw]]]].
    + by destruct (emit_absent s w result (Error "") 0%Z Hw) as (-> & _).
    + by destruct (emit_exited s w o result (Error "") Hw Hex) as (-> & _).
    + by rewrite (emit_message_idle s w false result Hw).
    + rewrite (emit_message_running s w t result Hw).
      destruct (next_refused s) as [m|] eqn:Hn; simpl.
      * eapply Shape_stalled; [done|exact Hw|].
        unfold next_refused in Hn. by destruct (taskQueue s).
      * apply (Shape_ext (completed w s)); [by eapply Shape_completed|..];
          unfold settle_with; by destruct (success result).
  - destruct (worker_cases s w HS) as [Hw|[(o & Hw & Hex)|[Hw|[t Hw]]]].
    + by destruct (emit_absent s w (mkResult true None None) err 0%Z Hw) as (_ & -> & _).
    + by destruct (emit_exited s w o (mkResult true None None) err Hw Hex) as (_ & ->).
    + rewrite (emit_error_idle s w err Hw). simpl. by apply (Shape_ext s).
    + rewrite (emit_error_running s w t err Hw).
      assert (Shape (console_error (LogWorkerError err) s)) as HS'
        by (by apply (Shape_ext s)).
      destruct (next_refused s) as [m|] eqn:Hn; simpl.
      * eapply Shape_stalled; [done|exact Hw|].
        unfold next_refused in Hn. simpl. by destruct (taskQueue s).
      * apply (Shape_ext (completed w (console_error (LogWorkerError err) s)));
          [by eapply Shape_completed|done..].
  - destruct (heap s !! w) as [o|] eqn:Hw.
    2:{ by destruct (emit_absent s w (mkResult true None None) (Error "") code Hw)
          as (_ & _ & ->). }
    destruct (exited o) eqn:Hex.
    { unfold emit_exit. by rewrite Hw, Hex. }
    rewrite (emit_exit_running s w o code Hw Hex (exit_listeners_shape s w o HS Hw)).
    simpl. by apply Shape_exit_logged, Shape_exited.
  - by apply Shape_terminate_call.
  - destruct (resume_enabled s) eqn:Hen; simpl; [|done].
    by apply Shape_terminate_resume.
Qed.

Lemma final_bind (c : completion Data) (k : State Data -> completion Data) :
  final (bind c k) = match c with Returns s => final (k s) | Throws _ s => s end.
Proof. by destruct c. Qed.

Lemma run_Shape evs s : Shape s -> Shape (final (run evs s)).
Proof.
  revert s. induction evs as [|ev evs IH]; intros s HS; simpl; [done|].
  rewrite final_bind. pose proof (step_Shape ev s HS) as H.
  destruct (step ev s); simpl in H; [by apply IH|done].
Qed.

Lemma scenario_Shape script size evs : Shape (final (scenario script size evs)).
Proof.
  unfold scenario. rewrite final_bind.
  destruct (constructor_cases script size) as [->| ->].
  - apply run_Shape, Shape_fresh.
  - apply Shape_empty.
Qed.

Lemma scenario_start script size evs s :
  scenario script size evs = Returns s ->
  run evs (fresh_pool script (default 4%Z size)) = Returns s.
Proof.
  unfold scenario. destruct (constructor_cases script size) as [->| ->]; [done|].
  discriminate.
Qed.

Lemma scenario_shaped script size evs s :
  scenario script size evs = Returns s -> Shape s.
Proof.
  intros H. pose proof (scenario_Shape script size evs) as HS. by rewrite H in HS.
Qed.

(** *** Workers by their closures *)


(** The worker that carries a closure of [t], and has not exited. *)
Lemma message_closure_shape s w o t :
  Shape s -> heap s !! w = Some o -> exited o = false ->
  OnceMessageHandler w t ∈ message_listeners o -> o = busy_worker w t false.
Proof.
  intros HS Hw Hex Hin.
  destruct (sh_heap s HS w o Hw) as [[ex ->]|[(t0 & ex & ->)|[t0 ->]]];
    simpl in *; subst; try discriminate Hex.
  - by apply elem_of_nil in Hin.
  - apply list_elem_of_singleton in Hin. by inversion Hin.
Qed.


(** *** The workers of the pool, until a [terminate] resumes *)








(** *** Counting the busy workers *)




(** *** What one event does to the queue *)

Lemma step_queue ev s s' :
  Shape s -> step ev s = Returns s' ->
  (exists l, posted s' = posted s ++ l) /\
  length (promises s) <= length (promises s') /\
  (taskQueue s' = taskQueue s \/
   (is_submission ev = true /\
    exists t, taskQueue s' = taskQueue s ++ [t] /\ promise t = length (promises s)) \/
   (is_completion ev = true /\
    exists w n, taskQueue s = n :: taskQueue s' /\ (w, n) ∈ posted s')).
Proof.
  intros HS. destruct ev as [d|w result|w err|w code| |]; simpl.
  - destruct (availableWorkers s) as [|a av0] eqn:Hav.
    + rewrite runTask_enqueue by done. intros [= <-]. simpl.
      split_and!; [exists []; by rewrite app_nil_r|rewrite length_app; lia|].
      right; left. split; [done|]. eauto.
    + destruct (nonempty_snoc (a :: av0)) as (av & w & E); [done|].
      rewrite E in Hav. destruct (sh_avail_idle s HS w) as [ex Hw].
      { rewrite Hav. apply elem_of_app. right. by apply list_elem_of_singleton. }
      rewrite (runTask_taken d s av w ex Hav Hw). simpl. intros [= <-].
      destruct (if ex then None else clone_error d); simpl.
      * split_and!; [exists []; by rewrite app_nil_r| |by left].
        rewrite length_alter, length_app. lia.
      * split_and!; [eauto|rewrite length_app; lia|by left].
  - destruct (worker_cases s w HS) as [Hw|[(o & Hw & Hex)|[Hw|[t Hw]]]].
    + destruct (emit_absent s w result (Error "") 0%Z Hw) as (-> & _). intros [= <-].
      split_and!; [exists []; by rewrite app_nil_r|done|by left].
    + destruct (emit_exited s w o result (Error "") Hw Hex) as (-> & _). intros [= <-].
      split_and!; [exists []; by rewrite app_nil_r|done|by left].
    + rewrite (emit_message_idle s w false result Hw). intros [= <-].
      split_and!; [exists []; by rewrite app_nil_r|done|by left].
    + rewrite (emit_message_running s w t result Hw).
      destruct (next_refused s) as [m|]; [discriminate|]. intros [= <-].
      assert (forall st, length (promises s)
                         <= length (promises (on_promise t st (completed w s)))) as Hlen.
      { intros st. simpl. rewrite length_alter. unfold completed.
        by destruct (taskQueue s). }
      unfold settle_with, resolve, reject.
      destruct (success result); (split_and!; [|apply Hlen|]); simpl;
        unfold completed; destruct (taskQueue s) as [|n q]; simpl;
        try (exists []; by rewrite app_nil_r); try (by eauto); try (by left);
        right; right; (split; [done|]); exists w, n; (split; [done|]);
        apply elem_of_app; right; by apply list_elem_of_singleton.
  - destruct (worker_cases s w HS) as [Hw|[(o & Hw & Hex)|[Hw|[t Hw]]]].
    + destruct (emit_absent s w (mkResult true None None) err 0%Z Hw) as (_ & -> & _).
      intros [= <-]. split_and!; [exists []; by rewrite app_nil_r|done|by left].
    + destruct (emit_exited s w o (mkResult true None None) err Hw Hex) as (_ & ->).
      intros [= <-]. split_and!; [exists []; by rewrite app_nil_r|done|by left].
    + rewrite (emit_error_idle s w err Hw). intros [= <-].
      split_and!; [exists []; by rewrite app_nil_r|done|by left].
    + rewrite (emit_error_running s w t err Hw).
      destruct (next_refused s) as [m|]; [discriminate|]. intros [= <-].
      split_and!; simpl; rewrite ?length_alter;
        unfold completed; simpl; destruct (taskQueue s) as [|n q]; simpl;
        try (exists []; by rewrite app_nil_r); try (by eauto); try (by left);
        right; right; (split; [done|]); exists w, n; (split; [done|]);
        apply elem_of_app; right; by apply list_elem_of_singleton.
  - destruct (heap s !! w) as [o|] eqn:Hw.
    2:{ destruct (emit_absent s w (mkResult true None None) (Error "") code Hw)
          as (_ & _ & ->). intros [= <-].
        split_and!; [exists []; by rewrite app_nil_r|done|by left]. }
    destruct (exited o) eqn:Hex.
    { unfold emit_exit. rewrite Hw, Hex. intros [= <-].
      split_and!; [exists []; by rewrite app_nil_r|done|by left]. }
    rewrite (emit_exit_running s w o code Hw Hex (exit_listeners_shape s w o HS Hw)).
    intros [= <-]. unfold exit_logged.
    destruct (Z.eqb code 0); simpl;
      (split_and!; [exists []; by rewrite app_nil_r|done|by left]).
  - intros [= <-]. split_and!; [exists []; by rewrite app_nil_r|done|by left].
  - destruct (resume_enabled s); intros [= <-];
      (split_and!; [exists []; by rewrite app_nil_r|done|by left]).
Qed.

(** The queue through a sequence of events: tasks are handed to workers
    from its head and new ones join at its tail, and nothing else moves
    it. *)
Lemma run_queue evs s s' :
  Shape s -> run evs s = Returns s' ->
  (exists l, posted s' = posted s ++ l) /\
  length (promises s) <= length (promises s') /\
  exists handed new,
    taskQueue s ++ new = handed ++ taskQueue s' /\
    Forall (fun t => length (promises s) <= promise t) new /\
    Forall (fun t => exists w, (w, t) ∈ posted s') handed /\
    (forallb (fun ev => negb (is_completion ev)) evs = true -> handed = []) /\
    (forallb (fun ev => negb (is_submission ev)) evs = true -> new = []).
Proof.
  revert s. induction evs as [|ev evs IH]; intros s HS Hrun; simpl in Hrun.
  - injection Hrun as <-. split_and!; [exists []; by rewrite app_nil_r|done|].
    exists [], []. by rewrite app_nil_r.
  - destruct (step ev s) as [s1|e s1] eqn:E; [|discriminate Hrun]. simpl in Hrun.
    pose proof (step_Shape ev s HS) as HS1. rewrite E in HS1. simpl in HS1.
    destruct (step_queue ev s s1 HS E) as ([l1 Hp1] & Hl1 & Hq1).
    destruct (IH s1 HS1 Hrun) as ([l2 Hp2] & Hl2 & handed & new & Hq & Hnew & Hh & Hc & Hsub).
    split_and!; [exists (l1 ++ l2); by rewrite Hp2, Hp1, app_assoc|lia|].
    destruct Hq1 as [Hq1|[[Hev (t & Hq1 & Ht)]|[Hev (w & n & Hq1 & Hin)]]].
    + exists handed, new. rewrite <- Hq1. split_and!; try done.
      * eapply Forall_impl; [exact Hnew|]. simpl. intros; lia.
      * simpl. intros H. apply andb_true_iff in H as [_ H]. by apply Hc.
      * simpl. intros H. apply andb_true_iff in H as [_ H]. by apply Hsub.
    + exists handed, (t :: new). split_and!.
      * rewrite <- Hq, Hq1, <- app_assoc. done.
      * apply Forall_cons. split; [lia|].
        eapply Forall_impl; [exact Hnew|]. simpl. intros; lia.
      * done.
      * simpl. intros H. apply andb_true_iff in H as [_ H]. by apply Hc.
      * simpl. rewrite Hev. done.
    + exists (n :: handed), new. split_and!.
      * rewrite Hq1. simpl. by rewrite Hq.
      * eapply Forall_impl; [exact Hnew|]. simpl. intros; lia.
      * apply Forall_cons. split; [|done]. exists w. rewrite Hp2.
        apply elem_of_app. by left.
      * simpl. rewrite Hev. done.
      * simpl. intros H. apply andb_true_iff in H as [_ H]. by apply Hsub.
Qed.

(** *** After a [terminate] has resumed *)

Lemma resume_Dead s :
  Shape s -> resume_enabled s = true ->
  Dead (terminate_resume (set_awaiting (tail (awaiting s)) s)).
Proof.
  intros HS Hen. split; [done|]. simpl. by apply resume_all_exited.
Qed.

Lemma step_Dead ev s :
  Dead s ->
  exists s', step ev s = Returns s' /\ Dead s' /\
    (forall p c, promises s !! p = Some c -> promises s' !! p = Some c).
Proof.
  intros [Hav Hex]. destruct ev as [d|w result|w err|w code| |]; simpl.
  - rewrite runTask_enqueue by done. eexists; split_and!; [done|done|].
    intros p c H. simpl. by apply lookup_app_l_Some.
  - exists s. split_and!; [|done|done].
    destruct (heap s !! w) as [o|] eqn:Hw.
    + by eapply (emit_exited s w o result (Error "")), Hex.
    + by apply (emit_absent s w result (Error "") 0%Z).
  - exists s. split_and!; [|done|done].
    destruct (heap s !! w) as [o|] eqn:Hw.
    + by eapply (emit_exited s w o (mkResult true None None) err), Hex.
    + by apply (emit_absent s w (mkResult true None None) err 0%Z).
  - exists s. split_and!; [|done|done].
    unfold emit_exit. destruct (heap s !! w) as [o|] eqn:Hw; [|done].
    by rewrite (Hex w o Hw).
  - eexists; split_and!; [done|done|done].
  - destruct (resume_enabled s); eexists; split_and!; done.
Qed.

Lemma run_Dead evs s :
  Dead s ->
  exists s', run evs s = Returns s' /\ Dead s' /\
    (forall p c, promises s !! p = Some c -> promises s' !! p = Some c).
Proof.
  revert s. induction evs as [|ev evs IH]; intros s HD; simpl.
  - eauto.
  - destruct (step_Dead ev s HD) as (s1 & -> & HD1 & H1). simpl.
    destruct (IH s1 HD1) as (s2 & -> & HD2 & H2). eauto 10.
Qed.

Lemma step_Dead_posted ev s s' :
  Dead s -> step ev s = Returns s' -> posted s' = posted s.
Proof.
  intros [Hav Hex] E. destruct ev as [d|w result|w err|w code| |]; simpl in E.
  - rewrite runTask_enqueue in E by done. by inversion E.
  - destruct (heap s !! w) as [o|] eqn:Hw.
    + destruct (emit_exited s w o result (Error "") Hw (Hex w o Hw)) as [E' _].
      rewrite E' in E. by inversion E.
    + destruct (emit_absent s w result (Error "") 0%Z Hw) as [E' _].
      rewrite E' in E. by inversion E.
  - destruct (heap s !! w) as [o|] eqn:Hw.
    + destruct (emit_exited s w o (mkResult true None None) err Hw (Hex w o Hw)) as [_ E'].
      rewrite E' in E. by inversion E.
    + destruct (emit_absent s w (mkResult true None None) err 0%Z Hw) as (_ & E' & _).
      rewrite E' in E. by inversion E.
  - unfold emit_exit in E. destruct (heap s !! w) as [o|] eqn:Hw.
    + rewrite (Hex w o Hw) in E. by inversion E.
    + by inversion E.
  - by inversion E.
  - destruct (resume_enabled s); by inversion E.
Qed.

Lemma run_Dead_posted evs s s' :
  Dead s -> run evs s = Returns s' -> posted s' = posted s.
Proof.
  revert s. induction evs as [|ev evs IH]; intros s HD E; simpl in E.
  - by inversion E.
  - destruct (step_Dead ev s HD) as (s1 & E1 & HD1 & _). rewrite E1 in E. simpl in E.
    rewrite (IH s1 HD1 E). by eapply step_Dead_posted.
Qed.
(** ** The claims that hold whatever the payloads *)

Lemma busy_nil s : (forall w, w ∈ workers s -> w ∈ availableWorkers s) -> busy s = [].
Proof.
  intros H. unfold busy. induction (workers s) as [|a l IH]; [done|].
  rewrite filter_cons. case_decide as Ha.
  - exfalso. apply Ha, H. by left.
  - apply IH. intros w Hw. apply H. by right.
Qed.

(** C1, as amended: the constructor does not look at the capacity (4
    when none is given).  When the capacity is below 1 it returns a pool
    without any worker, whatever the script.  Otherwise it returns a pool
    with one worker per integer of [0 .. capacity - 1], all of them idle
    and none busy, and an empty queue, provided [new Worker] takes the
    script path; when it does not, the first [new Worker] throws
    [ERR_WORKER_PATH] out of the constructor. *)
Theorem constructor_checks_no_capacity (script : string) (size : option Z) :
  (is_worker_path script = true \/ (default 4 size < 1)%Z ->
   exists s, constructor (Data:=Data) script size = Returns s /\
     poolSize s = default 4%Z size /\
     length (workers s) = Z.to_nat (poolSize s) /\
     idle s = workers s /\
     busy s = [] /\
     (forall w, w ∈ workers s -> heap s !! w = Some (idle_worker false)) /\
     (forall w o, heap s !! w = Some o -> w ∈ workers s) /\
     taskQueue s = [] /\
     ((1 <= poolSize s)%Z -> Z.of_nat (length (workers s)) = poolSize s) /\
     ((poolSize s < 1)%Z -> workers s = [])) /\
  (is_worker_path script = false -> (1 <= default 4 size)%Z ->
   exists s, constructor (Data:=Data) script size
             = Throws (worker_path_error script) s /\
     poolSize s = default 4%Z size /\ workers s = [] /\ heap s = []).
Proof.
  split.
  - intros H. exists (fresh_pool script (default 4%Z size)).
    split; [apply constructor_fresh; destruct H; [by left|right; lia]|].
    unfold idle. simpl. rewrite !length_seq.
    split_and!; try done.
    + by apply busy_nil.
    + intros w Hw. apply elem_of_seq in Hw. apply lookup_replicate. split; [done|lia].
    + intros w o Hw. apply lookup_replicate in Hw as [_ Hw]. apply elem_of_seq. lia.
    + intros H1. lia.
    + intros H1. by replace (Z.to_nat (default 4%Z size)) with 0 by lia.
  - intros Hp Hn. eexists. split; [by apply constructor_thrown|]. done.
Qed.

(** C2, as amended: when a [terminate] that was called in a state the
    pool can reach returns, after any events during its [await], the
    workers list and the available list are empty and no worker of the
    pool is busy.  The queue is not cleared: what it holds then is what it
    held at the call, less the tasks [handed] to workers by completions
    during the [await], plus the tasks [new]ly submitted meanwhile; with
    no completion in between nothing has left it. *)
Theorem terminate_clears_workers_not_queue
        (script : string) (size : option Z) (evs0 evs : list (Event Data)) s s2 :
  scenario script size evs0 = Returns s ->
  run (TerminateCall :: evs) s = Returns s2 ->
  resume_enabled s2 = true ->
  exists s3, step TerminateResume s2 = Returns s3 /\
    workers s3 = [] /\ idle s3 = [] /\ busy s3 = [] /\
    exists handed new,
      taskQueue s ++ new = handed ++ taskQueue s3 /\
      Forall (fun t => length (promises s) <= promise t) new /\
      Forall (fun t => exists w, (w, t) ∈ posted s3) handed /\
      (forallb (fun ev => negb (is_completion ev)) evs = true -> handed = []) /\
      (forallb (fun ev => negb (is_submission ev)) evs = true -> new = []).
Proof.
  intros Hs Hrun Hen. simpl. rewrite Hen. eexists. split; [reflexivity|].
  split_and!; try done. simpl.
  pose proof (scenario_shaped _ _ _ _ Hs) as HS.
  destruct (run_queue evs (terminate_call s) s2 (Shape_terminate_call s HS) Hrun)
    as (_ & _ & handed & new & H).
  by exists handed, new.
Qed.


Lemma runTask_executor_snoc t s av w :
  availableWorkers s = av ++ [w] ->
  runTask_executor t s
  = postMessage w t
      (once_error w (OnceErrorHandler w t)
         (once_message w (OnceMessageHandler w t) (set_availableWorkers av s))).
Proof.
  intros Hav. unfold runTask_executor, executeTask.
  rewrite Hav, pop_snoc, length_app. simpl.
  by replace (0 <? length av + 1) with true by (symmetry; apply Nat.ltb_lt; lia).
Qed.

Lemma has_exited_attached s av w (l1 : MessageListener) (l2 : ErrorListener) :
  has_exited (once_error w l2 (once_message w l1 (set_availableWorkers av s))) w
  = has_exited s w.
Proof.
  unfold has_exited. destruct s; unfold_ops.
  rewrite list_alter_alter_eq, list_lookup_alter_eq. by destruct (heap0 !! w).
Qed.

(** C6, as amended: [runTask] never throws and always returns a
    promise, the next free index.  When the available list is not empty
    its last worker is popped and gets both closures of the task; then
    the payload is sent to it and the promise is pending, unless
    [postMessage] refuses the payload: in that case nothing is sent and
    the promise is rejected with that [DataCloneError], by one call.
    When the available list is empty the task goes to the tail of the
    queue, the promise is pending, and nothing else changes. *)
Theorem runTask_dispatches_or_queues (d : Data) s :
  let p := fst (runTask d s) in
  let s' := snd (runTask d s) in
  p = length (promises s) /\
  match pop (availableWorkers s) with
  | (Some w, rest) =>
      availableWorkers s' = rest /\
      heap s' = alter (attach w (mkTask d p)) w (heap s) /\
      taskQueue s' = taskQueue s /\
      match (if has_exited s w then None else clone_error d) with
      | None =>
          posted s' = posted s ++ [(w, mkTask d p)] /\
          promises s' = promises s ++ [unsettled]
      | Some m =>
          posted s' = posted s /\
          promises s' = promises s ++ [mkPromise (Rejected (DataCloneError m)) 1]
      end
  | (None, _) =>
      taskQueue s' = taskQueue s ++ [mkTask d p] /\
      availableWorkers s' = availableWorkers s /\
      posted s' = posted s /\
      heap s' = heap s /\
      promises s' = promises s ++ [unsettled]
  end.
Proof.
  destruct (availableWorkers s) as [|a av0] eqn:Hav.
  - rewrite runTask_enqueue by done. simpl. by rewrite Hav.
  - destruct (nonempty_snoc (a :: av0)) as (av & w & E); [done|].
    rewrite E in Hav. rewrite E, pop_snoc. clear E.
    unfold runTask.
    rewrite (runTask_executor_snoc _ _ av w) by done.
    unfold postMessage. rewrite has_exited_attached.
    change (has_exited (set_promises _ s) w) with (has_exited s w). simpl.
    destruct (if has_exited s w then None else clone_error d) as [m|];
      destruct s as [ws av1 q sc ps hp pr po co aw]; unfold_ops;
      rewrite list_alter_alter_eq; split_and!; try done.
    unfold push. rewrite <- (Nat.add_0_r (length pr)) at 1. by rewrite alter_app_r.
Qed.

(** C10: once a [terminate] has resumed, the pool still takes
    submissions: after any further events, [runTask] appends the task to
    the queue, nothing is available and nothing is sent to a worker, and
    the promise it returns is pending and stays pending through every
    later sequence of events. *)
Theorem submissions_after_terminate_never_settle
        (script : string) (size : option Z) (evs : list (Event Data)) s :
  scenario script size evs = Returns s ->
  resume_enabled s = true ->
  exists s0, step TerminateResume s = Returns s0 /\
    forall evs1, exists s1, run evs1 s0 = Returns s1 /\
      forall d,
        let p := fst (runTask d s1) in
        let s2 := snd (runTask d s1) in
        taskQueue s2 = taskQueue s1 ++ [mkTask d p] /\
        idle s2 = [] /\
        posted s2 = posted s1 /\
        promise_status s2 p = Some Pending /\
        forall evs2, exists s3, run evs2 s2 = Returns s3 /\
          promise_status s3 p = Some Pending.
Proof.
  intros Hs Hen. pose proof (scenario_shaped _ _ _ _ Hs) as HS.
  eexists. split; [simpl; by rewrite Hen|].
  pose proof (resume_Dead s HS Hen) as HD0.
  intros evs1. destruct (run_Dead evs1 _ HD0) as (s1 & E1 & HD1 & _).
  exists s1. split; [done|]. intros d.
  destruct HD1 as [Hav1 Hex1].
  rewrite (runTask_enqueue d s1 Hav1). cbv zeta. simpl fst. simpl snd.
  set (s2 := set_taskQueue _ _).
  assert (Dead s2) as HD2 by (split; [exact Hav1|exact Hex1]).
  assert (promises s2 !! length (promises s1) = Some unsettled) as Hp
    by apply lookup_snoc_new.
  split_and!; try done.
  - unfold promise_status. by rewrite Hp.
  - intros evs2.
    destruct (run_Dead evs2 s2 HD2) as (s3 & E3 & _ & H3).
    exists s3. split; [done|]. unfold promise_status. by rewrite (H3 _ _ Hp).
Qed.

(** ** Further properties that hold whatever the payloads *)

(** A queued payload that cannot be copied: when a worker that runs a
    task completes, by message or by error, with such a payload at the
    head of the queue, the completion closure takes it from the queue,
    registers its closures on the worker and then [postMessage] throws,
    out of the closure and out of the listener.  The task that has just
    been completed is not settled, nothing is sent, and the worker is
    not put back. *)
Theorem refused_queue_head_ends_the_run
        (script : string) (size : option Z) (evs : list (Event Data))
        s w o t n q (m : string) :
  scenario script size evs = Returns s ->
  heap s !! w = Some o -> exited o = false ->
  OnceMessageHandler w t ∈ message_listeners o ->
  taskQueue s = n :: q -> clone_error (data n) = Some m ->
  (forall result, exists s',
     step (Message w result) s = Throws (DataCloneError m) s' /\
     promises s' = promises s /\ posted s' = posted s /\ taskQueue s' = q /\
     heap s' !! w = Some (busy_worker w n false) /\ idle s' = idle s /\
     console s' = console s) /\
  (forall err, exists s',
     step (WorkerError w err) s = Throws (DataCloneError m) s' /\
     promises s' = promises s /\ posted s' = posted s /\ taskQueue s' = q /\
     heap s' !! w = Some (busy_worker w n false) /\ idle s' = idle s /\
     console s' = console s ++ [LogWorkerError err]).
Proof.
  intros Hs Hw Hex Hin Hq Hm. pose proof (scenario_shaped _ _ _ _ Hs) as HS.
  pose proof (message_closure_shape s w o t HS Hw Hex Hin) as ->.
  pose proof (lookup_lt_Some _ _ _ Hw) as Hlt.
  assert (next_refused s = Some m) as Hn by (unfold next_refused; by rewrite Hq).
  split.
  - intros result. simpl. rewrite (emit_message_running s w t result Hw), Hn.
    eexists. split; [reflexivity|]. unfold stalled, taken. rewrite Hq. simpl.
    split_and!; try done. by apply list_lookup_insert_eq.
  - intros err. simpl. rewrite (emit_error_running s w t err Hw), Hn.
    eexists. split; [reflexivity|]. unfold stalled, taken. simpl. rewrite Hq. simpl.
    split_and!; try done. by apply list_lookup_insert_eq.
Qed.
(** ** Tasks and promises, when every payload can be copied *)

(** *** Lists of promise indices *)

Lemma fmap_NoDup_inj {A B : Type} (f : A -> B) (l : list A) (x y : A) :
  NoDup (f <$> l) -> x ∈ l -> y ∈ l -> f x = f y -> x = y.
Proof.
  induction l as [|a l IH]; intros Hnd Hx Hy Hf.
  - by apply elem_of_nil in Hx.
  - rewrite fmap_cons in Hnd. apply NoDup_cons in Hnd as [Ha Hnd].
    apply elem_of_cons in Hx as [->|Hx]; apply elem_of_cons in Hy as [->|Hy]; auto.
    + exfalso. apply Ha. rewrite Hf. by apply list_elem_of_fmap_2.
    + exfalso. apply Ha. rewrite <- Hf. by apply list_elem_of_fmap_2.
Qed.

Section Order.
Variable s : State Data.
Hypothesis Hord :
  ((fun d => promise (snd d)) <$> posted s) ++ (promise <$> taskQueue s)
  = seq 0 (length (promises s)).

Lemma order_nodup :
  NoDup ((fun d : nat * WorkerTask Data => promise (snd d)) <$> posted s)
  /\ NoDup (promise <$> taskQueue s).
Proof.
  pose proof (NoDup_seq 0 (length (promises s))) as H.
  rewrite <- Hord in H. apply NoDup_app in H. tauto.
Qed.

Lemma posted_inj w1 t1 w2 t2 :
  (w1, t1) ∈ posted s -> (w2, t2) ∈ posted s -> promise t1 = promise t2 ->
  w1 = w2 /\ t1 = t2.
Proof.
  intros H1 H2 Hp.
  assert ((w1, t1) = (w2, t2)) as E.
  { eapply (fmap_NoDup_inj (fun d : nat * WorkerTask Data => promise (snd d)));
      [apply order_nodup| done | done | done]. }
  by inversion E.
Qed.

Lemma posted_not_queued w t t' :
  (w, t) ∈ posted s -> t' ∈ taskQueue s -> promise t <> promise t'.
Proof.
  intros H1 H2 Hp.
  pose proof (NoDup_seq 0 (length (promises s))) as H.
  rewrite <- Hord in H. apply NoDup_app in H as (_ & H & _).
  apply (H (promise t)).
  - by apply (list_elem_of_fmap_2 (fun d : nat * WorkerTask Data => promise (snd d)) _ (w, t)).
  - rewrite Hp. by apply list_elem_of_fmap_2.
Qed.

End Order.

Lemma lookup_settle (pr : list Promise) st p q c :
  alter (settle st) p pr !! q = Some c ->
  (p <> q /\ pr !! q = Some c) \/
  (p = q /\ exists c0, pr !! q = Some c0 /\ c = settle st c0).
Proof.
  destruct (decide (p = q)) as [->|Hne].
  - rewrite list_lookup_alter_eq. destruct (pr !! q) as [c0|]; simpl; [|done].
    intros [= <-]. right. eauto.
  - rewrite list_lookup_alter_ne by done. eauto.
Qed.

Lemma settle_with_on_promise result t s :
  exists st, st <> Pending /\ settle_with result t s = on_promise t st s.
Proof.
  unfold settle_with, resolve, reject.
  destruct (success result); eexists; split; try reflexivity; done.
Qed.

Lemma promises_completed w s : promises (completed w s) = promises s.
Proof. unfold completed. by destruct (taskQueue s). Qed.

(** A task a worker has is in flight: sent and unsettled. *)
Lemma carries_inflight s w t :
  Inv s -> carries s w t ->
  (w, t) ∈ posted s /\ promises s !! promise t = Some unsettled.
Proof.
  intros HI [[ex H]|H]; [by apply (inv_inflight s HI w t ex)|by apply (inv_stranded s HI w t)].
Qed.

Lemma Inv_ext s s' :
  Inv s -> heap s' = heap s -> posted s' = posted s -> promises s' = promises s ->
  taskQueue s' = taskQueue s -> Inv s'.
Proof.
  intros [H1 H2 H3 H4 H5] E1 E2 E3 E4.
  constructor; rewrite ?E1, ?E2, ?E3, ?E4; done.
Qed.

Lemma Inv_fresh script ps : Inv (fresh_pool (Data:=Data) script ps).
Proof.
  constructor; simpl.
  - intros w t ex H. apply lookup_replicate in H as [H _]. inversion H.
  - intros w t H. apply lookup_replicate in H as [H _]. inversion H.
  - intros t H. by apply elem_of_nil in H.
  - done.
  - intros p c H. by rewrite lookup_nil in H.
Qed.

Lemma Inv_completed s w t st :
  Shape s -> Inv s -> heap s !! w = Some (busy_worker w t false) -> st <> Pending ->
  Inv (on_promise t st (completed w s)).
Proof.
  intros HS HI Hw Hst.
  destruct (inv_inflight s HI _ _ _ Hw) as [Hpost Hpt].
  pose proof (lookup_lt_Some _ _ _ Hw) as Hlt.
  pose proof (inv_order s HI) as Hord.
  assert (forall t', t' ∈ taskQueue s ->
            alter (settle st) (promise t) (promises s) !! promise t' = Some unsettled) as Hq.
  { intros t' Ht'. rewrite list_lookup_alter_ne.
    - by apply (inv_queue s HI).
    - by eapply posted_not_queued. }
  assert (forall w' t', w' <> w -> carries s w' t' ->
            (w', t') ∈ posted s /\
            alter (settle st) (promise t) (promises s) !! promise t' = Some unsettled) as Hf.
  { intros w' t' Hne Hw'. destruct (carries_inflight s w' t' HI Hw') as [Hp' Hpt'].
    split; [done|]. rewrite list_lookup_alter_ne; [done|].
    intros E. by destruct (posted_inj s Hord _ _ _ _ Hpost Hp' E). }
  assert (forall p c, alter (settle st) (promise t) (promises s) !! p = Some c ->
            (settle_calls c = 0 /\ status c = Pending) \/
            (settle_calls c = 1 /\ status c <> Pending)) as Hc.
  { intros p c H. apply lookup_settle in H as [[_ H]|[E (c0 & H & ->)]].
    - by apply (inv_calls s HI p).
    - subst p. rewrite Hpt in H. inversion H; subst. right. simpl. done. }
  unfold completed, on_promise.
  destruct s as [ws av q sc ps hp pr po co aw]; simpl in *.
  destruct q as [|n q]; simpl; constructor; simpl.
  - intros w' t' ex H. apply list_lookup_insert_Some in H as [(<- & H & _)|[Hne H]].
    + inversion H.
    + apply Hf; [done|]. left. eauto.
  - intros w' t' H. apply list_lookup_insert_Some in H as [(<- & H & _)|[Hne H]].
    + inversion H.
    + apply Hf; [done|]. by right.
  - intros t' H. by apply elem_of_nil in H.
  - by rewrite length_alter.
  - done.
  - intros w' t' ex H. apply list_lookup_insert_Some in H as [(<- & H & _)|[Hne H]].
    + inversion H; subst. split; [apply elem_of_app; right; by apply list_elem_of_singleton|].
      apply Hq. by left.
    + destruct (Hf w' t') as [H1 H2]; [done|left; eauto|]. split; [|done].
      apply elem_of_app. by left.
  - intros w' t' H. apply list_lookup_insert_Some in H as [(<- & H & _)|[Hne H]].
    + inversion H.
    + destruct (Hf w' t') as [H1 H2]; [done|by right|]. split; [|done].
      apply elem_of_app. by left.
  - intros t' H. apply Hq. by right.
  - rewrite length_alter, fmap_app, <- app_assoc. exact Hord.
  - done.
Qed.

Lemma Inv_dispatched s d av w :
  Shape s -> Inv s -> availableWorkers s = av ++ [w] ->
  exists ex, heap s !! w = Some (idle_worker ex) /\ taskQueue s = [] /\
  Inv (dispatched w (mkTask d (length (promises s))) ex av
         (set_promises (promises s ++ [unsettled]) s)).
Proof.
  intros HS HI Hav.
  destruct (sh_avail_idle s HS w) as [ex Hw].
  { rewrite Hav. apply elem_of_app. right. by apply list_elem_of_singleton. }
  destruct (Shape_taken s (mkTask d (length (promises s))) av w ex HS Hav Hw) as [Hq _].
  exists ex. split_and!; [done|done|].
  pose proof (inv_order s HI) as Hord. rewrite Hq in Hord.
  pose proof (lookup_lt_Some _ _ _ Hw) as Hlt.
  unfold dispatched.
  destruct s as [ws av0 q sc ps hp pr po co aw]; simpl in *. subst av0 q.
  constructor; simpl.
  - intros w' t' ex' H. apply list_lookup_insert_Some in H as [(<- & H & _)|[Hne H]].
    + inversion H; subst. split; [apply elem_of_app; right; by apply list_elem_of_singleton|].
      simpl. apply lookup_snoc_new.
    + destruct (inv_inflight _ HI _ _ _ H) as [H1 H2]. split.
      * apply elem_of_app. by left.
      * by apply lookup_app_l_Some.
  - intros w' t' H. apply list_lookup_insert_Some in H as [(<- & H & _)|[Hne H]].
    + inversion H.
    + destruct (inv_stranded _ HI _ _ H) as [H1 H2]. split.
      * apply elem_of_app. by left.
      * by apply lookup_app_l_Some.
  - intros t' H. by apply elem_of_nil in H.
  - rewrite length_app, fmap_app. simpl. rewrite Nat.add_1_r, seq_S. simpl.
    rewrite !app_nil_r in *. by rewrite Hord.
  - intros p c H. apply lookup_app_Some in H as [H|[_ H]].
    + by apply (inv_calls _ HI p).
    + destruct (p - length pr) as [|k]; simpl in H; [|done]. inversion H. by left.
Qed.

Lemma Inv_enqueued s d :
  Inv s ->
  Inv (set_taskQueue (taskQueue s ++ [mkTask d (length (promises s))])
         (set_promises (promises s ++ [unsettled]) s)).
Proof.
  intros HI. pose proof (inv_order s HI) as Hord.
  destruct s as [ws av q sc ps hp pr po co aw]; simpl in *.
  constructor; simpl.
  - intros w t ex H. destruct (inv_inflight _ HI _ _ _ H) as [H1 H2].
    split; [done|]. by apply lookup_app_l_Some.
  - intros w t H. destruct (inv_stranded _ HI _ _ H) as [H1 H2].
    split; [done|]. by apply lookup_app_l_Some.
  - intros t H. apply elem_of_app in H as [H|H].
    + apply lookup_app_l_Some. by apply (inv_queue _ HI).
    + apply list_elem_of_singleton in H as ->. simpl. apply lookup_snoc_new.
  - rewrite length_app, fmap_app. simpl. rewrite Nat.add_1_r, seq_S. simpl.
    by rewrite app_assoc, Hord.
  - intros p c H. apply lookup_app_Some in H as [H|[_ H]].
    + by apply (inv_calls _ HI p).
    + destruct (p - length pr) as [|k]; simpl in H; [|done]. inversion H. by left.
Qed.

Lemma Inv_exited s w o :
  Shape s -> Inv s -> heap s !! w = Some o ->
  Inv (set_heap (<[w := gone o]> (heap s)) s).
Proof.
  intros HS HI Hw.
  constructor; simpl; try apply HI.
  - intros w' t ex H. apply list_lookup_insert_Some in H as [(<- & H & _)|[Hne H]].
    + inversion H.
    + by apply (inv_inflight _ HI w' t ex).
  - intros w' t H. apply list_lookup_insert_Some in H as [(<- & H & _)|[Hne H]].
    + destruct (sh_heap _ HS _ _ Hw) as [[ex ->]|[(t' & ex & ->)|[t' ->]]];
        inversion H; subst.
      * by apply (inv_inflight _ HI w t ex).
      * by apply (inv_stranded _ HI w t).
    + by apply (inv_stranded _ HI w' t).
Qed.

Lemma Inv_exit_logged s code : Inv s -> Inv (exit_logged code s).
Proof.
  intros HI. unfold exit_logged. destruct (Z.eqb code 0); [done|]. by apply (Inv_ext s).
Qed.

Section Cloneable.

(** From here on every payload can be copied. *)
Hypothesis all_clone : forall d : Data, clone_error d = None.

Lemma next_refused_none s : next_refused s = None.
Proof. unfold next_refused. by destruct (taskQueue s). Qed.

Lemma executeTask_idle t s av w ex :
  availableWorkers s = av ++ [w] ->
  heap s !! w = Some (idle_worker ex) ->
  executeTask t s = Returns (dispatched w t ex av s).
Proof.
  intros Hav Hw. rewrite (executeTask_taken t s av w ex Hav Hw), all_clone.
  by destruct ex.
Qed.

Lemma executeTask_nonempty t s :
  availableWorkers s <> [] -> exists s', executeTask t s = Returns s'.
Proof.
  intros Hav. apply nonempty_snoc in Hav as (av & w & Hav).
  unfold executeTask, postMessage. rewrite Hav, pop_snoc, all_clone.
  destruct (has_exited _ w); eauto.
Qed.

Lemma next_in_queue_returns s :
  availableWorkers s <> [] -> exists s', next_in_queue s = Returns s'.
Proof.
  intros Hav. unfold next_in_queue.
  destruct (taskQueue s) as [|n q] eqn:Hq; simpl; [eauto|].
  by apply executeTask_nonempty.
Qed.

Lemma messageHandler_returns w t result s :
  exists s', messageHandler w t result s = Returns s'.
Proof.
  unfold messageHandler.
  match goal with |- context [next_in_queue ?x] =>
    destruct (next_in_queue_returns x) as [s' ->] end.
  - unfold_ops. by destruct (availableWorkers s).
  - simpl. destruct (success result); eauto.
Qed.

Lemma errorHandler_returns w t err s :
  exists s', errorHandler w t err s = Returns s'.
Proof.
  unfold errorHandler.
  match goal with |- context [next_in_queue ?x] =>
    destruct (next_in_queue_returns x) as [s' ->] end.
  - unfold_ops. by destruct (availableWorkers s).
  - simpl. eauto.
Qed.

Lemma runTask_executor_returns t s :
  exists s', runTask_executor t s = Returns s'.
Proof.
  unfold runTask_executor.
  destruct (availableWorkers s) as [|a av] eqn:Hav; simpl; [eauto|].
  apply executeTask_nonempty. by rewrite Hav.
Qed.

Lemma emit_message_busy s w t result :
  heap s !! w = Some (busy_worker w t false) ->
  emit_message w result s = Returns (settle_with result t (completed w s)).
Proof. intros Hw. by rewrite (emit_message_running s w t result Hw), next_refused_none. Qed.

Lemma emit_error_busy s w t err :
  heap s !! w = Some (busy_worker w t false) ->
  emit_error w err s
  = Returns (reject t err (completed w (console_error (LogWorkerError err) s))).
Proof. intros Hw. by rewrite (emit_error_running s w t err Hw), next_refused_none. Qed.

Lemma runTask_dispatch d s av w ex :
  availableWorkers s = av ++ [w] ->
  heap s !! w = Some (idle_worker ex) ->
  runTask d s =
  (length (promises s),
   dispatched w (mkTask d (length (promises s))) ex av
              (set_promises (promises s ++ [unsettled]) s)).
Proof.
  intros Hav Hw. rewrite (runTask_taken d s av w ex Hav Hw), all_clone. by destruct ex.
Qed.

(** *** Every event returns and keeps the invariant *)

Lemma step_Inv ev s :
  Shape s -> Inv s ->
  exists s', step ev s = Returns s' /\ Shape s' /\ Inv s' /\ promises_step s s'.
Proof.
  intros HS HI. pose proof (step_Shape ev s HS) as HS'.
  destruct ev as [d|w result|w err|w code| |]; simpl in *.
  - destruct (availableWorkers s) as [|a av0] eqn:Hav.
    + rewrite runTask_enqueue in * by done. eexists; split_and!; [done|done| |right; by left].
      by apply Inv_enqueued.
    + destruct (nonempty_snoc (a :: av0)) as (av & w & E); [done|].
      rewrite E in Hav. destruct (Inv_dispatched s d av w HS HI Hav) as (ex & Hw & _ & HI').
      erewrite runTask_dispatch in * by done.
      eexists; split_and!; [done|done|done|right; by left].
  - destruct (worker_cases s w HS) as [Hw|[(o & Hw & Hex)|[Hw|[t Hw]]]].
    + destruct (emit_absent s w result (Error "") 0%Z Hw) as (E & _). rewrite E in *.
      exists s. split_and!; [done|done|done|by left].
    + destruct (emit_exited s w o result (Error "") Hw Hex) as (E & _). rewrite E in *.
      exists s. split_and!; [done|done|done|by left].
    + rewrite (emit_message_idle s w false result Hw) in *.
      exists s. split_and!; [done|done|done|by left].
    + rewrite (emit_message_busy s w t result Hw) in *.
      destruct (settle_with_on_promise result t (completed w s)) as (st & Hst & E).
      rewrite E in *.
      eexists; split_and!; [done|done| |].
      * by apply Inv_completed.
      * right; right. exists (promise t), st. split_and!; [done| |].
        -- by apply (inv_inflight s HI w t false).
        -- simpl. by rewrite promises_completed.
  - destruct (worker_cases s w HS) as [Hw|[(o & Hw & Hex)|[Hw|[t Hw]]]].
    + destruct (emit_absent s w (mkResult true None None) err 0%Z Hw) as (_ & E & _).
      rewrite E in *. exists s. split_and!; [done|done|done|by left].
    + destruct (emit_exited s w o (mkResult true None None) err Hw Hex) as (_ & E).
      rewrite E in *. exists s. split_and!; [done|done|done|by left].
    + rewrite (emit_error_idle s w err Hw) in *.
      eexists; split_and!; [done|done| |by left]. by apply (Inv_ext s).
    + rewrite (emit_error_busy s w t err Hw) in *.
      eexists; split_and!; [done|done| |].
      * apply (Inv_completed (console_error (LogWorkerError err) s)); [|by apply (Inv_ext s)|done|done].
        by apply (Shape_ext s).
      * right; right. exists (promise t), (Rejected err). split_and!; [done| |].
        -- by apply (inv_inflight s HI w t false).
        -- simpl. by rewrite promises_completed.
  - destruct (heap s !! w) as [o|] eqn:Hw.
    2:{ destruct (emit_absent s w (mkResult true None None) (Error "") code Hw) as (_ & _ & E).
        rewrite E in *. exists s. split_and!; [done|done|done|by left]. }
    destruct (exited o) eqn:Hex.
    { unfold emit_exit in *. rewrite Hw, Hex in *. exists s. split_and!; [done|done|done|by left]. }
    rewrite (emit_exit_running s w o code Hw Hex (exit_listeners_shape s w o HS Hw)) in *.
    eexists; split_and!; [done|done| |].
    + by apply Inv_exit_logged, Inv_exited.
    + left. unfold exit_logged. by destruct (Z.eqb code 0).
  - eexists; split_and!; [done|done| |by left]. by apply (Inv_ext s).
  - destruct (resume_enabled s) eqn:Hen.
    + eexists; split_and!; [done|done| |by left]. by apply (Inv_ext s).
    + exists s. split_and!; [done|done|done|by left].
Qed.

Lemma run_Inv evs s :
  Shape s -> Inv s -> exists s', run evs s = Returns s' /\ Shape s' /\ Inv s'.
Proof.
  revert s. induction evs as [|ev evs IH]; intros s HS HI; simpl.
  - eauto.
  - destruct (step_Inv ev s HS HI) as (s1 & -> & HS1 & HI1 & _). simpl. by apply IH.
Qed.

Lemma scenario_Inv script size evs :
  is_worker_path script = true ->
  exists s, scenario script size evs = Returns s /\ Shape s /\ Inv s.
Proof.
  intros Hp. unfold scenario. rewrite constructor_fresh by (by left). simpl.
  apply run_Inv; [apply Shape_fresh|apply Inv_fresh].
Qed.

Lemma scenario_unique script size evs s :
  scenario script size evs = Returns s -> Shape s /\ Inv s.
Proof.
  intros H. apply scenario_start in H.
  destruct (run_Inv evs _ (Shape_fresh script (default 4%Z size))
              (Inv_fresh script (default 4%Z size))) as (s' & E & HS & HI).
  rewrite E in H. by inversion H; subst.
Qed.

(** A settled promise is never touched again. *)
Lemma promises_step_settled s s' p c :
  promises_step s s' -> promises s !! p = Some c -> status c <> Pending ->
  promises s' !! p = Some c.
Proof.
  intros [->|[->|(q & st & _ & Hq & ->)]] Hp Hc; [done|by apply lookup_app_l_Some|].
  rewrite list_lookup_alter_ne; [done|]. intros ->. rewrite Hq in Hp.
  inversion Hp; subst. by apply Hc.
Qed.

Lemma run_settled evs s s' p c :
  Shape s -> Inv s -> run evs s = Returns s' ->
  promises s !! p = Some c -> status c <> Pending -> promises s' !! p = Some c.
Proof.
  revert s. induction evs as [|ev evs IH]; intros s HS HI Hrun Hp Hc; simpl in Hrun.
  - by inversion Hrun; subst.
  - destruct (step_Inv ev s HS HI) as (s1 & E & HS1 & HI1 & Hstep).
    rewrite E in Hrun. simpl in Hrun.
    apply (IH s1); try done. by eapply promises_step_settled.
Qed.
(** ** The claims about tasks and promises *)


(** For payloads that can be copied, [executeTask] throws exactly when
    the available list is empty, and its three call sites return
    normally in every state. *)
Lemma pop_guarded_when_cloneable s :
  (forall t, (exists e s', executeTask t s = Throws e s') <-> availableWorkers s = []) /\
  (forall t, (exists s', executeTask t s = Returns s') <-> availableWorkers s <> []) /\
  (forall t, exists s', runTask_executor t s = Returns s') /\
  (forall w t result, exists s', messageHandler w t result s = Returns s') /\
  (forall w t err, exists s', errorHandler w t err s = Returns s').
Proof.
  split_and!.
  - intros t. split.
    + intros (e & s' & H). destruct (availableWorkers s) eqn:Hav; [done|].
      destruct (executeTask_nonempty t s) as [s'' H']; [by rewrite Hav|].
      rewrite H' in H. discriminate H.
    + intros Hav. rewrite (executeTask_empty t s Hav). eauto.
  - intros t. split.
    + intros (s' & H) Hav. rewrite (executeTask_empty t s Hav) in H. discriminate H.
    + apply executeTask_nonempty.
  - intros t. apply runTask_executor_returns.
  - intros w t result. apply messageHandler_returns.
  - intros w t err. apply errorHandler_returns.
Qed.

(** ** Further properties of the pool *)

(** Settled at most once, for payloads that can be copied: along every
    run of the pool, [resolve] and [reject] of a task are called at most
    once in total, and a promise is pending exactly when they have not
    been called; a task whose closure is still registered on a worker, as
    message or as error listener, has not been settled, so once a
    completion has settled it both closures are gone; and a settled
    promise keeps its outcome through all later events. *)
Theorem promise_settled_at_most_once
        (script : string) (size : option Z) (evs evs' : list (Event Data)) :
  is_worker_path script = true ->
  exists s s', scenario script size evs = Returns s /\ run evs' s = Returns s' /\
    (forall p c, promises s !! p = Some c ->
       settle_calls c <= 1 /\ (settle_calls c = 0 <-> status c = Pending)) /\
    (forall w w' o t, heap s !! w = Some o ->
       OnceMessageHandler w' t ∈ message_listeners o \/
       OnceErrorHandler w' t ∈ error_listeners o ->
       promises s !! promise t = Some unsettled) /\
    (forall p c, promises s !! p = Some c -> status c <> Pending ->
       promises s' !! p = Some c).
Proof.
  intros Hpath.
  destruct (scenario_Inv script size evs Hpath) as (s & E & HS & HI).
  destruct (run_Inv evs' s HS HI) as (s' & E' & HS' & HI').
  exists s, s'. split_and!; [done|done| | |].
  - intros p c H. destruct (inv_calls s HI p c H) as [[H1 H2]|[H1 H2]].
    + rewrite H1, H2. split; [lia|done].
    + rewrite H1. split; [lia|]. split; [done|]. intros H3. by rewrite H3 in H2.
  - intros w w' o t Hw Hin.
    destruct (sh_heap s HS w o Hw) as [[ex ->]|[(t0 & ex & ->)|[t0 ->]]]; simpl in Hin.
    + destruct Hin as [Hin|Hin].
      * by apply elem_of_nil in Hin.
      * apply list_elem_of_singleton in Hin. discriminate Hin.
    + assert (t = t0) as ->.
      { destruct Hin as [Hin|Hin].
        - apply list_elem_of_singleton in Hin. by inversion Hin.
        - apply elem_of_cons in Hin as [Hin|Hin]; [discriminate Hin|].
          apply list_elem_of_singleton in Hin. by inversion Hin. }
      by apply (inv_inflight s HI w t0 ex).
    + assert (t = t0) as ->.
      { destruct Hin as [Hin|Hin].
        - by apply elem_of_nil in Hin.
        - apply elem_of_cons in Hin as [Hin|Hin]; [discriminate Hin|].
          apply list_elem_of_singleton in Hin. by inversion Hin. }
      by apply (inv_stranded s HI w t0).
  - intros p c Hp Hc. exact (run_settled evs' s s' p c HS HI E' Hp Hc).
Qed.

(** No double dispatch, for payloads that can be copied: along every run
    of the pool a worker carries the closures of at most one task, and
    then it is not in the available list and the payload of that task is
    the one sent to it; the available list has no worker twice and none
    of its workers is busy. *)
Theorem one_task_per_worker (script : string) (size : option Z) (evs : list (Event Data)) :
  is_worker_path script = true ->
  exists s, scenario script size evs = Returns s /\
    NoDup (idle s) /\
    (forall w, w ∈ idle s -> worker_busy (heap s) w = false) /\
    (forall w o, heap s !! w = Some o ->
       length (message_listeners o) <= 1 /\
       forall w' t, OnceMessageHandler w' t ∈ message_listeners o ->
         w' = w /\ error_listeners o = [OnWorkerError; OnceErrorHandler w t] /\
         (w ∉ idle s) /\ (w, t) ∈ posted s).
Proof.
  intros Hpath.
  destruct (scenario_Inv script size evs Hpath) as (s & E & HS & HI).
  exists s. split_and!; [done|apply (sh_avail_nodup s HS)| |].
  - intros w Hw. destruct (sh_avail_idle s HS w Hw) as [ex Hex].
    unfold worker_busy. by rewrite Hex.
  - intros w o Hw.
    destruct (sh_heap s HS w o Hw) as [[ex ->]|[(t0 & ex & ->)|[t0 ->]]]; simpl.
    + split; [lia|]. intros w' t Hin. by apply elem_of_nil in Hin.
    + split; [lia|]. intros w' t Hin. apply list_elem_of_singleton in Hin.
      inversion Hin; subst. split_and!; try done.
      * by eapply taken_not_available.
      * by apply (inv_inflight s HI w t0 ex).
    + split; [lia|]. intros w' t Hin. by apply elem_of_nil in Hin.
Qed.

Lemma run_submissions (ds : list Data) s :
  Shape s -> Inv s -> taskQueue s = [] -> length ds <= length (availableWorkers s) ->
  exists s', run (RunTask <$> ds) s = Returns s' /\ Inv s' /\
    taskQueue s' = [] /\
    length (availableWorkers s') + length ds = length (availableWorkers s) /\
    length (posted s') = length (posted s) + length ds.
Proof.
  revert s. induction ds as [|d ds IH]; intros s HS HI Hq Hlen; simpl in *.
  - exists s. split_and!; try done; lia.
  - destruct (nonempty_snoc (availableWorkers s)) as (av & w & Hav).
    { intros E. rewrite E in Hlen. simpl in Hlen. lia. }
    destruct (Inv_dispatched s d av w HS HI Hav) as (ex & Hw & _ & HI1).
    pose proof (step_Shape (RunTask d) s HS) as HS1. simpl in HS1.
    rewrite (runTask_dispatch d s av w ex Hav Hw) in *. simpl in HS1. simpl.
    rewrite Hav, length_app in Hlen. simpl in Hlen.
    destruct (IH _ HS1 HI1) as (s' & E & HI' & Hq' & Hav' & Hpo').
    + done.
    + simpl. lia.
    + exists s'. split_and!; try done.
      * simpl in Hav'. rewrite Hav, length_app. simpl. lia.
      * simpl in Hpo'. rewrite length_app in Hpo'. simpl in Hpo'. lia.
Qed.

(** Idle-worker reuse, for payloads that can be copied: a fresh pool of
    [n] workers sends [n] submitted payloads to workers at once, none is
    queued and no worker stays idle; one more submission is queued and
    sent nowhere. *)
Theorem fresh_pool_takes_capacity (script : string) (ds : list Data) (d : Data) :
  is_worker_path script = true ->
  exists s, scenario script (Some (Z.of_nat (length ds))) (RunTask <$> ds) = Returns s /\
    taskQueue s = [] /\
    idle s = [] /\
    length (posted s) = length ds /\
    taskQueue (snd (runTask d s)) = [mkTask d (length ds)] /\
    posted (snd (runTask d s)) = posted s.
Proof.
  intros Hpath. unfold scenario. rewrite constructor_fresh by (by left). simpl.
  destruct (run_submissions ds (fresh_pool script (Z.of_nat (length ds))))
    as (s & E & HI & Hq & Hav & Hpo).
  { apply Shape_fresh. }
  { apply Inv_fresh. }
  { done. }
  { simpl. rewrite length_seq. lia. }
  simpl in Hav, Hpo. rewrite length_seq in Hav.
  assert (availableWorkers s = []) as Hnil by (apply length_zero_iff_nil; lia).
  exists s. split_and!; try done.
  - rewrite (runTask_enqueue d s Hnil). simpl. rewrite Hq. simpl.
    pose proof (inv_order s HI) as Hord. rewrite Hq in Hord. simpl in Hord.
    apply (f_equal length) in Hord.
    rewrite length_app, length_fmap, length_seq in Hord. simpl in Hord.
    do 3 f_equal. lia.
  - by rewrite (runTask_enqueue d s Hnil).
Qed.

(** Task failure and success, for payloads that can be copied: along
    every run of the pool, a message from a worker that is running a task
    fulfils the promise of that task with the message when it says
    [success], and rejects it with [new Error(result.error || 'Task
    failed')] otherwise; every other promise is left as it was. *)
Theorem worker_result_settles_task
        (script : string) (size : option Z) (evs : list (Event Data))
        s w o t (result : WorkerResult) :
  scenario script size evs = Returns s ->
  heap s !! w = Some o -> exited o = false ->
  OnceMessageHandler w t ∈ message_listeners o ->
  exists s', step (Message w result) s = Returns s' /\
    promise_status s' (promise t)
    = Some (if success result then Fulfilled result
            else Rejected (Error (or_else (error result) "Task failed"))) /\
    (forall p, p <> promise t -> promises s' !! p = promises s !! p).
Proof.
  intros Hs Hw Hex Hin. destruct (scenario_unique _ _ _ _ Hs) as [HS HI].
  pose proof (message_closure_shape s w o t HS Hw Hex Hin) as ->.
  destruct (inv_inflight s HI w t false Hw) as [_ Hpt].
  simpl. rewrite (emit_message_busy s w t result Hw).
  eexists. split; [done|].
  unfold settle_with, promise_status, resolve, reject, on_promise. simpl.
  split.
  - destruct (success result); simpl;
      by rewrite list_lookup_alter_eq, promises_completed, Hpt.
  - intros p Hp.
    destruct (success result); simpl;
      by rewrite list_lookup_alter_ne, promises_completed.
Qed.

(** ** One case analysis for all events *)

Lemma step_Trans ev s :
  Shape s -> Inv s ->
  exists s', step ev s = Returns s' /\ Shape s' /\ Inv s' /\ Trans s s'.
Proof.
  intros HS HI. destruct (step_Inv ev s HS HI) as (s' & E & HS' & HI' & _).
  exists s'. split_and!; try done. revert E.
  destruct ev as [d|w result|w err|w code| |]; simpl.
  - destruct (availableWorkers s) as [|a av0] eqn:Hav.
    + rewrite runTask_enqueue by done. intros [= <-]. by apply Trans_enqueue.
    + destruct (nonempty_snoc (a :: av0)) as (av & w & E); [done|].
      rewrite E in Hav. destruct (Inv_dispatched s d av w HS HI Hav) as (ex & Hw & Hq & _).
      erewrite runTask_dispatch by done. intros [= <-]. by apply Trans_dispatch.
  - destruct (worker_cases s w HS) as [Hw|[(o & Hw & Hex)|[Hw|[t Hw]]]].
    + destruct (emit_absent s w result (Error "") 0%Z Hw) as (-> & _).
      intros [= <-]. apply Trans_none.
    + destruct (emit_exited s w o result (Error "") Hw Hex) as (-> & _).
      intros [= <-]. apply Trans_none.
    + rewrite (emit_message_idle s w false result Hw). intros [= <-]. apply Trans_none.
    + rewrite (emit_message_busy s w t result Hw). intros [= <-].
      by apply (Trans_message s w t result).
  - destruct (worker_cases s w HS) as [Hw|[(o & Hw & Hex)|[Hw|[t Hw]]]].
    + destruct (emit_absent s w (mkResult true None None) err 0%Z Hw) as (_ & -> & _).
      intros [= <-]. apply Trans_none.
    + destruct (emit_exited s w o (mkResult true None None) err Hw Hex) as (_ & ->).
      intros [= <-]. apply Trans_none.
    + rewrite (emit_error_idle s w err Hw). intros [= <-].
      by apply (Trans_error_idle s w err).
    + rewrite (emit_error_busy s w t err Hw). intros [= <-].
      by apply (Trans_error s w t err).
  - destruct (heap s !! w) as [o|] eqn:Hw.
    2:{ destruct (emit_absent s w (mkResult true None None) (Error "") code Hw)
          as (_ & _ & ->). intros [= <-]. apply Trans_none. }
    destruct (exited o) eqn:Hex.
    { unfold emit_exit. rewrite Hw, Hex. intros [= <-]. apply Trans_none. }
    rewrite (emit_exit_running s w o code Hw Hex (exit_listeners_shape s w o HS Hw)).
    intros [= <-]. by apply (Trans_exit s w o code).
  - intros [= <-]. apply Trans_call.
  - destruct (resume_enabled s) eqn:Hen; intros [= <-].
    + by apply Trans_resume.
    + apply Trans_none.
Qed.

Lemma completed_lookup_ne w w' s :
  w' <> w -> heap (completed w s) !! w' = heap s !! w'.
Proof.
  intros Hne. unfold completed. destruct (taskQueue s); simpl;
    by rewrite list_lookup_insert_ne.
Qed.

Lemma exit_logged_heap code s : heap (exit_logged code s) = heap s.
Proof. unfold exit_logged. by destruct (Z.eqb code 0). Qed.

Lemma exit_logged_promises code s : promises (exit_logged code s) = promises s.
Proof. unfold exit_logged. by destruct (Z.eqb code 0). Qed.

Lemma exit_logged_posted code s : posted (exit_logged code s) = posted s.
Proof. unfold exit_logged. by destruct (Z.eqb code 0). Qed.

Lemma console_completed w s : console (completed w s) = console s.
Proof. unfold completed. by destruct (taskQueue s). Qed.

(** A task on a worker that has exited stays where it is. *)
Lemma Trans_stuck s s' w t (o : Worker) :
  Inv s -> Trans s s' ->
  heap s !! w = Some o -> exited o = true ->
  o = busy_worker w t true \/ o = stranded_worker w t ->
  heap s' !! w = Some o /\ promises s' !! promise t = Some unsettled.
Proof.
  intros HI HT Hw Hex Ho.
  assert (carries s w t) as Hc.
  { destruct Ho as [-> | ->]; [left; eauto|by right]. }
  destruct (carries_inflight s w t HI Hc) as [Hpost Hpt].
  pose proof (inv_order s HI) as Hord.
  destruct HT as [|d Hav|d av w0 ex Hav Hw0 Hq|w0 t0 result Hw0|w0 err Hw0
                  |w0 t0 err Hw0|w0 o0 code Hw0 Hex0| |Hen].
  - done.
  - simpl. split; [done|]. by apply lookup_app_l_Some.
  - unfold dispatched. simpl. split; [|by apply lookup_app_l_Some].
    rewrite list_lookup_insert_ne; [done|]. intros ->. rewrite Hw in Hw0.
    inversion Hw0; subst. by destruct Ho.
  - assert (w <> w0) as Hne.
    { intros ->. rewrite Hw in Hw0. inversion Hw0; subst. discriminate Hex. }
    destruct (inv_inflight s HI w0 t0 false Hw0) as [Hpost0 _].
    destruct (settle_with_on_promise result t0 (completed w0 s)) as (st & _ & ->).
    simpl. split; [by rewrite completed_lookup_ne|].
    rewrite promises_completed, list_lookup_alter_ne; [done|].
    intros E. by destruct (posted_inj s Hord _ _ _ _ Hpost0 Hpost E).
  - done.
  - assert (w <> w0) as Hne.
    { intros ->. rewrite Hw in Hw0. inversion Hw0; subst. discriminate Hex. }
    destruct (inv_inflight s HI w0 t0 false Hw0) as [Hpost0 _].
    simpl. split; [by rewrite completed_lookup_ne|].
    rewrite promises_completed. simpl. rewrite list_lookup_alter_ne; [done|].
    intros E. by destruct (posted_inj s Hord _ _ _ _ Hpost0 Hpost E).
  - rewrite exit_logged_heap, exit_logged_promises. simpl. split; [|done].
    rewrite list_lookup_insert_ne; [done|].
    intros ->. rewrite Hw in Hw0. inversion Hw0; subst. by rewrite Hex in Hex0.
  - done.
  - done.
Qed.

Lemma run_stuck evs s w t (o : Worker) :
  Shape s -> Inv s ->
  heap s !! w = Some o -> exited o = true ->
  o = busy_worker w t true \/ o = stranded_worker w t ->
  exists s', run evs s = Returns s' /\ Shape s' /\ Inv s' /\
    heap s' !! w = Some o /\
    promises s' !! promise t = Some unsettled.
Proof.
  revert s. induction evs as [|ev evs IH]; intros s HS HI Hw Hex Ho; simpl.
  - exists s. split_and!; try done.
    apply (carries_inflight s w t HI).
    destruct Ho as [-> | ->]; [left; eauto|by right].
  - destruct (step_Trans ev s HS HI) as (s1 & -> & HS1 & HI1 & HT). simpl.
    destruct (Trans_stuck s s1 w t o HI HT Hw Hex Ho) as [Hw1 _].
    by apply IH.
Qed.

Lemma stuck_not_available s w t (o : Worker) :
  Shape s -> heap s !! w = Some o ->
  o = busy_worker w t true \/ o = stranded_worker w t -> w ∉ idle s.
Proof.
  intros HS Hw Ho Hin. destruct (sh_avail_idle s HS w Hin) as [ex H].
  rewrite Hw in H. by destruct Ho as [-> | ->]; inversion H.
Qed.
(** *** Workers that have exited *)

Lemma exit_step s w o code :
  Shape s -> heap s !! w = Some o -> exited o = false ->
  step (WorkerExit w code) s
  = Returns (exit_logged code (set_heap (<[w := gone o]> (heap s)) s)).
Proof.
  intros HS Hw Hex. simpl.
  by rewrite (emit_exit_running s w o code Hw Hex (exit_listeners_shape s w o HS Hw)).
Qed.

Lemma exit_step_keeps s w o code s' :
  Shape s -> Inv s -> heap s !! w = Some o -> exited o = false ->
  step (WorkerExit w code) s = Returns s' ->
  Shape s' /\ Inv s' /\
  workers s' = workers s /\ availableWorkers s' = availableWorkers s /\
  taskQueue s' = taskQueue s /\ promises s' = promises s /\ posted s' = posted s /\
  console s' = console s ++ (if Z.eqb code 0 then [] else [LogWorkerExit code]) /\
  heap s' !! w = Some (gone o).
Proof.
  intros HS HI Hw Hex E.
  destruct (step_Inv (WorkerExit w code) s HS HI) as (s1 & E1 & HS1 & HI1 & _).
  rewrite E in E1. injection E1 as <-.
  rewrite (exit_step s w o code HS Hw Hex) in E. injection E as <-.
  split_and!; try done; try (unfold exit_logged; by destruct (Z.eqb code 0)).
  - unfold exit_logged. destruct (Z.eqb code 0); simpl; [|done]. by rewrite app_nil_r.
  - rewrite exit_logged_heap. simpl. apply list_lookup_insert_eq.
    by eapply lookup_lt_Some.
Qed.

(** What a worker had when it exited stays with it, unsettled. *)
Lemma stranded_forever evs s w t :
  Shape s -> Inv s -> heap s !! w = Some (stranded_worker w t) ->
  exists s', run evs s = Returns s' /\
    promise_status s' (promise t) = Some Pending /\
    heap s' !! w = Some (stranded_worker w t) /\
    (w ∉ idle s').
Proof.
  intros HS HI Hw.
  destruct (run_stuck evs s w t _ HS HI Hw) as (s' & E & HS' & HI' & Hw' & Hp');
    [done|by right|].
  exists s'. split_and!; try done.
  - unfold promise_status. by rewrite Hp'.
  - eapply stuck_not_available; [done|exact Hw'|by right].
Qed.

(** What is handed to a worker that has exited is never settled. *)
Lemma dead_dispatch_forever s av w d :
  Shape s -> Inv s ->
  availableWorkers s = av ++ [w] -> heap s !! w = Some (idle_worker true) ->
  availableWorkers (snd (runTask d s)) = av /\
  posted (snd (runTask d s)) = posted s ++ [(w, mkTask d (fst (runTask d s)))] /\
  forall evs, exists s', run evs (snd (runTask d s)) = Returns s' /\
    promise_status s' (fst (runTask d s)) = Some Pending.
Proof.
  intros HS HI Hav Hw.
  destruct (step_Inv (RunTask d) s HS HI) as (s2 & E2 & HS2 & HI2 & _).
  simpl in E2. injection E2 as Es2.
  rewrite (runTask_dispatch d s av w true Hav Hw) in *. simpl in *.
  split_and!; try done.
  intros evs.
  assert (heap s2 !! w = Some (busy_worker w (mkTask d (length (promises s))) true)) as Hw2.
  { rewrite <- Es2. simpl. apply list_lookup_insert_eq. by eapply lookup_lt_Some. }
  destruct (run_stuck evs s2 w (mkTask d (length (promises s))) _ HS2 HI2 Hw2)
    as (s3 & E3 & _ & _ & _ & Hp3); [done|by left|].
  rewrite Es2. exists s3. split; [done|]. unfold promise_status.
  simpl in Hp3. by rewrite Hp3.
Qed.


(** *** No task is lost *)

Lemma Owned_fresh script ps : Owned (fresh_pool (Data:=Data) script ps).
Proof. intros w t H. by apply elem_of_nil in H. Qed.

Lemma carries_busy s w t t' ex :
  heap s !! w = Some (busy_worker w t ex) -> carries s w t' -> t' = t.
Proof.
  intros Hw [[ex' H]|H]; rewrite Hw in H; by inversion H.
Qed.

Lemma carries_keep s s' w t :
  heap s' !! w = heap s !! w -> carries s w t -> carries s' w t.
Proof. intros E [[ex H]|H]; [left; exists ex|right]; by rewrite E. Qed.

Lemma Trans_Owned s s' : Inv s -> Owned s -> Trans s s' -> Owned s'.
Proof.
  intros HI HO HT.
  destruct HT as [|d Hav|d av w0 ex Hav Hw0 Hq|w0 t0 result Hw0|w0 err Hw0
                  |w0 t0 err Hw0|w0 o code Hw0 Hex| |Hen].
  - done.
  - intros w t H. simpl in *. destruct (HO w t H) as [Hb|(c & Hc & Hs)]; [by left|].
    right. exists c. split; [by apply lookup_app_l_Some|done].
  - intros w t H. unfold dispatched in *. simpl in *.
    apply elem_of_app in H as [H|H].
    + destruct (HO w t H) as [Hb|(c & Hc & Hs)].
      * left. apply (carries_keep s); [|done]. simpl.
        rewrite list_lookup_insert_ne; [done|].
        intros ->. destruct Hb as [[ex' Hb]|Hb]; rewrite Hw0 in Hb; discriminate Hb.
      * right. exists c. split; [by apply lookup_app_l_Some|done].
    + apply list_elem_of_singleton in H. inversion H; subst. left. left. exists ex.
      simpl. apply list_lookup_insert_eq. by eapply lookup_lt_Some.
  - destruct (inv_inflight s HI w0 t0 false Hw0) as [_ Hpt0].
    destruct (settle_with_on_promise result t0 (completed w0 s)) as (st & Hst & ->).
    pose proof (lookup_lt_Some _ _ _ Hw0) as Hlt.
    intros w t H. simpl in *. rewrite promises_completed.
    assert ((w, t) ∈ posted s \/ exists q, taskQueue s = t :: q /\ w = w0) as [Hold|(q & Hq & ->)].
    { unfold completed in H. destruct (taskQueue s) as [|n q]; simpl in H; [by left|].
      apply elem_of_app in H as [H|H]; [by left|].
      apply list_elem_of_singleton in H. inversion H; subst. right. eauto. }
    + destruct (HO w t Hold) as [Hb|(c & Hc & Hs)].
      * destruct (decide (w = w0)) as [->|Hne].
        -- rewrite (carries_busy s w0 t0 t false Hw0 Hb). right.
           exists (settle st unsettled). rewrite list_lookup_alter_eq, Hpt0. simpl.
           split; [done|]. by destruct st.
        -- left. apply (carries_keep s); [|done]. simpl. by rewrite completed_lookup_ne.
      * right. exists c. split; [|done]. rewrite list_lookup_alter_ne; [done|].
        intros E. rewrite <- E, Hpt0 in Hc. inversion Hc; subst. by apply Hs.
    + left. left. exists false. simpl. unfold completed. rewrite Hq. simpl.
      by apply list_lookup_insert_eq.
  - done.
  - destruct (inv_inflight s HI w0 t0 false Hw0) as [_ Hpt0].
    pose proof (lookup_lt_Some _ _ _ Hw0) as Hlt.
    intros w t H. simpl in *. rewrite promises_completed. simpl.
    assert ((w, t) ∈ posted s \/ exists q, taskQueue s = t :: q /\ w = w0) as [Hold|(q & Hq & ->)].
    { unfold completed in H. simpl in H. destruct (taskQueue s) as [|n q]; simpl in H; [by left|].
      apply elem_of_app in H as [H|H]; [by left|].
      apply list_elem_of_singleton in H. inversion H; subst. right. eauto. }
    + destruct (HO w t Hold) as [Hb|(c & Hc & Hs)].
      * destruct (decide (w = w0)) as [->|Hne].
        -- rewrite (carries_busy s w0 t0 t false Hw0 Hb). right.
           exists (settle (Rejected err) unsettled). rewrite list_lookup_alter_eq, Hpt0.
           simpl. done.
        -- left. apply (carries_keep s); [|done]. simpl. by rewrite completed_lookup_ne.
      * right. exists c. split; [|done]. rewrite list_lookup_alter_ne; [done|].
        intros E. rewrite <- E, Hpt0 in Hc. inversion Hc; subst. by apply Hs.
    + left. left. exists false. simpl. unfold completed. simpl. rewrite Hq. simpl.
      by apply list_lookup_insert_eq.
  - intros w t H. rewrite exit_logged_posted in H.
    unfold carries. rewrite exit_logged_heap, exit_logged_promises.
    simpl in *. destruct (HO w t H) as [Hb|(c & Hc & Hs)]; [|right; eauto].
    left. destruct (decide (w = w0)) as [->|Hne].
    + right. rewrite list_lookup_insert_eq by (by eapply lookup_lt_Some).
      destruct Hb as [[ex' Hb]|Hb]; rewrite Hw0 in Hb; by inversion Hb.
    + rewrite list_lookup_insert_ne by done. exact Hb.
  - done.
  - done.
Qed.

Lemma run_Owned evs s :
  Shape s -> Inv s -> Owned s ->
  exists s', run evs s = Returns s' /\ Shape s' /\ Inv s' /\ Owned s'.
Proof.
  revert s. induction evs as [|ev evs IH]; intros s HS HI HO; simpl.
  - eauto.
  - destruct (step_Trans ev s HS HI) as (s1 & -> & HS1 & HI1 & HT). simpl.
    apply IH; [done|done|]. by apply (Trans_Owned s s1).
Qed.

Lemma running_on_carries s w p :
  Shape s -> running_on s w p <-> exists t, carries s w t /\ promise t = p.
Proof.
  intros HS. split.
  - intros (o & w' & t & Hw & Hin & Hp).
    destruct (sh_heap s HS w o Hw) as [[ex ->]|[(t0 & ex & ->)|[t0 ->]]]; simpl in Hin.
    + apply list_elem_of_singleton in Hin. discriminate Hin.
    + apply elem_of_cons in Hin as [Hin|Hin]; [discriminate Hin|].
      apply list_elem_of_singleton in Hin. inversion Hin; subst.
      exists t0. split; [left; eauto|done].
    + apply elem_of_cons in Hin as [Hin|Hin]; [discriminate Hin|].
      apply list_elem_of_singleton in Hin. inversion Hin; subst.
      exists t0. split; [by right|done].
  - intros (t & [[ex Hw]|Hw] & Hp); eexists _, w, t; (split_and!; [exact Hw| |done]);
      simpl; apply elem_of_cons; right; by left.
Qed.

(** No task is lost or duplicated, for payloads that can be copied:
    along every run of the pool, every promise handed out by [runTask]
    belongs to a task that is in exactly one place: in the queue, with
    one worker, or settled.  A task in the first two places is
    pending. *)
Theorem every_task_has_one_owner
        (script : string) (size : option Z) (evs : list (Event Data)) :
  is_worker_path script = true ->
  exists s, scenario script size evs = Returns s /\
    forall p c, promises s !! p = Some c ->
      (queued s p \/ (exists w, running_on s w p) \/ settled s p) /\
      (queued s p -> status c = Pending /\ forall w, ~ running_on s w p) /\
      (forall w, running_on s w p ->
         status c = Pending /\ forall w', running_on s w' p -> w' = w) /\
      (settled s p -> ~ queued s p /\ forall w, ~ running_on s w p).
Proof.
  intros Hpath. unfold scenario. rewrite constructor_fresh by (by left). simpl.
  destruct (run_Owned evs (fresh_pool script (default 4%Z size)))
    as (s & E & HS & HI & HO); [apply Shape_fresh|apply Inv_fresh|apply Owned_fresh|].
  exists s. split; [done|]. intros p c Hp.
  pose proof (inv_order s HI) as Hord.
  assert (forall w, running_on s w p ->
            exists t, (w, t) ∈ posted s /\ promise t = p /\ c = unsettled) as Hrun.
  { intros w Hr. apply (running_on_carries s w p HS) in Hr as (t & Hc & <-).
    destruct (carries_inflight s w t HI Hc) as [H1 H2].
    exists t. split_and!; try done. rewrite H2 in Hp. by inversion Hp. }
  assert (queued s p -> c = unsettled) as Hqu.
  { intros (t & Ht & <-). rewrite (inv_queue s HI t Ht) in Hp. by inversion Hp. }
  assert (queued s p -> forall w, ~ running_on s w p) as Hqr.
  { intros (t & Ht & E1) w Hr. destruct (Hrun w Hr) as (t' & Ht' & E2 & _).
    apply (posted_not_queued s Hord w t' t Ht' Ht). congruence. }
  split_and!.
  - assert (p ∈ seq 0 (length (promises s))) as Hin.
    { apply elem_of_seq. apply lookup_lt_Some in Hp. lia. }
    rewrite <- Hord in Hin. apply elem_of_app in Hin as [Hin|Hin].
    + apply list_elem_of_fmap in Hin as ([w t] & -> & Hin). simpl in *.
      destruct (HO w t Hin) as [Hb|Hs].
      * right; left. exists w. apply (running_on_carries s w _ HS). eauto.
      * by right; right.
    + apply list_elem_of_fmap in Hin as (t & -> & Hin). left. by exists t.
  - intros Hq. split; [by rewrite (Hqu Hq)|by apply Hqr].
  - intros w Hr. destruct (Hrun w Hr) as (t & Ht & E1 & ->). split; [done|].
    intros w' Hr'. destruct (Hrun w' Hr') as (t' & Ht' & E2 & _).
    destruct (posted_inj s Hord w' t' w t Ht' Ht) as [-> _]; congruence.
  - intros (c' & Hc' & Hs). rewrite Hp in Hc'. inversion Hc'; subst c'. split.
    + intros Hq. rewrite (Hqu Hq) in Hs. by apply Hs.
    + intros w Hr. destruct (Hrun w Hr) as (_ & _ & _ & ->). by apply Hs.
Qed.

(** A worker that exits while it runs a task, for payloads that can be
    copied: the exit is only logged (and only for a non-zero code).  The
    pool keeps its lists and promises as they are; of the two closures of
    the task the runtime takes the message closure away and the error
    closure stays.  Through every later sequence of events the task stays
    pending and the worker stays as it is, out of the available list. *)
Theorem exit_strands_running_task
        (script : string) (size : option Z) (evs : list (Event Data))
        s w o t (code : Z) :
  scenario script size evs = Returns s ->
  heap s !! w = Some o -> exited o = false ->
  OnceMessageHandler w t ∈ message_listeners o ->
  exists s1, step (WorkerExit w code) s = Returns s1 /\
    workers s1 = workers s /\ availableWorkers s1 = availableWorkers s /\
    taskQueue s1 = taskQueue s /\ promises s1 = promises s /\
    posted s1 = posted s /\
    console s1 = console s ++ (if Z.eqb code 0 then [] else [LogWorkerExit code]) /\
    forall evs', exists s2, run evs' s1 = Returns s2 /\
      promise_status s2 (promise t) = Some Pending /\
      heap s2 !! w = Some (stranded_worker w t) /\
      (w ∉ idle s2).
Proof.
  intros Hs Hw Hex Hin. destruct (scenario_unique _ _ _ _ Hs) as [HS HI].
  pose proof (message_closure_shape s w o t HS Hw Hex Hin) as ->.
  destruct (step_Inv (WorkerExit w code) s HS HI) as (s1 & E & _).
  destruct (exit_step_keeps s w _ code s1 HS HI Hw Hex E)
    as (HS1 & HI1 & Ews & Eav & Eq & Epr & Epo & Eco & Hw1).
  exists s1. split_and!; try done.
  intros evs'. by apply stranded_forever.
Qed.

(** A worker that exits while it is idle stays in the available list,
    for payloads that can be copied: the next submission is popped onto
    it and sent to it, and the promise of that submission stays pending
    through every later sequence of events. *)
Theorem exited_idle_worker_is_still_used
        (script : string) (size : option Z) (evs : list (Event Data))
        s av w o (code : Z) (d : Data) :
  scenario script size evs = Returns s ->
  availableWorkers s = av ++ [w] ->
  heap s !! w = Some o -> exited o = false ->
  exists s1, step (WorkerExit w code) s = Returns s1 /\
    availableWorkers s1 = av ++ [w] /\
    let p := fst (runTask d s1) in
    let s2 := snd (runTask d s1) in
    availableWorkers s2 = av /\
    posted s2 = posted s1 ++ [(w, mkTask d p)] /\
    forall evs', exists s3, run evs' s2 = Returns s3 /\
      promise_status s3 p = Some Pending.
Proof.
  intros Hs Hav Hw Hex. destruct (scenario_unique _ _ _ _ Hs) as [HS HI].
  destruct (sh_avail_idle s HS w) as [ex Hidle].
  { rewrite Hav. apply elem_of_app. right. by apply list_elem_of_singleton. }
  rewrite Hw in Hidle. inversion Hidle; subst o. simpl in Hex. subst ex.
  destruct (step_Inv (WorkerExit w code) s HS HI) as (s1 & E & _).
  destruct (exit_step_keeps s w _ code s1 HS HI Hw eq_refl E)
    as (HS1 & HI1 & Ews & Eav & Eq & Epr & Epo & Eco & Hw1).
  exists s1. split_and!; [done|by rewrite Eav|]. cbv zeta.
  apply dead_dispatch_forever; try done. by rewrite Eav.
Qed.

(** A completed [terminate] strands the work that is outstanding, for
    payloads that can be copied: from then on, through every sequence of
    events, no payload is sent to a worker and no promise changes, so
    every task that was queued or with a worker stays pending, without
    being rejected. *)
Theorem terminate_strands_outstanding_work
        (script : string) (size : option Z) (evs : list (Event Data)) s :
  scenario script size evs = Returns s ->
  resume_enabled s = true ->
  exists s0, step TerminateResume s = Returns s0 /\
    promises s0 = promises s /\ taskQueue s0 = taskQueue s /\
    forall evs', exists s', run evs' s0 = Returns s' /\
      posted s' = posted s0 /\
      (forall p c, promises s0 !! p = Some c -> promises s' !! p = Some c) /\
      (forall p, queued s0 p \/ (exists w, running_on s0 w p) ->
         promise_status s' p = Some Pending).
Proof.
  intros Hs Hen. destruct (scenario_unique _ _ _ _ Hs) as [HS HI].
  destruct (step_Inv TerminateResume s HS HI) as (s0 & E0 & HS0 & HI0 & _).
  simpl in E0. rewrite Hen in E0. injection E0 as Es0.
  pose proof (resume_Dead s HS Hen) as HD0. rewrite Es0 in HD0.
  exists s0. split; [simpl; by rewrite Hen, Es0|].
  split_and!; try (by rewrite <- Es0).
  intros evs'. destruct (run_Dead evs' _ HD0) as (s' & E & _ & Hpr).
  exists s'. split_and!; try done.
  - by eapply run_Dead_posted.
  - intros p [(t & Ht & <-)|[w Hr]].
    + unfold promise_status. by rewrite (Hpr _ _ (inv_queue _ HI0 t Ht)).
    + apply (running_on_carries s0 w p HS0) in Hr as (t & Hc & <-).
      destruct (carries_inflight s0 w t HI0 Hc) as [_ Hp].
      unfold promise_status. by rewrite (Hpr _ _ Hp).
Qed.

(** The listener of [createWorker] is on every worker: for payloads that
    can be copied, along every run of the pool, an ['error'] event of a
    worker that has not exited is never thrown as unhandled and is logged
    exactly once; on a worker without a task it changes nothing else. *)
Theorem worker_errors_are_logged
        (script : string) (size : option Z) (evs : list (Event Data))
        s w o (err : JsError) :
  scenario script size evs = Returns s ->
  heap s !! w = Some o -> exited o = false ->
  exists s', step (WorkerError w err) s = Returns s' /\
    console s' = console s ++ [LogWorkerError err] /\
    OnWorkerError ∈ error_listeners o /\
    (is_busy o = false ->
       workers s' = workers s /\ availableWorkers s' = availableWorkers s /\
       taskQueue s' = taskQueue s /\ heap s' = heap s /\
       promises s' = promises s /\ posted s' = posted s).
Proof.
  intros Hs Hw Hex. destruct (scenario_unique _ _ _ _ Hs) as [HS HI].
  destruct (sh_heap s HS w o Hw) as [[ex ->]|[(t & ex & ->)|[t ->]]];
    simpl in Hex; subst; try discriminate Hex; simpl.
  - rewrite (emit_error_idle s w err Hw). eexists. split; [done|].
    split_and!; try done. by left.
  - rewrite (emit_error_busy s w t err Hw). eexists. split; [done|].
    split_and!; try done.
    + simpl. by rewrite console_completed.
    + by left.
Qed.
End Cloneable.

(** ** The unchecked [pop()] *)

Lemma executeTask_throws t s e s' :
  executeTask t s = Throws e s' ->
  (availableWorkers s = [] /\ e = once_of_undefined) \/
  (availableWorkers s <> [] /\ exists m, e = DataCloneError m).
Proof.
  intros H. destruct (availableWorkers s) as [|a av] eqn:Hav.
  - left. rewrite (executeTask_empty t s Hav) in H. by injection H as <- _.
  - right. split; [done|].
    destruct (nonempty_snoc (a :: av)) as (av' & w & Hsn); [done|].
    unfold executeTask, postMessage in H. rewrite Hav, Hsn, pop_snoc in H.
    match type of H with
    | match ?c with _ => _ end = _ => destruct c as [m|]; [|discriminate H]
    end.
    injection H as <- _. eauto.
Qed.

Lemma next_in_queue_throws s e s' :
  availableWorkers s <> [] -> next_in_queue s = Throws e s' ->
  exists m, e = DataCloneError m.
Proof.
  intros Hav H. unfold next_in_queue in H.
  destruct (taskQueue s) as [|n q] eqn:Hq; simpl in H; [discriminate H|].
  apply executeTask_throws in H as [[Hnil _]|[_ H]]; [|done].
  unfold_ops. by rewrite Hnil in Hav.
Qed.

Lemma messageHandler_throws w t result s e s' :
  messageHandler w t result s = Throws e s' -> exists m, e = DataCloneError m.
Proof.
  unfold messageHandler. intros H.
  match type of H with
  | bind (next_in_queue ?x) _ = _ => destruct (next_in_queue x) as [s1|e1 s1] eqn:E
  end.
  - simpl in H. by destruct (success result).
  - simpl in H. injection H as <- _.
    apply next_in_queue_throws in E; [done|].
    unfold_ops. by destruct (availableWorkers s).
Qed.

Lemma errorHandler_throws w t err s e s' :
  errorHandler w t err s = Throws e s' -> exists m, e = DataCloneError m.
Proof.
  unfold errorHandler. intros H.
  match type of H with
  | bind (next_in_queue ?x) _ = _ => destruct (next_in_queue x) as [s1|e1 s1] eqn:E
  end.
  - simpl in H. discriminate H.
  - simpl in H. injection H as <- _.
    apply next_in_queue_throws in E; [done|].
    unfold_ops. by destruct (availableWorkers s).
Qed.

Lemma runTask_executor_throws t s e s' :
  runTask_executor t s = Throws e s' -> exists m, e = DataCloneError m.
Proof.
  unfold runTask_executor. intros H.
  destruct (availableWorkers s) as [|a av] eqn:Hav; simpl in H; [discriminate H|].
  apply executeTask_throws in H as [[Hnil _]|[_ H]]; [|done].
  by rewrite Hnil in Hav.
Qed.

(** C9: in every state, [executeTask] throws the [TypeError] of
    [undefined.once] exactly when the available list is empty, that is
    when [pop()] yields [undefined]; none of its three call sites, the
    executor of [runTask] and the two completion closures, can meet
    that: the only exception that leaves them is the [DataCloneError] of
    [postMessage]; and for payloads that can be copied [executeTask]
    throws exactly when the available list is empty, and the three call
    sites return normally. *)
Theorem executeTask_pop_is_guarded s :
  (forall t, (exists s', executeTask t s = Throws once_of_undefined s')
             <-> availableWorkers s = []) /\
  (forall t e s', runTask_executor t s = Throws e s' -> exists m, e = DataCloneError m) /\
  (forall w t result e s',
     messageHandler w t result s = Throws e s' -> exists m, e = DataCloneError m) /\
  (forall w t err e s',
     errorHandler w t err s = Throws e s' -> exists m, e = DataCloneError m) /\
  ((forall d : Data, clone_error d = None) ->
   (forall t, (exists e s', executeTask t s = Throws e s') <-> availableWorkers s = []) /\
   (forall t, (exists s', executeTask t s = Returns s') <-> availableWorkers s <> []) /\
   (forall t, exists s', runTask_executor t s = Returns s') /\
   (forall w t result, exists s', messageHandler w t result s = Returns s') /\
   (forall w t err, exists s', errorHandler w t err s = Returns s')).
Proof.
  split_and!.
  - intros t. split.
    + intros (s' & H). apply executeTask_throws in H as [[H _]|[_ (m & H)]]; [done|].
      discriminate H.
    + intros Hav. rewrite (executeTask_empty t s Hav). eauto.
  - intros t e s'. apply runTask_executor_throws.
  - intros w t result e s'. apply messageHandler_throws.
  - intros w t err e s'. apply errorHandler_throws.
  - intros all_clone. apply (pop_guarded_when_cloneable all_clone).
Qed.

End PoolFacts.

(** * Facts about the worker unit *)

Section UnitFacts.

Context {Payload : Type}.
Variable simulateHeavyEncryption : nat -> option Thrown.

#[local] Abbreviation on_message := (CryptoWorker.on_message (Payload:=Payload) simulateHeavyEncryption).
#[local] Abbreviation deliver := (CryptoWorker.deliver (Payload:=Payload) simulateHeavyEncryption).
#[local] Abbreviation deliver_all := (CryptoWorker.deliver_all (Payload:=Payload) simulateHeavyEncryption).
#[local] Abbreviation reply := (CryptoWorker.reply simulateHeavyEncryption).

Lemma on_message_posts_once (d : Payload) (u : CryptoWorker.UnitState) :
  on_message d u
  = (None, CryptoWorker.mkUnit (CryptoWorker.listening u) (S (CryptoWorker.calls u))
             (CryptoWorker.outbox u ++ [reply (CryptoWorker.calls u)])
             (CryptoWorker.crashed u)).
Proof.
  unfold CryptoWorker.on_message, CryptoWorker.try_block, CryptoWorker.catch_block,
    CryptoWorker.call_handler, CryptoWorker.reply.
  by destruct (simulateHeavyEncryption (CryptoWorker.calls u)).
Qed.

Lemma deliver_all_running (ds : list Payload) (u : CryptoWorker.UnitState) :
  CryptoWorker.listening u = true -> CryptoWorker.crashed u = false ->
  deliver_all ds u
  = CryptoWorker.mkUnit true (CryptoWorker.calls u + length ds)
      (CryptoWorker.outbox u ++ (reply <$> seq (CryptoWorker.calls u) (length ds)))
      false.
Proof.
  revert u. induction ds as [|d ds IH]; intros [l c o cr] Hl Hc; simpl in *; subst.
  - by rewrite Nat.add_0_r, app_nil_r.
  - unfold CryptoWorker.deliver_all in *. simpl.
    unfold CryptoWorker.deliver at 2. simpl. rewrite on_message_posts_once. simpl.
    rewrite IH by done. simpl. rewrite <- app_assoc. simpl.
    f_equal. lia.
Qed.

(** C8: started as a worker thread, the unit answers every payload it
    receives with exactly one message, in order, and keeps listening:
    no exception leaves its listener.  The message for a payload is
    [{success: true, message: ...}] when the handler returned, and
    [{success: false, error: description}] when it threw, the description
    being the message of a thrown [Error] and ['Unknown error']
    otherwise. *)
Theorem worker_unit_replies_once_per_payload (ds : list Payload) :
  let u := deliver_all ds (CryptoWorker.main true) in
  CryptoWorker.crashed u = false /\
  CryptoWorker.listening u = true /\
  CryptoWorker.calls u = length ds /\
  length (CryptoWorker.outbox u) = length ds /\
  (forall i m, CryptoWorker.outbox u !! i = Some m ->
     match simulateHeavyEncryption i with
     | None => m = mkResult true (Some "Vitals encrypted successfully") None
     | Some (ThrownError e) => m = mkResult false None (Some (error_message e))
     | Some ThrownOther => m = mkResult false None (Some "Unknown error")
     end) /\
  (forall d,
     CryptoWorker.outbox (deliver u d)
     = CryptoWorker.outbox u ++ [reply (length ds)]).
Proof.
  cbv zeta. rewrite deliver_all_running by done. simpl.
  split_and!; try done.
  - by rewrite length_fmap, length_seq.
  - intros i m H. rewrite list_lookup_fmap in H.
    destruct (seq 0 (length ds) !! i) as [j|] eqn:E; [|done].
    apply lookup_seq in E as [-> _]. simpl in H. inversion H.
    unfold CryptoWorker.reply. simpl.
    destruct (simulateHeavyEncryption i) as [[e|]|]; done.
  - intros d. unfold CryptoWorker.deliver. simpl.
    by rewrite on_message_posts_once.
Qed.

End UnitFacts.

(** * Facts about the routes *)

Section RoutesFacts.

Import Routes.

Context {Patient : Type}.
Implicit Types (db : Db Patient) (q : Request) (h : Handler Patient).

Lemma select_count_update (item : string) db :
  select_count item (update_decrement item db)
  = (fun n => n - 1)%Z <$> select_count item db.
Proof.
  unfold select_count, update_decrement. simpl.
  induction (inventory db) as [|r l IH]; [done|].
  rewrite fmap_cons, !filter_cons.
  destruct (is_item item r) eqn:E.
  - assert (is_item item (mkInventoryRow (item_name r) (count r - 1)) = true) as E'.
    { unfold is_item in *. done. }
    repeat case_decide; try congruence. simpl. f_equal. exact IH.
  - repeat case_decide; try congruence.
Qed.

Lemma stock_update db :
  stock (update_decrement batch db) = (fun n => n - 1)%Z <$> stock db.
Proof.
  unfold stock. rewrite select_count_update.
  by destruct (select_count batch db).
Qed.

Lemma stock_insert (p : Patient) (st : string) db :
  stock (insert_reservation p st db) = stock db.
Proof. done. Qed.

Lemma stock_Some db n :
  stock db = Some n -> exists l, select_count batch db = n :: l.
Proof.
  unfold stock. destruct (select_count batch db) as [|m l]; [done|].
  intros [= ->]. eauto.
Qed.

Lemma stock_None db : stock db = None -> select_count batch db = [].
Proof. unfold stock. by destruct (select_count batch db). Qed.

(** *** One response per request *)

Lemma handler_step_well_formed h (o : option JsError) q db :
  well_formed q -> well_formed (fst (handler_step h o q db)).
Proof.
  destruct q as [l cl se lo].
  destruct h as [|p]; simpl;
    unfold hospital_status_step, reserve_dose_step, connect_step, end_step,
      catch, finally, well_formed; simpl;
    destruct l, o; simpl; intros [? ?] || intros ?; subst; simpl;
    repeat (match goal with
            | |- context [match ?x with _ => _ end] => destruct x eqn:?; simpl
            end);
    simpl; rewrite ?length_app; simpl; try done; try (split; done).
Qed.

Lemma server_step_well_formed (sv : Server Patient) (ev : ServerEvent Patient) :
  Forall (fun hq => well_formed (snd hq)) (requests sv) ->
  Forall (fun hq => well_formed (snd hq)) (requests (server_step sv ev)).
Proof.
  intros Hwf. destruct ev as [h|i o]; simpl.
  - apply Forall_app. split; [done|]. apply Forall_singleton. by split.
  - destruct (requests sv !! i) as [[h q]|] eqn:Hi; [|done].
    destruct (handler_step h o q (db sv)) as [q' db'] eqn:Hstep. simpl.
    apply Forall_insert; [done|]. simpl.
    replace q' with (fst (handler_step h o q (db sv))) by (by rewrite Hstep).
    apply handler_step_well_formed.
    by apply (Forall_lookup_1 _ _ _ _ Hwf Hi).
Qed.

Lemma server_run_well_formed (evs : list (ServerEvent Patient)) (sv : Server Patient) :
  Forall (fun hq => well_formed (snd hq)) (requests sv) ->
  Forall (fun hq => well_formed (snd hq)) (requests (server_run evs sv)).
Proof.
  revert sv. induction evs as [|ev evs IH]; intros sv Hwf; [done|].
  simpl. apply IH. by apply server_step_well_formed.
Qed.

(** Along every interleaving of the database routes and whatever
    database calls fail, no request is answered twice; a request whose
    handler has finished was answered exactly once and its client was
    ended; a request that was answered no longer uses the database except
    to end its client. *)
Theorem every_request_is_answered_once
        (db0 : Db Patient) (evs : list (ServerEvent Patient)) :
  Forall (fun hq : Handler Patient * Request =>
            let q := snd hq in
            length (sent q) <= 1 /\
            (pc q = Finished -> length (sent q) = 1 /\ client q = false) /\
            (sent q <> [] -> pc q = AwaitEnd \/ pc q = Finished \/ pc q = Escaped) /\
            (client q = true ->
               pc q = AwaitSelect \/ pc q = AwaitUpdate \/ pc q = AwaitInsert \/
               pc q = AwaitEnd \/ pc q = Escaped))
         (requests (server_run evs (mkServer db0 []))).
Proof.
  eapply Forall_impl; [apply server_run_well_formed; by apply Forall_nil|].
  intros [h [l cl se lo]]. unfold well_formed. simpl.
  destruct l; simpl; intros H; destruct_and?; subst; simpl;
    split_and!; try done; try lia; try (intros _; by eauto 6); try (by eauto 6).
Qed.

(** *** Requests served one after the other *)

Ltac unfold_step :=
  unfold handler_step, hospital_status_step, reserve_dose_step, connect_step,
    end_step, catch, finally, was_reserved; simpl.

Lemma was_reserved_send (r : Response) q :
  sent q = [] -> was_reserved (send r q) = is_reserved r.
Proof. intros H. unfold was_reserved, send. simpl. rewrite H. simpl. by rewrite orb_false_r. Qed.

Lemma handler_step_within h (o : option JsError) q db n rs :
  within_request h n rs q db ->
  within_request h n rs (fst (handler_step h o q db)) (snd (handler_step h o q db)).
Proof.
  destruct q as [l cl se lo]. unfold within_request. simpl.
  destruct l; simpl; intros H; destruct_and?; subst; try done.
  - (* AwaitConnect *)
    destruct h, o, cl; unfold_step; auto 10.
  - (* AwaitSelect *)
    match goal with H : stock db = Some n |- _ =>
      destruct (stock_Some db n H) as [l El] end.
    destruct h, o, cl; unfold_step; rewrite ?El; simpl;
      try destruct (n <=? 0)%Z eqn:En; simpl; unfold was_reserved; simpl;
      try apply Z.leb_gt in En; auto 10.
  - (* AwaitUpdate *)
    destruct h, o, cl; unfold_step;
      rewrite ?stock_update; try match goal with H : stock db = Some n |- _ =>
        rewrite ?H end; simpl; auto 10.
  - (* AwaitInsert *)
    destruct h, o, cl; unfold_step; unfold confirmed, was_reserved; simpl; auto 10.
  - (* AwaitEnd *)
    destruct h, o; unfold_step; unfold confirmed, was_reserved in *; simpl in *; done.
  - destruct h; done.
  - destruct h; done.
Qed.

Lemma run_request_within h (os : list (option JsError)) q db n rs :
  within_request h n rs q db ->
  within_request h n rs (fst (run_request h os q db)) (snd (run_request h os q db)).
Proof.
  unfold run_request. revert q db. induction os as [|o os IH]; intros q db H; [done|].
  simpl. destruct (handler_step h o q db) as [q1 db1] eqn:E. apply IH.
  replace q1 with (fst (handler_step h o q db)) by (by rewrite E).
  replace db1 with (snd (handler_step h o q db)) by (by rewrite E).
  by apply handler_step_within.
Qed.

Lemma handler_step_now h (o : option JsError) q db :
  now (snd (handler_step h o q db)) = now db.
Proof.
  destruct h; simpl; unfold hospital_status_step, reserve_dose_step;
    destruct (pc q), o; simpl; try done;
    repeat (match goal with
            | |- context [match ?x with _ => _ end] => destruct x; simpl
            end); done.
Qed.

Lemma run_request_now h (os : list (option JsError)) q db :
  now (snd (run_request h os q db)) = now db.
Proof.
  unfold run_request. revert q db. induction os as [|o os IH]; intros q db; [done|].
  simpl. destruct (handler_step h o q db) as [q1 db1] eqn:E.
  rewrite IH. replace db1 with (snd (handler_step h o q db)) by (by rewrite E).
  apply handler_step_now.
Qed.

Lemma run_request_stock h (os : list (option JsError)) db n :
  stock db = Some n -> (0 <= n)%Z ->
  exists n', stock (snd (run_request h os arrived db)) = Some n' /\ (0 <= n')%Z /\
    (n' <= n)%Z /\
    reservations (snd (run_request h os arrived db))
    = reservations db ++ confirmed (now db) [(h, fst (run_request h os arrived db))] /\
    length (confirmed (now db) [(h, fst (run_request h os arrived db))])
    = (if was_reserved (fst (run_request h os arrived db)) then 1 else 0) /\
    ((if was_reserved (fst (run_request h os arrived db)) then 1 else 0) <= n - n')%Z.
Proof.
  intros Hn Hpos.
  pose proof (run_request_within h os arrived db n (reservations db)) as H.
  pose proof (run_request_now h os arrived db) as Hnow.
  destruct (run_request h os arrived db) as [q db']. cbn [fst snd] in *.
  assert (within_request h n (reservations db) arrived db) as H0 by done.
  specialize (H H0). unfold within_request in H. rewrite Hnow in H. clear H0.
  assert (was_reserved q = false -> confirmed (now db) [(h, q)] = []) as Hno.
  { intros E. unfold confirmed. simpl. rewrite E. by destruct h. }
  assert (sent q = [] -> was_reserved q = false) as Hsent.
  { intros E. unfold was_reserved. by rewrite E. }
  assert ((was_reserved q = true /\ stock db' = Some (n - 1)%Z /\ (0 < n)%Z /\
           reservations db' = reservations db ++ confirmed (now db) [(h, q)] /\
           length (confirmed (now db) [(h, q)]) = 1) \/
          (was_reserved q = false /\ reservations db' = reservations db /\
           (stock db' = Some n \/ (stock db' = Some (n - 1)%Z /\ (0 < n)%Z))))
    as [(Hr & Hst & Hlt & Hrs & Hlen)|(Hr & Hrs & Hst)].
  { destruct (pc q); try done; destruct_and?; right; split_and!; auto. }
  - rewrite Hr, Hlen. exists (n - 1)%Z. split_and!; try done; lia.
  - rewrite (Hno Hr), Hr, app_nil_r.
    destruct Hst as [Hst|[Hst Hlt]]; eexists; (split; [exact Hst|]);
      split_and!; try done; simpl; lia.
Qed.

Lemma serve_from (reqs : list (Handler Patient * list (option JsError)))
      (done0 : list (Handler Patient * Request)) db :
  foldl (fun '(done, db) '(h, os) =>
           let '(q, db') := run_request h os arrived db in
           (done ++ [(h, q)], db'))
        (done0, db) reqs
  = (done0 ++ fst (serve reqs db), snd (serve reqs db)).
Proof.
  unfold serve. revert done0 db. induction reqs as [|[h os] reqs IH]; intros done0 db.
  - simpl. by rewrite app_nil_r.
  - simpl. destruct (run_request h os arrived db) as [q db1]. simpl.
    rewrite (IH (done0 ++ [(h, q)])), (IH [(h, q)]). simpl.
    by rewrite <- app_assoc.
Qed.

Lemma serve_cons h os (reqs : list (Handler Patient * list (option JsError))) db :
  serve ((h, os) :: reqs) db
  = ((h, fst (run_request h os arrived db))
       :: fst (serve reqs (snd (run_request h os arrived db))),
     snd (serve reqs (snd (run_request h os arrived db)))).
Proof.
  unfold serve at 1. simpl. destruct (run_request h os arrived db) as [q db1].
  simpl. by rewrite serve_from.
Qed.

Lemma reserved_cons h q (done : list (Handler Patient * Request)) :
  reserved ((h, q) :: done) = (if was_reserved q then 1 else 0) + reserved done.
Proof.
  unfold reserved, was_reserved. rewrite filter_cons. simpl.
  destruct (existsb is_reserved (sent q)); by case_decide.
Qed.

Lemma confirmed_cons (ts : Z) h q (done : list (Handler Patient * Request)) :
  confirmed ts ((h, q) :: done) = confirmed ts [(h, q)] ++ confirmed ts done.
Proof. unfold confirmed. simpl. by destruct h; [|destruct (was_reserved q)]. Qed.

(** Served one after the other, whatever the mix of routes and whatever
    database calls fail, requests never take the stock below zero, and
    the rows added to [reservations] are exactly the rows of the requests
    answered "Dose reserved": one [CONFIRMED] row per such request, in
    the order of the requests and with the patient of the request.  At
    least that many doses were deducted. *)
Theorem serial_requests_never_oversell
        (reqs : list (Handler Patient * list (option JsError))) db (n : Z) :
  stock db = Some n -> (0 <= n)%Z ->
  exists n', stock (snd (serve reqs db)) = Some n' /\
    (0 <= n')%Z /\ (n' <= n)%Z /\
    reservations (snd (serve reqs db))
    = reservations db ++ confirmed (now db) (fst (serve reqs db)) /\
    length (confirmed (now db) (fst (serve reqs db))) = reserved (fst (serve reqs db)) /\
    (Z.of_nat (reserved (fst (serve reqs db))) <= n - n')%Z.
Proof.
  revert db n. induction reqs as [|[h os] reqs IH]; intros db n Hn Hpos.
  - exists n. simpl. rewrite app_nil_r. split_and!; try done; try lia.
    unfold reserved. simpl. lia.
  - rewrite serve_cons. cbn [fst snd].
    destruct (run_request_stock h os db n Hn Hpos)
      as (n1 & H1 & Hpos1 & Hle1 & Hr1 & Hl1 & Hd1).
    destruct (IH _ n1 H1 Hpos1) as (n' & H' & Hpos' & Hle' & Hr' & Hl' & Hd').
    rewrite run_request_now in Hr', Hl'.
    exists n'. rewrite reserved_cons, confirmed_cons, Hr', Hr1, length_app, Hl', Hl1.
    rewrite <- app_assoc.
    split_and!; try done; try lia.
    destruct (was_reserved _); lia.
Qed.

(** *** One request without failures, and after its response *)

Lemma run_request_cons h (o : option JsError) os q db :
  run_request h (o :: os) q db
  = run_request h os (fst (handler_step h o q db)) (snd (handler_step h o q db)).
Proof. unfold run_request. simpl. by destruct (handler_step h o q db). Qed.

Lemma run_request_nil h q db : run_request h [] q db = (q, db).
Proof. done. Qed.

Lemma select_in_stock (p : Patient) db n cl lo :
  stock db = Some n -> (0 < n)%Z ->
  reserve_dose_step p None (mkRequest AwaitSelect cl [] lo) db
  = (mkRequest AwaitUpdate cl [] lo, db).
Proof.
  intros Hn Hpos. destruct (stock_Some db n Hn) as [l El].
  unfold reserve_dose_step. simpl. rewrite El.
  by replace (n <=? 0)%Z with false by (symmetry; apply Z.leb_gt; lia).
Qed.

Lemma select_out_of_stock (p : Patient) db n lo :
  stock db = Some n -> (n <= 0)%Z ->
  reserve_dose_step p None (mkRequest AwaitSelect true [] lo) db
  = (mkRequest AwaitEnd true [no_doses] lo, db).
Proof.
  intros Hn Hpos. destruct (stock_Some db n Hn) as [l El].
  unfold reserve_dose_step. simpl. rewrite El.
  by replace (n <=? 0)%Z with true by (symmetry; apply Z.leb_le; lia).
Qed.

Lemma reserve_dose_succeeds (p : Patient) db n :
  stock db = Some n -> (0 < n)%Z ->
  run_request (ReserveDose p) (replicate 5 None) arrived db
  = (answered dose_reserved [],
     insert_reservation p "CONFIRMED" (update_decrement batch db)).
Proof.
  intros Hn Hpos. simpl replicate.
  rewrite run_request_cons. simpl.
  rewrite run_request_cons. unfold handler_step.
  change (goto AwaitSelect (set_client true arrived)) with (mkRequest AwaitSelect true [] []).
  rewrite (select_in_stock p db n) by done. simpl.
  by rewrite !run_request_cons.
Qed.

Lemma reserve_dose_refused (p : Patient) db n :
  stock db = Some n -> (n <= 0)%Z ->
  run_request (ReserveDose p) (replicate 5 None) arrived db
  = (answered no_doses [], db).
Proof.
  intros Hn Hpos. simpl replicate.
  rewrite run_request_cons. simpl.
  rewrite run_request_cons. unfold handler_step.
  change (goto AwaitSelect (set_client true arrived)) with (mkRequest AwaitSelect true [] []).
  rewrite (select_out_of_stock p db n) by done. simpl.
  by rewrite !run_request_cons.
Qed.

Lemma run_request_app h (os1 os2 : list (option JsError)) q db :
  run_request h (os1 ++ os2) q db
  = run_request h os2 (fst (run_request h os1 q db)) (snd (run_request h os1 q db)).
Proof.
  unfold run_request. rewrite foldl_app.
  by destruct (foldl _ (q, db) os1).
Qed.

Lemma handler_step_answered h (o : option JsError) q db :
  pc q = AwaitEnd \/ pc q = Finished \/ pc q = Escaped ->
  (pc (fst (handler_step h o q db)) = AwaitEnd \/
   pc (fst (handler_step h o q db)) = Finished \/
   pc (fst (handler_step h o q db)) = Escaped) /\
  sent (fst (handler_step h o q db)) = sent q /\
  logged (fst (handler_step h o q db)) = logged q /\
  snd (handler_step h o q db) = db.
Proof.
  destruct q as [l cl se lo]. simpl.
  intros [-> | [-> | ->]]; destruct h, o; unfold_step; auto.
Qed.

Lemma run_request_answered h (os : list (option JsError)) q db :
  pc q = AwaitEnd \/ pc q = Finished \/ pc q = Escaped ->
  sent (fst (run_request h os q db)) = sent q /\
  logged (fst (run_request h os q db)) = logged q /\
  snd (run_request h os q db) = db.
Proof.
  revert q db. induction os as [|o os IH]; intros q db Hq; [done|].
  rewrite run_request_cons.
  destruct (handler_step_answered h o q db Hq) as (Hpc & Hs & Hl & Hd).
  destruct (IH _ (snd (handler_step h o q db)) Hpc) as (Hs' & Hl' & Hd').
  rewrite Hs', Hl', Hd'. done.
Qed.

(** Reservations served one after the other, without failures, sell
    exactly the stock: with [n] doses, the first [n] requests are answered
    "Dose reserved" and get their row in [reservations], in order, every
    later one is answered 400 "No doses available", and the stock ends at
    [n] minus the number of requests, or at 0. *)
Theorem serial_reservations_sell_the_stock (ps : list Patient) db (n : Z) :
  stock db = Some n -> (0 <= n)%Z ->
  let out := serve ((fun p => (ReserveDose p, replicate 5 None)) <$> ps) db in
  stock (snd out) = Some (Z.max 0 (n - Z.of_nat (length ps))) /\
  reservations (snd out)
  = reservations db
    ++ ((fun p => mkReservationRow p "CONFIRMED" (now db)) <$> take (Z.to_nat n) ps) /\
  (fun hq => snd hq) <$> fst out
  = replicate (Nat.min (Z.to_nat n) (length ps)) (answered dose_reserved [])
    ++ replicate (length ps - Z.to_nat n) (answered no_doses []).
Proof.
  cbv zeta. revert db n. induction ps as [|p ps IH]; intros db n Hn Hpos.
  - simpl. rewrite take_nil, Nat.min_0_r. simpl. rewrite app_nil_r.
    split_and!; try done. rewrite Hn. f_equal. lia.
  - rewrite fmap_cons, serve_cons.
    destruct (decide (0 < n)%Z) as [Hlt|Hge].
    + rewrite (reserve_dose_succeeds p db n) by done. cbn [fst snd].
      destruct (IH (insert_reservation p "CONFIRMED" (update_decrement batch db))
                   (n - 1)%Z) as (H1 & H2 & H3).
      { by rewrite stock_insert, stock_update, Hn. }
      { lia. }
      rewrite H1, H2, fmap_cons, H3. simpl length.
      replace (Z.to_nat n) with (S (Z.to_nat (n - 1))) by lia.
      simpl. rewrite <- app_assoc. simpl.
      split_and!; try done. f_equal. lia.
    + assert (n = 0%Z) as -> by lia.
      rewrite (reserve_dose_refused p db 0) by done. cbn [fst snd].
      destruct (IH db 0%Z) as (H1 & H2 & H3); [done|done|].
      rewrite H1, H2, fmap_cons, H3. simpl.
      rewrite Nat.sub_0_r. split_and!; try done. f_equal. lia.
Qed.

(** No rollback: when the [INSERT] of a reservation fails after the
    [UPDATE] went through, the request is answered 500 and the failure is
    logged, yet the dose stays deducted and no reservation exists.  When
    the [UPDATE] itself fails, the database is left as it was. *)
Theorem failed_insert_keeps_the_deduction
        (p : Patient) db (n : Z) (e : JsError) (os : list (option JsError)) :
  stock db = Some n -> (0 < n)%Z ->
  (let out := run_request (ReserveDose p) ([None; None; None; Some e] ++ os) arrived db in
   sent (fst out) = [server_error] /\ logged (fst out) = [e] /\
   stock (snd out) = Some (n - 1)%Z /\
   reservations (snd out) = reservations db) /\
  (let out := run_request (ReserveDose p) ([None; None; Some e] ++ os) arrived db in
   sent (fst out) = [server_error] /\ logged (fst out) = [e] /\
   snd out = db).
Proof.
  intros Hn Hpos. split; cbv zeta; rewrite run_request_app.
  - assert (run_request (ReserveDose p) [None; None; None; Some e] arrived db
            = (mkRequest AwaitEnd true [server_error] [e], update_decrement batch db)) as ->.
    { rewrite run_request_cons. simpl. rewrite run_request_cons. unfold handler_step.
      change (goto AwaitSelect (set_client true arrived))
        with (mkRequest AwaitSelect true [] []).
      rewrite (select_in_stock p db n) by done. simpl.
      by rewrite !run_request_cons. }
    simpl fst. simpl snd.
    destruct (run_request_answered (ReserveDose p) os
                (mkRequest AwaitEnd true [server_error] [e]) (update_decrement batch db))
      as (-> & -> & ->); [by left|].
    split_and!; try done. by rewrite stock_update, Hn.
  - assert (run_request (ReserveDose p) [None; None; Some e] arrived db
            = (mkRequest AwaitEnd true [server_error] [e], db)) as ->.
    { rewrite run_request_cons. simpl. rewrite run_request_cons. unfold handler_step.
      change (goto AwaitSelect (set_client true arrived))
        with (mkRequest AwaitSelect true [] []).
      rewrite (select_in_stock p db n) by done. simpl.
      by rewrite !run_request_cons. }
    simpl fst. simpl snd.
    by destruct (run_request_answered (ReserveDose p) os
                (mkRequest AwaitEnd true [server_error] [e]) db)
      as (-> & -> & ->); [by left|].
Qed.

(** Without a row for the batch the two routes disagree:
    [/hospital-status] answers 404 "Inventory not found", while
    [/reserve-dose] reads [rows[0].count] of an empty result, catches the
    [TypeError], logs it and answers 500.  Neither changes the
    database. *)
Theorem missing_batch_row (p : Patient) db (os : list (option JsError)) :
  stock db = None ->
  (let out := run_request HospitalStatus ([None; None] ++ os) arrived db in
   sent (fst out) = [not_found] /\ logged (fst out) = [] /\ snd out = db) /\
  (let out := run_request (ReserveDose p) ([None; None] ++ os) arrived db in
   sent (fst out) = [server_error] /\
   logged (fst out)
   = [TypeError "Cannot read properties of undefined (reading 'count')"] /\
   snd out = db).
Proof.
  intros Hn. apply stock_None in Hn. split; cbv zeta; rewrite run_request_app.
  - assert (run_request HospitalStatus [None; None] arrived db
            = (mkRequest AwaitEnd true [not_found] [], db)) as ->.
    { rewrite run_request_cons. simpl. rewrite run_request_cons.
      unfold handler_step, hospital_status_step. simpl. by rewrite Hn. }
    simpl fst. simpl snd.
    by destruct (run_request_answered HospitalStatus os
                   (mkRequest AwaitEnd true [not_found] []) db)
      as (-> & -> & ->); [by left|].
  - assert (run_request (ReserveDose p) [None; None] arrived db
            = (mkRequest AwaitEnd true [server_error]
                 [TypeError "Cannot read properties of undefined (reading 'count')"],
               db)) as ->.
    { rewrite run_request_cons. simpl. rewrite run_request_cons.
      unfold handler_step, reserve_dose_step. simpl. by rewrite Hn. }
    simpl fst. simpl snd.
    by destruct (run_request_answered (ReserveDose p) os
                   (mkRequest AwaitEnd true [server_error]
                      [TypeError "Cannot read properties of undefined (reading 'count')"]) db)
      as (-> & -> & ->); [by left|].
Qed.

(** Write, then read: after a reservation was answered "Dose reserved",
    the next [/hospital-status] reports one dose less than there was;
    after one answered "No doses available" it reports the stock as it
    was.  The status request itself leaves the database as it is. *)
Theorem status_reports_the_reservation
        (p : Patient) db (n : Z) (os : list (option JsError)) :
  stock db = Some n ->
  let out := serve [(ReserveDose p, replicate 5 None);
                    (HospitalStatus, [None; None] ++ os)] db in
  (fun hq => sent (snd hq)) <$> fst out
  = (if (0 <? n)%Z
     then [[dose_reserved]; [mkResponse 200 (Body_count (n - 1))]]
     else [[no_doses]; [mkResponse 200 (Body_count n)]]) /\
  snd out
  = (if (0 <? n)%Z
     then insert_reservation p "CONFIRMED" (update_decrement batch db)
     else db).
Proof.
  intros Hn. cbv zeta.
  assert (forall db' m, stock db' = Some m ->
            sent (fst (run_request HospitalStatus ([None; None] ++ os) arrived db'))
            = [mkResponse 200 (Body_count m)] /\
            snd (run_request HospitalStatus ([None; None] ++ os) arrived db') = db') as Hst.
  { intros db' m Hm. destruct (stock_Some db' m Hm) as [l El].
    rewrite run_request_app.
    assert (run_request HospitalStatus [None; None] arrived db'
            = (mkRequest AwaitEnd true [mkResponse 200 (Body_count m)] [], db')) as ->.
    { rewrite run_request_cons. simpl. rewrite run_request_cons.
      unfold handler_step, hospital_status_step. simpl. by rewrite El. }
    cbn [fst snd].
    destruct (run_request_answered HospitalStatus os
                (mkRequest AwaitEnd true [mkResponse 200 (Body_count m)] []) db')
      as (-> & _ & ->); [by left|]. done. }
  rewrite !serve_cons.
  destruct (0 <? n)%Z eqn:E.
  - apply Z.ltb_lt in E. rewrite (reserve_dose_succeeds p db n) by done. cbn [fst snd].
    destruct (Hst (insert_reservation p "CONFIRMED" (update_decrement batch db))
                  (n - 1)%Z) as [H1 H2].
    { by rewrite stock_insert, stock_update, Hn. }
    cbn [fmap list_fmap fst snd]. rewrite H1, H2. done.
  - apply Z.ltb_ge in E. rewrite (reserve_dose_refused p db n) by done. cbn [fst snd].
    destruct (Hst db n Hn) as [H1 H2].
    cbn [fmap list_fmap fst snd]. rewrite H1, H2. done.
Qed.

(** *** Requests side by side *)

Local Definition waiting (q : Request) (ps : list Patient)
  : list (Handler Patient * Request) :=
  (fun p => (ReserveDose p, q)) <$> ps.

Lemma server_run_app (evs1 evs2 : list (ServerEvent Patient)) (sv : Server Patient) :
  server_run (evs1 ++ evs2) sv = server_run evs2 (server_run evs1 sv).
Proof. unfold server_run. apply foldl_app. Qed.

Lemma arrivals (ps qs : list Patient) db (q : Request) :
  server_run ((fun p => Arrive (ReserveDose p)) <$> ps) (mkServer db (waiting q qs))
  = mkServer db (waiting q qs ++ waiting arrived ps).
Proof.
  revert qs q. induction ps as [|p ps IH].
  - intros qs q. simpl. by rewrite app_nil_r.
  - intros qs q. simpl. unfold server_run in *. simpl.
    assert (forall (done : list (Handler Patient * Request)),
              foldl server_step (mkServer db done)
                    ((fun p => Arrive (ReserveDose p)) <$> ps)
              = mkServer db (done ++ waiting arrived ps)) as Hgen.
    { clear. induction ps as [|p ps IH]; intros done; simpl.
      - by rewrite app_nil_r.
      - rewrite IH. by rewrite <- app_assoc. }
    rewrite Hgen. by rewrite <- app_assoc.
Qed.

Lemma insert_middle {A : Type} (l1 l2 : list A) (x y : A) (n : nat) :
  n = length l1 -> <[n := y]> (l1 ++ x :: l2) = l1 ++ y :: l2.
Proof. intros ->. induction l1 as [|a l1 IH]; simpl; [done|]. by rewrite IH. Qed.

(** One round: every waiting request takes the same step. *)
Lemma round (q0 q1 : Request) (f : Patient -> Db Patient -> Db Patient)
      (I : Db Patient -> Prop) :
  (forall p db, I db ->
     reserve_dose_step p None q0 db = (q1, f p db) /\ I (f p db)) ->
  forall (ps2 ps1 : list Patient) db, I db ->
    server_run ((fun i => Resume i None) <$> seq (length ps1) (length ps2))
               (mkServer db (waiting q1 ps1 ++ waiting q0 ps2))
    = mkServer (foldl (fun db p => f p db) db ps2) (waiting q1 (ps1 ++ ps2))
    /\ I (foldl (fun db p => f p db) db ps2).
Proof.
  intros Hstep. induction ps2 as [|p ps2 IH]; intros ps1 db HI.
  - simpl. by rewrite !app_nil_r.
  - destruct (Hstep p db HI) as [E HI'].
    simpl. unfold server_run in *. simpl.
    assert ((waiting q1 ps1 ++ (ReserveDose p, q0) :: waiting q0 ps2) !! length ps1
            = Some (ReserveDose p, q0)) as Hl.
    { rewrite <- (length_fmap (fun p => (ReserveDose p, q1)) ps1). apply list_lookup_middle.
      done. }
    unfold waiting in Hl |- *. rewrite Hl. simpl. rewrite E.
    rewrite (insert_middle _ _ _ _ (length ps1)) by (by rewrite length_fmap).
    specialize (IH (ps1 ++ [p]) (f p db) HI').
    rewrite length_app in IH. simpl in IH. rewrite Nat.add_1_r in IH.
    unfold waiting in IH. rewrite fmap_app in IH. simpl in IH.
    rewrite <- !app_assoc in IH. simpl in IH.
    exact IH.
Qed.

Lemma stock_updates (ps : list Patient) db n :
  stock db = Some n ->
  stock (foldl (fun db (_ : Patient) => update_decrement batch db) db ps)
  = Some (n - Z.of_nat (length ps))%Z.
Proof.
  revert db n. induction ps as [|p ps IH]; intros db n Hn; simpl.
  - rewrite Hn. f_equal. lia.
  - rewrite (IH _ (n - 1)%Z) by (by rewrite stock_update, Hn). f_equal. lia.
Qed.

Lemma updates_keep (ps : list Patient) db :
  reservations (foldl (fun db (_ : Patient) => update_decrement batch db) db ps)
  = reservations db /\
  now (foldl (fun db (_ : Patient) => update_decrement batch db) db ps) = now db.
Proof. revert db. induction ps as [|p ps IH]; intros db; [done|]. simpl. by rewrite !(proj1 (IH _)), !(proj2 (IH _)). Qed.

Lemma inserts_add (ps : list Patient) db :
  foldl (fun db p => insert_reservation p "CONFIRMED" db) db ps
  = mkDb (inventory db)
         (reservations db ++ ((fun p => mkReservationRow p "CONFIRMED" (now db)) <$> ps))
         (now db).
Proof.
  revert db. induction ps as [|p ps IH]; intros db; simpl.
  - rewrite app_nil_r. by destruct db.
  - rewrite IH. simpl. by rewrite <- app_assoc.
Qed.

Lemma foldl_id (ps : list Patient) db :
  foldl (fun db (_ : Patient) => db) db ps = db.
Proof. induction ps; [done|]. done. Qed.

(** The check and the deduction of [/reserve-dose] are separate steps:
    when requests run side by side, each one reading the stock before any
    one deducts, then with a positive stock all of them are answered
    "Dose reserved" and get a reservation, however many they are, and the
    stock ends at the number of doses minus the number of requests:
    below zero when there are more requests than doses. *)
Theorem side_by_side_requests_oversell (ps : list Patient) db (n : Z) :
  stock db = Some n -> (0 < n)%Z ->
  let sv := server_run (((fun p => Arrive (ReserveDose p)) <$> ps)
                          ++ side_by_side (length ps))
                       (mkServer db []) in
  requests sv = (fun p => (ReserveDose p, answered dose_reserved [])) <$> ps /\
  stock (Routes.db sv) = Some (n - Z.of_nat (length ps))%Z /\
  reservations (Routes.db sv)
  = reservations db ++ ((fun p => mkReservationRow p "CONFIRMED" (now db)) <$> ps).
Proof.
  intros Hn Hpos. cbv zeta. unfold side_by_side.
  rewrite !server_run_app.
  change (mkServer db []) with (mkServer db (waiting arrived [])).
  rewrite (arrivals ps [] db arrived).
  change (waiting arrived [] ++ waiting arrived ps) with (waiting arrived ps).
  (* all connect *)
  destruct (round arrived (mkRequest AwaitSelect true [] []) (fun _ db => db)
              (fun _ => True)) with (ps2 := ps) (ps1 := @nil Patient) (db := db)
    as [E1 _]; [done|done|].
  simpl in E1. rewrite E1, foldl_id. clear E1.
  (* all select *)
  destruct (round (mkRequest AwaitSelect true [] []) (mkRequest AwaitUpdate true [] [])
              (fun _ db => db) (fun db => stock db = Some n))
    with (ps2 := ps) (ps1 := @nil Patient) (db := db) as [E2 _].
  { intros p db' H. split; [|done]. by apply (select_in_stock p db' n). }
  { done. }
  simpl in E2. rewrite E2, foldl_id. clear E2.
  (* all update *)
  destruct (round (mkRequest AwaitUpdate true [] []) (mkRequest AwaitInsert true [] [])
              (fun _ db => update_decrement batch db) (fun _ => True))
    with (ps2 := ps) (ps1 := @nil Patient) (db := db) as [E3 _]; [done|done|].
  simpl in E3. rewrite E3. clear E3.
  (* all insert *)
  destruct (round (mkRequest AwaitInsert true [] [])
              (mkRequest AwaitEnd true [dose_reserved] [])
              (fun p db => insert_reservation p "CONFIRMED" db) (fun _ => True))
    with (ps2 := ps) (ps1 := @nil Patient)
         (db := foldl (fun db (_ : Patient) => update_decrement batch db) db ps)
    as [E4 _]; [done|done|].
  simpl in E4. rewrite E4. clear E4.
  (* all end *)
  destruct (round (mkRequest AwaitEnd true [dose_reserved] [])
              (answered dose_reserved []) (fun _ db => db) (fun _ => True))
    with (ps2 := ps) (ps1 := @nil Patient)
         (db := foldl (fun db p => insert_reservation p "CONFIRMED" db)
                      (foldl (fun db (_ : Patient) => update_decrement batch db) db ps) ps)
    as [E5 _]; [done|done|].
  simpl in E5. rewrite E5, foldl_id. clear E5.
  simpl. rewrite inserts_add. simpl.
  destruct (updates_keep ps db) as [-> ->].
  split_and!; try done.
  change (stock (mkDb (inventory (foldl (fun db (_ : Patient) => update_decrement batch db) db ps))
                      (reservations db ++ ((fun p => mkReservationRow p "CONFIRMED" (now db)) <$> ps))
                      (now db)))
    with (stock (foldl (fun db (_ : Patient) => update_decrement batch db) db ps)).
  by apply stock_updates.
Qed.

End RoutesFacts.

(** * From the handler in the worker to the response *)

Section EndToEnd.

Context {Data : Type} {cloning : StructuredClone Data}.
Variable simulateHeavyEncryption : nat -> option Thrown.

(** The route submits [{ vitals }], an object read from the request
    body, which can be copied. *)
Hypothesis all_clone : forall d : Data, clone_error d = None.

(** [/ingest-vitals] end to end, for payloads that can be copied: when
    the worker unit that runs the task of a request takes the payload,
    posts its one message, and the pool receives it, the request is answered 200 "Vitals processed" if the
    handler returned, and 500 "Failed to process vitals" if it threw.
    What was thrown is only logged, as [result.error], or as
    ['Task failed'] when that text is empty; it is not in the
    response. *)
Theorem ingest_vitals_end_to_end
        (script : string) (size : option Z) (evs : list (Event Data))
        (s : State Data) (w : nat) (o : Worker) (t : WorkerTask Data)
        (u : CryptoWorker.UnitState) (m : WorkerResult) :
  scenario script size evs = Returns s ->
  heap s !! w = Some o -> exited o = false ->
  OnceMessageHandler w t ∈ message_listeners o ->
  CryptoWorker.listening u = true -> CryptoWorker.crashed u = false ->
  CryptoWorker.outbox (CryptoWorker.deliver simulateHeavyEncryption u (data t))
  = CryptoWorker.outbox u ++ [m] ->
  exists s' st, step (Message w m) s = Returns s' /\
    promise_status s' (promise t) = Some st /\
    match simulateHeavyEncryption (CryptoWorker.calls u) with
    | None =>
        st = Fulfilled (mkResult true (Some "Vitals encrypted successfully") None) /\
        Routes.ingest_vitals_step st Routes.awaiting_pool
        = Routes.answered Routes.vitals_processed []
    | Some v =>
        st = Rejected (Error (or_else (Some (CryptoWorker.describe v)) "Task failed")) /\
        Routes.ingest_vitals_step st Routes.awaiting_pool
        = Routes.answered Routes.vitals_failed
            [Error (or_else (Some (CryptoWorker.describe v)) "Task failed")]
    end.
Proof.
  intros Hs Hw Hex Hin Hl Hc Hout.
  destruct (scenario_unique all_clone _ _ _ _ Hs) as [HS HI].
  pose proof (message_closure_shape s w o t HS Hw Hex Hin) as ->.
  assert (m = CryptoWorker.reply simulateHeavyEncryption (CryptoWorker.calls u)) as ->.
  { unfold CryptoWorker.deliver in Hout. rewrite Hl, Hc in Hout.
    rewrite on_message_posts_once in Hout. simpl in Hout.
    apply app_inv_head in Hout. by inversion Hout. }
  destruct (inv_inflight s HI w t false Hw) as [_ Hpt].
  simpl. rewrite (emit_message_busy all_clone s w t _ Hw).
  unfold CryptoWorker.reply.
  destruct (simulateHeavyEncryption (CryptoWorker.calls u)) as [v|];
    eexists; eexists; (split; [reflexivity|]);
    unfold settle_with, promise_status, resolve, reject, on_promise; simpl;
    rewrite list_lookup_alter_eq, promises_completed, Hpt; simpl;
    (split; [reflexivity|]); done.
Qed.

End EndToEnd.

(** ** Concrete runs *)

(** The script of a pool as [routes.ts] builds it: [path.resolve] gives
    an absolute path. *)
Definition script : string := "/srv/app/dist/workers/crypto.worker.js".

(** Numbers can always be copied to a worker. *)
#[export] Instance nat_cloning : StructuredClone nat := fun _ => None.

(** A payload that is a number or a function; the structured clone
    algorithm refuses a function. *)
Inductive Value :=
  | Num (n : nat)
  | Fun.

#[export] Instance value_cloning : StructuredClone Value :=
  fun v =>
    match v with
    | Num _ => None
    | Fun => Some "() => {} could not be cloned."
    end.

Definition ok : WorkerResult := mkResult true (Some "Vitals encrypted successfully") None.
Definition boom : JsError := Error "worker crashed".

(** A pool of two workers takes three payloads: two are sent at once,
    to the last and then to the first worker, and the third one waits. *)
Example three_for_two :
  exists s, scenario (Data:=nat) script (Some 2%Z) [RunTask 1; RunTask 2; RunTask 3]
            = Returns s /\
    posted s = [(1, mkTask 1 0); (0, mkTask 2 1)] /\
    taskQueue s = [mkTask 3 2] /\ idle s = [] /\ busy s = [0; 1].
Proof. eexists. split; [vm_compute; reflexivity|]. done. Qed.

(** When the first payload is done, the third one goes to the worker
    that became free and the first promise is fulfilled. *)
Example third_follows_first :
  exists s, scenario (Data:=nat) script (Some 2%Z)
              [RunTask 1; RunTask 2; RunTask 3;
               Message 1 (mkResult true (Some "Vitals encrypted successfully") None)]
            = Returns s /\
    posted s = [(1, mkTask 1 0); (0, mkTask 2 1); (1, mkTask 3 2)] /\
    taskQueue s = [] /\
    promise_status s 0
    = Some (Fulfilled (mkResult true (Some "Vitals encrypted successfully") None)) /\
    promise_status s 1 = Some Pending /\ promise_status s 2 = Some Pending.
Proof. eexists. split; [vm_compute; reflexivity|]. done. Qed.

(** A reported failure rejects the promise with the reported text, or
    with ['Task failed'] when the text is missing or empty, and the
    worker takes the next payload. *)
Example failure_then_next :
  exists s, scenario (Data:=nat) script (Some 1%Z)
              [RunTask 1; Message 0 (mkResult false None (Some "bad key"));
               RunTask 2; Message 0 (mkResult false None (Some ""));
               RunTask 3; Message 0 (mkResult false None None);
               RunTask 4]
            = Returns s /\
    promise_status s 0 = Some (Rejected (Error "bad key")) /\
    promise_status s 1 = Some (Rejected (Error "Task failed")) /\
    promise_status s 2 = Some (Rejected (Error "Task failed")) /\
    promise_status s 3 = Some Pending /\
    posted s = [(0, mkTask 1 0); (0, mkTask 2 1); (0, mkTask 3 2); (0, mkTask 4 3)].
Proof. eexists. split; [vm_compute; reflexivity|]. done. Qed.

(** A script name that is neither absolute nor relative to the current
    directory: the first [new Worker] throws, whatever capacity at
    least 1 was asked for, and the constructor with it. *)
Example bare_script_name_is_refused :
  constructor (Data:=nat) "crypto.worker.js" (Some 1%Z)
  = Throws (worker_path_error "crypto.worker.js")
           (mkState [] [] [] "crypto.worker.js" 1%Z [] [] [] [] []) /\
  constructor (Data:=nat) "./crypto.worker.js" (Some 1%Z)
  = Returns (fresh_pool "./crypto.worker.js" 1%Z).
Proof. split; reflexivity. Qed.

(** A payload that cannot be copied, waiting in the queue: the
    completion that would hand it to the freed worker throws out of the
    listener, before the finished task is settled. *)
Example refused_payload_in_the_queue :
  exists s, scenario script (Some 1%Z) [RunTask (Num 7); RunTask Fun; Message 0 ok]
            = Throws (DataCloneError "() => {} could not be cloned.") s /\
    promise_status s 0 = Some Pending /\ promise_status s 1 = Some Pending /\
    taskQueue s = [] /\ idle s = [] /\ posted s = [(0, mkTask (Num 7) 0)].
Proof. eexists. split; [vm_compute; reflexivity|]. done. Qed.

(** One worker, two submissions (the second one is queued), then a
    complete [terminate]. *)
Definition terminate_with_queued : list (Event nat) :=
  [RunTask 7; RunTask 8; TerminateCall; WorkerExit 0 1%Z; TerminateResume].

Lemma constructor_accepts_capacity_zero :
  constructor (Data:=nat) script (Some 0%Z)
  = Returns (mkState [] [] [] script 0%Z [] [] [] [] [])
  /\ constructor (Data:=nat) script (Some (-2)%Z)
  = Returns (mkState [] [] [] script (-2)%Z [] [] [] [] []).
Proof. split; reflexivity. Qed.

Lemma terminate_leaves_queue :
  exists s, scenario script (Some 1%Z) terminate_with_queued = Returns s /\
    workers s = [] /\ availableWorkers s = [] /\
    taskQueue s = [mkTask 8 1].
Proof. eexists. split; [vm_compute; reflexivity|]. done. Qed.

(** One worker, busy with the first task while the second one waits. *)
Definition one_waiting : State nat :=
  mkState [0] [] [mkTask 8 1] script 1%Z
          [busy_worker 0 (mkTask 7 0) false]
          [unsettled; unsettled] [(0, mkTask 7 0)] [] [].

(** [terminate] was called on [one_waiting]; while it waited, the worker
    finished the first task and took the second one, a third payload was
    submitted, and the worker exited. *)
Definition handed_over : State nat :=
  mkState [0] [] [mkTask 9 2] script 1%Z
          [stranded_worker 0 (mkTask 8 1)]
          [mkPromise (Fulfilled ok) 1; unsettled; unsettled]
          [(0, mkTask 7 0); (0, mkTask 8 1)] [LogWorkerExit 1%Z] [[0]].

Lemma terminate_clears_witness :
  exists s3, step TerminateResume handed_over = Returns s3 /\
    workers s3 = [] /\ idle s3 = [] /\ busy s3 = [] /\
    exists handed new,
      taskQueue one_waiting ++ new = handed ++ taskQueue s3 /\
      Forall (fun t => length (promises one_waiting) <= promise t) new /\
      Forall (fun t => exists w, (w, t) ∈ posted s3) handed /\
      (forallb (fun ev => negb (is_completion ev))
               [Message 0 ok; RunTask 9; WorkerExit 0 1%Z] = true -> handed = []) /\
      (forallb (fun ev => negb (is_submission ev))
               [Message 0 ok; RunTask 9; WorkerExit 0 1%Z] = true -> new = []).
Proof.
  apply (terminate_clears_workers_not_queue (Data:=nat) script (Some 1%Z)
           [RunTask 7; RunTask 8] [Message 0 ok; RunTask 9; WorkerExit 0 1%Z]
           one_waiting handed_over).
  - vm_compute. reflexivity.
  - vm_compute. reflexivity.
  - reflexivity.
Defined.

(** C3: a pool of one worker is handed a function: the worker is taken
    and gets both listeners, [postMessage] throws, and the promise
    returned is already rejected; then the worker reports an error of
    its own.  On this run [reject] of the one task is called twice,
    first by the promise whose executor threw and then by the error
    listener that [executeTask] had registered and nothing removed; the
    state of the promise is the one of the first call. *)
Theorem refused_task_is_rejected_twice :
  exists s1 s2,
    scenario script (Some 1%Z) [RunTask Fun] = Returns s1 /\
    posted s1 = [] /\ idle s1 = [] /\
    heap s1 !! 0 = Some (busy_worker 0 (mkTask Fun 0) false) /\
    promises s1 !! 0
    = Some (mkPromise (Rejected (DataCloneError "() => {} could not be cloned.")) 1) /\
    step (WorkerError 0 boom) s1 = Returns s2 /\
    promises s2 !! 0
    = Some (mkPromise (Rejected (DataCloneError "() => {} could not be cloned.")) 2) /\
    idle s2 = [0].
Proof.
  eexists. eexists. split; [vm_compute; reflexivity|].
  split_and!; try done.
Qed.





(** The only worker is handed a function: nothing is posted to it, it
    is out of the available list, and the promise returned is already
    rejected. *)
Lemma refused_payload_is_not_dispatched :
  idle (fresh_pool (Data:=Value) script 1%Z) = [0] /\
  fst (runTask Fun (fresh_pool script 1%Z)) = 0 /\
  posted (snd (runTask Fun (fresh_pool script 1%Z))) = [] /\
  taskQueue (snd (runTask Fun (fresh_pool script 1%Z))) = [] /\
  idle (snd (runTask Fun (fresh_pool script 1%Z))) = [] /\
  promise_status (snd (runTask Fun (fresh_pool script 1%Z))) 0
  = Some (Rejected (DataCloneError "() => {} could not be cloned.")).
Proof. split_and!; reflexivity. Qed.




(** One worker that has exited while [terminate] waits for it, with the
    second task still queued. *)
Definition exit_awaited : State nat :=
  mkState [0] [] [mkTask 8 1] script 1%Z
          [stranded_worker 0 (mkTask 7 0)]
          [unsettled; unsettled] [(0, mkTask 7 0)] [LogWorkerExit 1%Z] [[0]].

Lemma after_terminate_witness :
  exists s0, step TerminateResume exit_awaited = Returns s0 /\
    forall evs1, exists s1, run evs1 s0 = Returns s1 /\
      forall d,
        let p := fst (runTask d s1) in
        let s2 := snd (runTask d s1) in
        taskQueue s2 = taskQueue s1 ++ [mkTask d p] /\
        idle s2 = [] /\
        posted s2 = posted s1 /\
        promise_status s2 p = Some Pending /\
        forall evs2, exists s3, run evs2 s2 = Returns s3 /\
          promise_status s3 p = Some Pending.
Proof.
  apply (submissions_after_terminate_never_settle (Data:=nat) script (Some 1%Z)
           [RunTask 7; RunTask 8; TerminateCall; WorkerExit 0 1%Z] exit_awaited).
  - vm_compute. reflexivity.
  - reflexivity.
Defined.

Lemma worker_result_witness :
  exists s', step (Message 0 (mkResult false None (Some "bad key"))) one_waiting
             = Returns s' /\
    promise_status s' 0 = Some (Rejected (Error "bad key")) /\
    (forall p, p <> 0 -> promises s' !! p = promises one_waiting !! p).
Proof.
  apply (worker_result_settles_task (Data:=nat) (fun _ => eq_refl) script (Some 1%Z)
           [RunTask 7; RunTask 8]
           one_waiting 0 (busy_worker 0 (mkTask 7 0) false) (mkTask 7 0)
           (mkResult false None (Some "bad key"))).
  - vm_compute. reflexivity.
  - reflexivity.
  - reflexivity.
  - simpl. left.
Defined.

Lemma one_task_per_worker_witness :
  exists s, scenario (Data:=nat) script (Some 2%Z) [RunTask 1; RunTask 2; RunTask 3]
            = Returns s /\
    NoDup (idle s) /\
    (forall w, w ∈ idle s -> worker_busy (heap s) w = false) /\
    (forall w o, heap s !! w = Some o ->
       length (message_listeners o) <= 1 /\
       forall w' t, OnceMessageHandler w' t ∈ message_listeners o ->
         w' = w /\ error_listeners o = [OnWorkerError; OnceErrorHandler w t] /\
         (w ∉ idle s) /\ (w, t) ∈ posted s).
Proof.
  apply (one_task_per_worker (Data:=nat) (fun _ => eq_refl) script (Some 2%Z)
           [RunTask 1; RunTask 2; RunTask 3]).
  reflexivity.
Defined.

Lemma fresh_pool_witness :
  exists s, scenario (Data:=nat) script (Some (Z.of_nat (length [1; 2; 3])))
              (RunTask <$> [1; 2; 3]) = Returns s /\
    taskQueue s = [] /\ idle s = [] /\
    length (posted s) = length [1; 2; 3] /\
    taskQueue (snd (runTask 4 s)) = [mkTask 4 (length [1; 2; 3])] /\
    posted (snd (runTask 4 s)) = posted s.
Proof.
  apply (fresh_pool_takes_capacity (Data:=nat) (fun _ => eq_refl) script [1; 2; 3] 4).
  reflexivity.
Defined.

Lemma every_task_witness :
  exists s, scenario (Data:=nat) script (Some 1%Z)
              [RunTask 7; RunTask 8; Message 0 ok; RunTask 9] = Returns s /\
    forall p c, promises s !! p = Some c ->
      (queued s p \/ (exists w, running_on s w p) \/ settled s p) /\
      (queued s p -> status c = Pending /\ forall w, ~ running_on s w p) /\
      (forall w, running_on s w p ->
         status c = Pending /\ forall w', running_on s w' p -> w' = w) /\
      (settled s p -> ~ queued s p /\ forall w, ~ running_on s w p).
Proof.
  apply (every_task_has_one_owner (Data:=nat) (fun _ => eq_refl) script (Some 1%Z)
           [RunTask 7; RunTask 8; Message 0 ok; RunTask 9]).
  reflexivity.
Defined.

Lemma settled_once_witness :
  exists s s', scenario (Data:=nat) script (Some 1%Z)
                 [RunTask 7; RunTask 8; Message 0 ok] = Returns s /\
    run [WorkerError 0 boom; Message 0 ok] s = Returns s' /\
    (forall p c, promises s !! p = Some c ->
       settle_calls c <= 1 /\ (settle_calls c = 0 <-> status c = Pending)) /\
    (forall w w' o t, heap s !! w = Some o ->
       OnceMessageHandler w' t ∈ message_listeners o \/
       OnceErrorHandler w' t ∈ error_listeners o ->
       promises s !! promise t = Some unsettled) /\
    (forall p c, promises s !! p = Some c -> status c <> Pending ->
       promises s' !! p = Some c).
Proof.
  apply (promise_settled_at_most_once (Data:=nat) (fun _ => eq_refl) script (Some 1%Z)
           [RunTask 7; RunTask 8; Message 0 ok] [WorkerError 0 boom; Message 0 ok]).
  reflexivity.
Defined.

(** One worker, busy with a number while a function waits. *)
Definition function_waiting : State Value :=
  mkState [0] [] [mkTask Fun 1] script 1%Z
          [busy_worker 0 (mkTask (Num 7) 0) false]
          [unsettled; unsettled] [(0, mkTask (Num 7) 0)] [] [].

Lemma refused_queue_head_witness :
  (forall result, exists s',
     step (Message 0 result) function_waiting
     = Throws (DataCloneError "() => {} could not be cloned.") s' /\
     promises s' = promises function_waiting /\ posted s' = posted function_waiting /\
     taskQueue s' = [] /\
     heap s' !! 0 = Some (busy_worker 0 (mkTask Fun 1) false) /\
     idle s' = idle function_waiting /\ console s' = console function_waiting) /\
  (forall err, exists s',
     step (WorkerError 0 err) function_waiting
     = Throws (DataCloneError "() => {} could not be cloned.") s' /\
     promises s' = promises function_waiting /\ posted s' = posted function_waiting /\
     taskQueue s' = [] /\
     heap s' !! 0 = Some (busy_worker 0 (mkTask Fun 1) false) /\
     idle s' = idle function_waiting /\
     console s' = console function_waiting ++ [LogWorkerError err]).
Proof.
  apply (refused_queue_head_ends_the_run script (Some 1%Z) [RunTask (Num 7); RunTask Fun]
           function_waiting 0 (busy_worker 0 (mkTask (Num 7) 0) false)
           (mkTask (Num 7) 0) (mkTask Fun 1) [] "() => {} could not be cloned.").
  - vm_compute. reflexivity.
  - reflexivity.
  - reflexivity.
  - simpl. left.
  - reflexivity.
  - reflexivity.
Defined.

(** The runs below use the states [one_waiting] and [exit_awaited]. *)

Lemma exit_strands_witness :
  exists s1, step (WorkerExit 0 1%Z) one_waiting = Returns s1 /\
    workers s1 = workers one_waiting /\
    availableWorkers s1 = availableWorkers one_waiting /\
    taskQueue s1 = taskQueue one_waiting /\ promises s1 = promises one_waiting /\
    posted s1 = posted one_waiting /\
    console s1 = console one_waiting ++ (if Z.eqb 1 0 then [] else [LogWorkerExit 1%Z]) /\
    forall evs', exists s2, run evs' s1 = Returns s2 /\
      promise_status s2 0 = Some Pending /\
      heap s2 !! 0 = Some (stranded_worker 0 (mkTask 7 0)) /\
      (0 ∉ idle s2).
Proof.
  apply (exit_strands_running_task (Data:=nat) (fun _ => eq_refl) script (Some 1%Z)
           [RunTask 7; RunTask 8]
           one_waiting 0 (busy_worker 0 (mkTask 7 0) false) (mkTask 7 0) 1%Z).
  - vm_compute. reflexivity.
  - reflexivity.
  - reflexivity.
  - simpl. left.
Defined.

Lemma exited_idle_witness :
  exists s1, step (WorkerExit 0 1%Z) (fresh_pool (Data:=nat) script 1%Z) = Returns s1 /\
    availableWorkers s1 = [] ++ [0] /\
    let p := fst (runTask 7 s1) in
    let s2 := snd (runTask 7 s1) in
    availableWorkers s2 = [] /\
    posted s2 = posted s1 ++ [(0, mkTask 7 p)] /\
    forall evs', exists s3, run evs' s2 = Returns s3 /\
      promise_status s3 p = Some Pending.
Proof.
  apply (exited_idle_worker_is_still_used (Data:=nat) (fun _ => eq_refl) script (Some 1%Z) []
           (fresh_pool script 1%Z) [] 0 (idle_worker false) 1%Z 7).
  - vm_compute. reflexivity.
  - reflexivity.
  - reflexivity.
  - reflexivity.
Defined.

Lemma terminate_strands_witness :
  exists s0, step TerminateResume exit_awaited = Returns s0 /\
    promises s0 = promises exit_awaited /\ taskQueue s0 = taskQueue exit_awaited /\
    forall evs', exists s', run evs' s0 = Returns s' /\
      posted s' = posted s0 /\
      (forall p c, promises s0 !! p = Some c -> promises s' !! p = Some c) /\
      (forall p, queued s0 p \/ (exists w, running_on s0 w p) ->
         promise_status s' p = Some Pending).
Proof.
  apply (terminate_strands_outstanding_work (Data:=nat) (fun _ => eq_refl) script (Some 1%Z)
           [RunTask 7; RunTask 8; TerminateCall; WorkerExit 0 1%Z] exit_awaited).
  - vm_compute. reflexivity.
  - reflexivity.
Defined.

Lemma worker_errors_witness :
  exists s', step (WorkerError 0 boom) (fresh_pool (Data:=nat) script 1%Z) = Returns s' /\
    console s' = console (fresh_pool (Data:=nat) script 1%Z) ++ [LogWorkerError boom] /\
    OnWorkerError ∈ error_listeners (idle_worker (Data:=nat) false) /\
    (is_busy (idle_worker (Data:=nat) false) = false ->
       workers s' = workers (fresh_pool (Data:=nat) script 1%Z) /\
       availableWorkers s' = availableWorkers (fresh_pool (Data:=nat) script 1%Z) /\
       taskQueue s' = taskQueue (fresh_pool (Data:=nat) script 1%Z) /\
       heap s' = heap (fresh_pool (Data:=nat) script 1%Z) /\
       promises s' = promises (fresh_pool (Data:=nat) script 1%Z) /\
       posted s' = posted (fresh_pool (Data:=nat) script 1%Z)).
Proof.
  apply (worker_errors_are_logged (Data:=nat) (fun _ => eq_refl) script (Some 1%Z) []
           (fresh_pool script 1%Z) 0 (idle_worker false) boom).
  - vm_compute. reflexivity.
  - reflexivity.
  - reflexivity.
Defined.

(** A database with three doses of the batch, and one without the
    batch. *)
Definition three_doses : Routes.Db string :=
  Routes.mkDb [Routes.mkInventoryRow "Moderna-Batch-B" 9;
               Routes.mkInventoryRow Routes.batch 3] [] 1700000000.

Definition no_batch : Routes.Db string :=
  Routes.mkDb [Routes.mkInventoryRow "Moderna-Batch-B" 9] [] 1700000000.

Definition five_calls : list (option JsError) := replicate 5 None.

(** Five requests, one after the other, with database calls that fail. *)
Definition mixed_requests : list (Routes.Handler string * list (option JsError)) :=
  [(Routes.ReserveDose "ann", five_calls);
   (Routes.HospitalStatus, [None; Some boom]);
   (Routes.ReserveDose "bob", [None; None; None; Some boom; None]);
   (Routes.ReserveDose "cyd", five_calls);
   (Routes.ReserveDose "dee", five_calls)].

Lemma serial_requests_witness :
  exists n', Routes.stock (snd (Routes.serve mixed_requests three_doses)) = Some n' /\
    (0 <= n')%Z /\ (n' <= 3)%Z /\
    Routes.reservations (snd (Routes.serve mixed_requests three_doses))
    = Routes.reservations three_doses
      ++ Routes.confirmed (Routes.now three_doses)
           (fst (Routes.serve mixed_requests three_doses)) /\
    length (Routes.confirmed (Routes.now three_doses)
              (fst (Routes.serve mixed_requests three_doses)))
    = Routes.reserved (fst (Routes.serve mixed_requests three_doses)) /\
    (Z.of_nat (Routes.reserved (fst (Routes.serve mixed_requests three_doses)))
     <= 3 - n')%Z.
Proof.
  apply (serial_requests_never_oversell (Patient:=string)).
  - reflexivity.
  - vm_compute. discriminate.
Defined.

(** In that run ann and cyd get their rows; bob's dose is deducted but
    his insert fails, and dee finds the stock empty. *)
Example mixed_requests_rows :
  Routes.reservations (snd (Routes.serve mixed_requests three_doses))
  = [Routes.mkReservationRow "ann" "CONFIRMED" 1700000000;
     Routes.mkReservationRow "cyd" "CONFIRMED" 1700000000] /\
  Routes.stock (snd (Routes.serve mixed_requests three_doses)) = Some 0%Z.
Proof. split; reflexivity. Qed.

Lemma serial_reservations_witness :
  let out := Routes.serve ((fun p => (Routes.ReserveDose p, replicate 5 None))
                             <$> ["ann"; "bob"; "cyd"; "dee"; "eve"]) three_doses in
  Routes.stock (snd out) = Some (Z.max 0 (3 - Z.of_nat 5)) /\
  Routes.reservations (snd out)
  = Routes.reservations three_doses
    ++ ((fun p => Routes.mkReservationRow p "CONFIRMED" (Routes.now three_doses))
          <$> take (Z.to_nat 3) ["ann"; "bob"; "cyd"; "dee"; "eve"]) /\
  (fun hq => snd hq) <$> fst out
  = replicate (Nat.min (Z.to_nat 3) 5) (Routes.answered Routes.dose_reserved [])
    ++ replicate (5 - Z.to_nat 3) (Routes.answered Routes.no_doses []).
Proof.
  apply (serial_reservations_sell_the_stock (Patient:=string)
           ["ann"; "bob"; "cyd"; "dee"; "eve"] three_doses 3%Z).
  - reflexivity.
  - vm_compute. discriminate.
Defined.

Lemma failed_insert_witness :
  (let out := Routes.run_request (Routes.ReserveDose "ann")
                ([None; None; None; Some boom] ++ [None]) Routes.arrived three_doses in
   Routes.sent (fst out) = [Routes.server_error] /\ Routes.logged (fst out) = [boom] /\
   Routes.stock (snd out) = Some (3 - 1)%Z /\
   Routes.reservations (snd out) = Routes.reservations three_doses) /\
  (let out := Routes.run_request (Routes.ReserveDose "ann")
                ([None; None; Some boom] ++ [None]) Routes.arrived three_doses in
   Routes.sent (fst out) = [Routes.server_error] /\ Routes.logged (fst out) = [boom] /\
   snd out = three_doses).
Proof.
  apply (failed_insert_keeps_the_deduction (Patient:=string) "ann" three_doses 3%Z boom [None]).
  - reflexivity.
  - reflexivity.
Defined.

Lemma missing_batch_witness :
  (let out := Routes.run_request Routes.HospitalStatus ([None; None] ++ [None])
                Routes.arrived no_batch in
   Routes.sent (fst out) = [Routes.not_found] /\ Routes.logged (fst out) = [] /\
   snd out = no_batch) /\
  (let out := Routes.run_request (Routes.ReserveDose "ann") ([None; None] ++ [None])
                Routes.arrived no_batch in
   Routes.sent (fst out) = [Routes.server_error] /\
   Routes.logged (fst out)
   = [TypeError "Cannot read properties of undefined (reading 'count')"] /\
   snd out = no_batch).
Proof.
  apply (missing_batch_row (Patient:=string) "ann" no_batch [None]).
  reflexivity.
Defined.

(** Five requests side by side for three doses. *)
Lemma side_by_side_witness :
  let sv := Routes.server_run
              (((fun p => Routes.Arrive (Routes.ReserveDose p))
                  <$> ["ann"; "bob"; "cyd"; "dee"; "eve"])
                 ++ Routes.side_by_side 5)
              (Routes.mkServer three_doses []) in
  Routes.requests sv
  = (fun p => (Routes.ReserveDose p, Routes.answered Routes.dose_reserved []))
      <$> ["ann"; "bob"; "cyd"; "dee"; "eve"] /\
  Routes.stock (Routes.db sv) = Some (3 - Z.of_nat 5)%Z /\
  Routes.reservations (Routes.db sv)
  = Routes.reservations three_doses
    ++ ((fun p => Routes.mkReservationRow p "CONFIRMED" (Routes.now three_doses))
          <$> ["ann"; "bob"; "cyd"; "dee"; "eve"]).
Proof.
  apply (side_by_side_requests_oversell (Patient:=string)
           ["ann"; "bob"; "cyd"; "dee"; "eve"] three_doses 3%Z).
  - reflexivity.
  - reflexivity.
Defined.

(** A handler that throws an [Error] without a message on its first
    call. *)
Definition throws_first (n : nat) : option Thrown :=
  match n with
  | 0 => Some (ThrownError (Error ""))
  | S _ => None
  end.

Lemma ingest_vitals_witness :
  exists s' st, step (Message 0 (mkResult false None (Some ""))) one_waiting = Returns s' /\
    promise_status s' 0 = Some st /\
    st = Rejected (Error "Task failed") /\
    Routes.ingest_vitals_step st Routes.awaiting_pool
    = Routes.answered Routes.vitals_failed [Error "Task failed"].
Proof.
  apply (ingest_vitals_end_to_end (Data:=nat) throws_first (fun _ => eq_refl)
           script (Some 1%Z)
           [RunTask 7; RunTask 8] one_waiting 0 (busy_worker 0 (mkTask 7 0) false)
           (mkTask 7 0) (CryptoWorker.main true) (mkResult false None (Some ""))).
  - vm_compute. reflexivity.
  - reflexivity.
  - reflexivity.
  - simpl. left.
  - reflexivity.
  - reflexivity.
  - reflexivity.
Defined.

Lemma status_reports_witness :
  let out := Routes.serve [(Routes.ReserveDose "ann", replicate 5 None);
                           (Routes.HospitalStatus, [None; None] ++ [None])] three_doses in
  (fun hq => Routes.sent (snd hq)) <$> fst out
  = (if (0 <? 3)%Z
     then [[Routes.dose_reserved]; [Routes.mkResponse 200 (Routes.Body_count (3 - 1))]]
     else [[Routes.no_doses]; [Routes.mkResponse 200 (Routes.Body_count 3)]]) /\
  snd out
  = (if (0 <? 3)%Z
     then Routes.insert_reservation "ann" "CONFIRMED"
            (Routes.update_decrement Routes.batch three_doses)
     else three_doses).
Proof.
  apply (status_reports_the_reservation (Patient:=string) "ann" three_doses 3%Z [None]).
  reflexivity.
Defined.
